(** * swagger2ts-codegen: a shallow embedding of the naming utilities, the
    parser's reference closure and response unwrapping, the type and function
    emitters and the sentinel merge, with the properties of the specification
    proved over it.

    Conventions of the embedding.
    - A JavaScript string is a sequence of code units; it is modelled by a
      Stdlib [string].  Case mapping ([toUpperCase], [toLowerCase]) acts on the
      ASCII letters, the alphabet paths, parameter names and type names are
      written in; every other code unit is left as it is.
    - [undefined] is [None]; a test [if (x)] on an optional string is the
      function [truthy], which also rejects the empty string.
    - A [Record<string, T>] or a [Map] is an association list in enumeration
      (insertion) order; a [Set<string>] is a duplicate-free list in insertion
      order.  The list holds the members that a plain object has of its own;
      the names that every object inherits ([constructor], [toString], ...)
      are [TagUpdate.objectPrototypeNames], the operator [in] is
      [TagUpdate.inObject], and a statement about a lookup in a plain object
      says where it needs that no inherited name is looked up.
    - [indexOf] returns [None] where JavaScript returns [-1]. *)

From Stdlib Require Import Bool Arith Lia List Ascii String ZArith.
From Stdlib Require Import Sorting.Sorted Sorting.Permutation.
From Stdlib Require Import Numbers.DecimalString.
Import ListNotations.
Local Open Scope list_scope.
Local Open Scope string_scope.

(* ================================================================= *)
(** ** JavaScript string primitives *)

Module JsString.

Definition nl : string := String (ascii_of_nat 10) "".

(** [s.startsWith(p)] *)
Fixpoint startsWith (s p : string) {struct p} : bool :=
  match p with
  | "" => true
  | String a p' =>
      match s with
      | "" => false
      | String b s' => if Ascii.eqb a b then startsWith s' p' else false
      end
  end.

(** [s.slice(n)] for [n >= 0] *)
Fixpoint drop (n : nat) (s : string) : string :=
  match n, s with
  | 0, _ => s
  | S _, "" => ""
  | S n', String _ s' => drop n' s'
  end.

(** [s.slice(0, n)] for [n >= 0] *)
Fixpoint take (n : nat) (s : string) : string :=
  match n, s with
  | 0, _ => ""
  | S _, "" => ""
  | S n', String c s' => String c (take n' s')
  end.

(** [s.slice(a, b)] for [0 <= a] and [0 <= b]: the code units from index [a]
    up to, not including, index [b]; empty when [b <= a]. *)
Definition slice (a b : nat) (s : string) : string :=
  take (b - a) (drop a s).

(** [s.slice(0, -n)] for [n >= 0].  [-0] is [0], so the result is empty when
    [n = 0]; otherwise the last [n] code units are cut off. *)
Definition sliceToNeg (n : nat) (s : string) : string :=
  match n with
  | 0 => ""
  | S _ => take (String.length s - n) s
  end.

(** [s.endsWith(p)] *)
Definition endsWith (s p : string) : bool :=
  (String.length p <=? String.length s)%nat &&
  String.eqb (drop (String.length s - String.length p) s) p.

(** [s.indexOf(p)]: the least index at which [p] occurs in [s]. *)
Fixpoint indexOf (p s : string) : option nat :=
  if startsWith s p then Some 0
  else match s with
       | "" => None
       | String _ s' => option_map S (indexOf p s')
       end.

(** [s.includes(p)] *)
Definition includes (s p : string) : bool :=
  match indexOf p s with Some _ => true | None => false end.

(** [l.includes(x)] on an array of strings *)
Fixpoint mem (x : string) (l : list string) : bool :=
  match l with
  | [] => false
  | y :: l' => String.eqb x y || mem x l'
  end.

(** [l.join(sep)] *)
Definition join (sep : string) (l : list string) : string := String.concat sep l.

(** [s.split(c)] for a one-character separator; [''.split(c)] is [['']]. *)
Fixpoint split (c : ascii) (s : string) : list string :=
  match s with
  | "" => [""]
  | String a s' =>
      if Ascii.eqb a c then "" :: split c s'
      else match split c s' with
           | h :: r => String a h :: r
           | [] => [String a ""]
           end
  end.

Definition isUpper (c : ascii) : bool :=
  let n := nat_of_ascii c in (65 <=? n)%nat && (n <=? 90)%nat.
Definition isLower (c : ascii) : bool :=
  let n := nat_of_ascii c in (97 <=? n)%nat && (n <=? 122)%nat.
Definition isDigit (c : ascii) : bool :=
  let n := nat_of_ascii c in (48 <=? n)%nat && (n <=? 57)%nat.

(** The case mapping of one code unit: that of JavaScript on the ASCII
    range; every other code unit is left as it is. *)
Definition upperChar (c : ascii) : ascii :=
  if isLower c then ascii_of_nat (nat_of_ascii c - 32) else c.
Definition lowerChar (c : ascii) : ascii :=
  if isUpper c then ascii_of_nat (nat_of_ascii c + 32) else c.

(** [s.toLowerCase()], [s.toUpperCase()] *)
Fixpoint toLowerCase (s : string) : string :=
  match s with
  | "" => ""
  | String c s' => String (lowerChar c) (toLowerCase s')
  end.
Fixpoint toUpperCase (s : string) : string :=
  match s with
  | "" => ""
  | String c s' => String (upperChar c) (toUpperCase s')
  end.

(** The line terminators that the regular-expression dot does not match. *)
Definition isLineTerminator (c : ascii) : bool :=
  let n := nat_of_ascii c in (n =? 10)%nat || (n =? 13)%nat.

(** The value of [if (x)] for an optional string: [undefined] and [''] are
    falsy. *)
Definition truthy (x : option string) : bool :=
  match x with
  | Some s => negb (String.eqb s "")
  | None => false
  end.

(** [x === v] on an optional string *)
Definition strictEq (x : option string) (v : string) : bool :=
  match x with
  | Some s => String.eqb s v
  | None => false
  end.

(** [x || d] on an optional string *)
Definition orElse (x : option string) (d : string) : string :=
  match x with
  | Some s => if String.eqb s "" then d else s
  | None => d
  end.

(** A regular expression used with the [g] flag in [replace]: [m s] is the
    match of the expression anchored at the start of [s], given as the text
    that replaces it and the text that follows it. *)
Definition Matcher := string -> option (string * string).

(** [s.replace(/re/g, f)]: at each position, leftmost first, a match is
    replaced and scanning resumes behind it; a code unit at which nothing
    matches is copied. [fuel] bounds the number of steps. *)
Fixpoint replaceAllFuel (m : Matcher) (fuel : nat) (s : string) : string :=
  match fuel with
  | 0 => s
  | S fuel' =>
      match m s with
      | Some (rep, rest) => rep ++ replaceAllFuel m fuel' rest
      | None =>
          match s with
          | "" => ""
          | String c s' => String c (replaceAllFuel m fuel' s')
          end
      end
  end.

(** The length of the text is enough fuel when every match consumes at least
    one code unit, as the matches of the expressions used here do. *)
Definition replaceAll (m : Matcher) (s : string) : string :=
  replaceAllFuel m (String.length s) s.

(** The replacement patterns of [String.prototype.replace] for a string
    pattern (no capture groups): [$$], [$&], [$`] and [$'] are expanded,
    every other code unit stands for itself. *)
Fixpoint expandReplacement (before matched after template : string) : string :=
  match template with
  | "" => ""
  | String c t =>
      if Ascii.eqb c "$" then
        match t with
        | String d t' =>
            if Ascii.eqb d "$" then String "$" (expandReplacement before matched after t')
            else if Ascii.eqb d "&" then matched ++ expandReplacement before matched after t'
            else if Ascii.eqb d "`" then before ++ expandReplacement before matched after t'
            else if Ascii.eqb d "'" then after ++ expandReplacement before matched after t'
            else String c (expandReplacement before matched after t)
        | "" => String c ""
        end
      else String c (expandReplacement before matched after t)
  end.

(** [s.replace(p, template)] for a string pattern [p]: only the first
    occurrence is replaced. *)
Definition replaceFirst (p template s : string) : string :=
  match indexOf p s with
  | None => s
  | Some i =>
      let before := take i s in
      let after := drop (i + String.length p) s in
      before ++ expandReplacement before p after template ++ after
  end.

End JsString.

(* ================================================================= *)
(** ** utils/naming: the naming utilities *)

Module Naming.
Import JsString.

(** The replacement [/[-_](.)/g] of [toCamelCase]: a hyphen or underscore
    followed by a code unit that is not a line terminator is replaced by that
    code unit in upper case. *)
Fixpoint replaceSeparators (s : string) : string :=
  match s with
  | "" => ""
  | String c rest =>
      if Ascii.eqb c "-" || Ascii.eqb c "_" then
        match rest with
        | String d rest' =>
            if isLineTerminator d then String c (replaceSeparators rest)
            else String (upperChar d) (replaceSeparators rest')
        | "" => String c ""
        end
      else String c (replaceSeparators rest)
  end.

(** The replacement [/^(.)/] with a case mapping [f] of the first code unit
    (a line terminator is its own upper and lower case). *)
Definition mapFirst (f : ascii -> ascii) (s : string) : string :=
  match s with
  | "" => ""
  | String c rest => String (f c) rest
  end.

Definition toCamelCase (str : string) : string :=
  mapFirst lowerChar (replaceSeparators str).

Definition toPascalCase (str : string) : string :=
  let camel := toCamelCase str in
  mapFirst upperChar camel.

Fixpoint removeTypeSuffix (name : string) (suffixes : list string) : string :=
  match suffixes with
  | [] => name
  | suffix :: suffixes' =>
      if endsWith name suffix then sliceToNeg (String.length suffix) name
      else removeTypeSuffix name suffixes'
  end.

Definition cleanTypeName (name : string) (suffixesToRemove : list string) : string :=
  let parts := split "." name in
  let cleanName := last parts "" in
  let cleanName := toPascalCase cleanName in
  removeTypeSuffix cleanName suffixesToRemove.

(** The longest run of code units satisfying [p] at the start of [s], and
    what follows it. *)
Fixpoint span (p : ascii -> bool) (s : string) : string * string :=
  match s with
  | "" => ("", "")
  | String c s' =>
      if p c then let (a, b) := span p s' in (String c a, b)
      else ("", s)
  end.

Definition isIdentStart (c : ascii) : bool :=
  isUpper c || isLower c || Ascii.eqb c "_".
Definition isIdentPart (c : ascii) : bool :=
  isIdentStart c || isDigit c.

(** The expression of the Swagger-style parameters, an opening brace, one or
    more code units other than a closing brace, and a closing brace,
    replaced by [`/By${toPascalCase(param)}`] *)
Definition braceParam : Matcher := fun s =>
  match s with
  | String c s' =>
      if Ascii.eqb c "{" then
        match span (fun d => negb (Ascii.eqb d "}")) s' with
        | (String p0 ps, String _ rest) =>
            Some ("/By" ++ toPascalCase (String p0 ps), rest)
        | _ => None
        end
      else None
  | "" => None
  end.

(** The expression of the Express-style parameters, a colon followed by an
    identifier (one of [a-zA-Z_], then any number of [a-zA-Z0-9_], as many as
    there are), replaced by [`/By${toPascalCase(param)}`] *)
Definition colonParam : Matcher := fun s =>
  match s with
  | String c (String d s') =>
      if Ascii.eqb c ":" && isIdentStart d then
        let (tl, rest) := span isIdentPart s' in
        Some ("/By" ++ toPascalCase (String d tl), rest)
      else None
  | _ => None
  end.

Definition nonEmpty (s : string) : bool := negb (String.eqb s "").

Definition generateFunctionName (method path : string) : string :=
  let processedPath := replaceAll colonParam (replaceAll braceParam path) in
  let pathParts :=
    join "" (map toPascalCase (filter nonEmpty (split "/" processedPath))) in
  toLowerCase method ++ pathParts.

Fixpoint cleanPathPrefix (path : string) (prefixes : list string) : string :=
  match prefixes with
  | [] => path
  | prefix :: prefixes' =>
      if startsWith path prefix then
        let result := drop (String.length prefix) path in
        if startsWith result "/" then result else "/" ++ result
      else cleanPathPrefix path prefixes'
  end.

Definition tagToDirectoryName (tag : string) : string := toCamelCase tag.

End Naming.

(* ================================================================= *)
(** ** types: the data model *)

Module Types.

(** A [Record<string, T>] in enumeration order. *)
Definition Record (T : Type) : Type := list (string * T).

(** [obj[key]] for a key that the object has of its own, and [undefined]
    ([None]) for any other key that is not a name every object inherits. *)
Fixpoint lookup {T : Type} (key : string) (obj : Record T) : option T :=
  match obj with
  | [] => None
  | (k, v) :: obj' => if String.eqb key k then Some v else lookup key obj'
  end.

Inductive RequestStyle := chain | object.

Record Config := mkConfig {
  input : string;
  output : string;
  requestStyle : RequestStyle;
  requestClient : string;
  requestImport : string;
  pathPrefixFilter : list string;
  typeNameSuffixFilter : list string;
  excludeFields : list string;
  unwrapResponseField : option string;
  tagMapping : Record string;
  includeTags : list string;
  excludeTags : list string
}.

Definition defaultConfig : Config := {|
  input := "./swagger.json";
  output := "./src/api";
  requestStyle := chain;
  requestClient := "requestClient";
  requestImport := "@/utils/request";
  pathPrefixFilter := ["/api/v1"; "/api"];
  typeNameSuffixFilter := ["Request"; "Response"];
  excludeFields := [];
  unwrapResponseField := Some "data";
  tagMapping := [];
  includeTags := [];
  excludeTags := []
|}.

(** A member of an [enum]: a string or a number (an integer literal). *)
Inductive EnumValue :=
| EStr (s : string)
| ENum (z : Z).

(** [SchemaObject]; the field [schema_ref] is [$ref]. *)
#[local] Set Warnings "-register-all".
Inductive SchemaObject := mkSchema {
  schema_ref : option string;
  schema_type : option string;
  schema_description : option string;
  schema_properties : option (list (string * SchemaObject));
  schema_items : option SchemaObject;
  schema_required : option (list string);
  schema_enum : option (list EnumValue);
  schema_allOf : option (list SchemaObject);
  schema_additionalProperties : option (bool + SchemaObject)
}.

(** [Parameter] (the name is a keyword here); an OpenAPI 3.0 parameter is
    read through the same fields.  The fields no function reads ([format],
    [default], [minimum], [maximum], [example]) are left out, here and in
    [SchemaObject]. *)
Record ParameterObject := mkParameter {
  param_name : string;
  param_in : string;
  param_description : option string;
  param_required : option bool;
  param_type : option string;
  param_schema : option SchemaObject;
  param_items : option SchemaObject;
  param_enum : option (list EnumValue)
}.

Record MediaType := mkMediaType { media_schema : option SchemaObject }.

(** [ResponseObject] (field [response_schema]) and [OpenAPI3Response] (field
    [response_content]) are two views of one parsed object. *)
Record ResponseObject := mkResponse {
  response_schema : option SchemaObject;
  response_content : option (Record MediaType)
}.

Record RequestBody := mkRequestBody { body_content : option (Record MediaType) }.

(** [Operation] and [OpenAPI3Operation], two views of one parsed object. *)
Record Operation := mkOperation {
  op_tags : option (list string);
  op_summary : option string;
  op_parameters : option (list ParameterObject);
  op_requestBody : option RequestBody;
  op_responses : Record ResponseObject
}.

Record PathItem := mkPathItem {
  item_get : option Operation;
  item_post : option Operation;
  item_put : option Operation;
  item_delete : option Operation;
  item_patch : option Operation;
  item_options : option Operation;
  item_head : option Operation
}.

(** [APISpec]: the parsed document.  [spec_openapi] is the version marker of
    OpenAPI 3.0, [spec_definitions] the table of Swagger 2.0 and
    [spec_schemas] is [components.schemas] of OpenAPI 3.0. *)
Record APISpec := mkSpec {
  spec_openapi : option string;
  spec_paths : Record PathItem;
  spec_definitions : option (Record SchemaObject);
  spec_schemas : option (Record SchemaObject)
}.

Definition isOpenAPI3 (spec : APISpec) : bool :=
  match spec_openapi spec with
  | Some v => JsString.startsWith v "3."
  | None => false
  end.

Record ParsedAPI := mkParsedAPI {
  api_path : string;
  api_cleanPath : string;
  api_method : string;
  api_tag : string;
  api_functionName : string;
  api_summary : option string;
  api_paramsTypeName : option string;
  api_bodyTypeName : option string;
  api_responseTypeName : option string;
  api_pathParams : list ParameterObject;
  api_queryParams : list ParameterObject;
  api_bodySchema : option SchemaObject;
  api_responseSchema : option SchemaObject
}.

Record ParsedType := mkParsedType {
  type_originalName : string;
  type_name : string;
  type_schema : SchemaObject
}.

(** A schema with no field set, the parsed [{}]. *)
Definition emptySchema : SchemaObject :=
  mkSchema None None None None None None None None None.

End Types.

(* ================================================================= *)
(** ** core/config *)

Module ConfigLoader.
Import Types.

(** Insertion of [x] in front of a list that is sorted by descending length:
    [x] goes before the first element that is not longer than it. *)
Fixpoint insertByLength (x : string) (l : list string) : list string :=
  match l with
  | [] => [x]
  | y :: l' =>
      if (String.length y <=? String.length x)%nat then x :: y :: l'
      else y :: insertByLength x l'
  end.

(** [[...l].sort((a, b) => b.length - a.length)]: a stable sort by
    descending length. *)
Fixpoint sortByLengthDesc (l : list string) : list string :=
  match l with
  | [] => []
  | x :: l' => insertByLength x (sortByLengthDesc l')
  end.

(** The entry [swagger-typegen] of [package.json]: every key may be absent. *)
Record UserConfig := mkUserConfig {
  user_input : option string;
  user_output : option string;
  user_requestStyle : option RequestStyle;
  user_requestClient : option string;
  user_requestImport : option string;
  user_pathPrefixFilter : option (list string);
  user_typeNameSuffixFilter : option (list string);
  user_excludeFields : option (list string);
  user_unwrapResponseField : option (option string);
  user_tagMapping : option (Record string);
  user_includeTags : option (list string);
  user_excludeTags : option (list string)
}.

(** [a || b] and the spread of a key that may be absent *)
Definition orDefault {T : Type} (x : option T) (d : T) : T :=
  match x with
  | Some v => v
  | None => d
  end.

(** [loadConfig]: the default configuration when [package.json] is missing
    or cannot be parsed ([None]); otherwise the user's entry over the
    defaults, with the prefixes sorted longest-first. *)
Definition loadConfig (userConfig : option UserConfig) : Config :=
  match userConfig with
  | None => defaultConfig
  | Some user =>
      {| input := orDefault (user_input user) (input defaultConfig);
         output := orDefault (user_output user) (output defaultConfig);
         requestStyle := orDefault (user_requestStyle user) (requestStyle defaultConfig);
         requestClient := orDefault (user_requestClient user) (requestClient defaultConfig);
         requestImport := orDefault (user_requestImport user) (requestImport defaultConfig);
         pathPrefixFilter :=
           sortByLengthDesc
             (orDefault (user_pathPrefixFilter user) (pathPrefixFilter defaultConfig));
         typeNameSuffixFilter :=
           orDefault (user_typeNameSuffixFilter user) (typeNameSuffixFilter defaultConfig);
         excludeFields := orDefault (user_excludeFields user) (excludeFields defaultConfig);
         unwrapResponseField :=
           orDefault (user_unwrapResponseField user) (unwrapResponseField defaultConfig);
         tagMapping := orDefault (user_tagMapping user) (tagMapping defaultConfig);
         includeTags := orDefault (user_includeTags user) (includeTags defaultConfig);
         excludeTags := orDefault (user_excludeTags user) (excludeTags defaultConfig) |}
  end.

End ConfigLoader.

(* ================================================================= *)
(** ** core/tagMapping *)

Module TagMapping.
Import JsString Types.

(** [mapping[tag] || tag], for a tag that the mapping has as a key of its
    own or that is no name every object inherits. *)
Definition applyTagMapping (tag : string) (mapping : Record string) : string :=
  orElse (lookup tag mapping) tag.

End TagMapping.

(* ================================================================= *)
(** ** core/parser *)

Module Parser.
Import JsString Naming Types TagMapping.

(** [set.add(x)] on a [Set<string>] in insertion order. *)
Definition setAdd (x : string) (s : list string) : list string :=
  if mem x s then s else (s ++ [x])%list.

Definition shouldIncludeTag (originalTag : string) (config : Config) : bool :=
  match includeTags config with
  | _ :: _ => mem originalTag (includeTags config)
  | [] =>
      match excludeTags config with
      | _ :: _ => negb (mem originalTag (excludeTags config))
      | [] => true
      end
  end.

(** [operation.tags?.[0] || 'default'] *)
Definition originalTagOf (operation : Operation) : string :=
  orElse (match op_tags operation with
          | Some (t :: _) => Some t
          | _ => None
          end) "default".

Definition definitionsPrefix : string := "#/definitions/".
Definition schemasPrefix : string := "#/components/schemas/".

(** [ref.replace(prefix, '')] *)
Definition stripPrefix (prefix ref : string) : string := replaceFirst prefix "" ref.

(** [schemaTypeToTs] and [schemaTypeToTs3], which differ in the prefix. *)
Fixpoint schemaTypeToTsWith (prefix : string) (schema : SchemaObject) : string :=
  match schema with
  | mkSchema ref type _ _ items _ _ _ _ =>
      if truthy ref then
        match ref with
        | Some r =>
            let name := last (split "." (stripPrefix prefix r)) "" in
            if String.eqb name "" then "unknown" else name
        | None => "unknown"
        end
      else if strictEq type "string" then "string"
      else if strictEq type "integer" || strictEq type "number" then "number"
      else if strictEq type "boolean" then "boolean"
      else if strictEq type "array" then
        match items with
        | Some it => schemaTypeToTsWith prefix it ++ "[]"
        | None => "unknown[]"
        end
      else if strictEq type "object" then "Record<string, unknown>"
      else "unknown"
  end.

Definition schemaTypeToTs := schemaTypeToTsWith definitionsPrefix.
Definition schemaTypeToTs3 := schemaTypeToTsWith schemasPrefix.

(** [extractUnwrappedType] and [extractUnwrappedType3]: the response type
    name, if any, and the set of used references after the call. *)
Definition extractUnwrappedTypeWith (prefix : string)
    (ref unwrapField : string) (definitions : Record SchemaObject)
    (config : Config) (usedRefs : list string) : option string * list string :=
  let refName := stripPrefix prefix ref in
  match lookup refName definitions with
  | None => (None, usedRefs)
  | Some schema =>
      match match schema_properties schema with
            | Some props => lookup unwrapField props
            | None => None
            end with
      | Some fieldSchema =>
          if truthy (schema_ref fieldSchema) then
            let r := orElse (schema_ref fieldSchema) "" in
            (Some (cleanTypeName (stripPrefix prefix r) (typeNameSuffixFilter config)),
             setAdd r usedRefs)
          else if strictEq (schema_type fieldSchema) "array"
                  && truthy (match schema_items fieldSchema with
                             | Some it => schema_ref it
                             | None => None
                             end) then
            let r := orElse (match schema_items fieldSchema with
                             | Some it => schema_ref it
                             | None => None
                             end) "" in
            let itemType :=
              cleanTypeName (stripPrefix prefix r) (typeNameSuffixFilter config) in
            (Some (itemType ++ "[]"), setAdd r usedRefs)
          else (Some (schemaTypeToTsWith prefix fieldSchema), usedRefs)
      | None => (Some (cleanTypeName refName (typeNameSuffixFilter config)), usedRefs)
      end
  end.

Definition extractUnwrappedType := extractUnwrappedTypeWith definitionsPrefix.
Definition extractUnwrappedType3 := extractUnwrappedTypeWith schemasPrefix.

(** The response part of [parseOperation] and [parseOpenAPI3Operation]: from
    the response schema, the response type name and the used references. *)
Definition unwrapAllOfItem (prefix : string) (config : Config)
    (st : option string * list string) (item : SchemaObject)
    : option string * list string :=
  let (responseTypeName, usedRefs) := st in
  let usedRefs :=
    if truthy (schema_ref item) then setAdd (orElse (schema_ref item) "") usedRefs
    else usedRefs in
  match unwrapResponseField config with
  | Some unwrapField =>
      if truthy (Some unwrapField) then
        match match schema_properties item with
              | Some props => lookup unwrapField props
              | None => None
              end with
        | Some dataSchema =>
            if truthy (schema_ref dataSchema) then
              let r := orElse (schema_ref dataSchema) "" in
              (Some (cleanTypeName (stripPrefix prefix r) (typeNameSuffixFilter config)),
               setAdd r usedRefs)
            else if truthy (schema_type dataSchema) then
              (Some (schemaTypeToTsWith prefix dataSchema), usedRefs)
            else (responseTypeName, usedRefs)
        | None => (responseTypeName, usedRefs)
        end
      else (responseTypeName, usedRefs)
  | None => (responseTypeName, usedRefs)
  end.

Definition resolveResponseWith (prefix : string) (responseSchema : SchemaObject)
    (definitions : Record SchemaObject) (config : Config) (usedRefs : list string)
    : option string * list string :=
  let unwrapField := unwrapResponseField config in
  match schema_allOf responseSchema with
  | Some members => fold_left (unwrapAllOfItem prefix config) members (None, usedRefs)
  | None =>
      if truthy (schema_ref responseSchema) then
        let r := orElse (schema_ref responseSchema) "" in
        let usedRefs := setAdd r usedRefs in
        if truthy unwrapField then
          extractUnwrappedTypeWith prefix r (orElse unwrapField "") definitions config usedRefs
        else
          (Some (cleanTypeName (stripPrefix prefix r) (typeNameSuffixFilter config)), usedRefs)
      else
        match schema_properties responseSchema with
        | Some props =>
            if truthy unwrapField then
              match lookup (orElse unwrapField "") props with
              | Some dataSchema =>
                  if truthy (schema_ref dataSchema) then
                    let r := orElse (schema_ref dataSchema) "" in
                    (Some (cleanTypeName (stripPrefix prefix r) (typeNameSuffixFilter config)),
                     setAdd r usedRefs)
                  else if truthy (schema_type dataSchema) then
                    (Some (schemaTypeToTsWith prefix dataSchema), usedRefs)
                  else (None, usedRefs)
              | None => (None, usedRefs)
              end
            else (None, usedRefs)
        | None => (None, usedRefs)
        end
  end.

(** [operation.responses['200'] || operation.responses['201']] *)
Definition successResponseOf (operation : Operation) : option ResponseObject :=
  match lookup "200" (op_responses operation) with
  | Some r => Some r
  | None => lookup "201" (op_responses operation)
  end.

(** The state of the parameter loop of [parseOperation]. *)
Record ParamState := mkParamState {
  ps_pathParams : list ParameterObject;
  ps_queryParams : list ParameterObject;
  ps_bodySchema : option SchemaObject;
  ps_bodyTypeName : option string;
  ps_usedRefs : list string
}.

Definition parseParameter (config : Config) (st : ParamState) (param : ParameterObject)
    : ParamState :=
  if String.eqb (param_in param) "path" then
    mkParamState (ps_pathParams st ++ [param])%list (ps_queryParams st)
                 (ps_bodySchema st) (ps_bodyTypeName st) (ps_usedRefs st)
  else if String.eqb (param_in param) "query" then
    mkParamState (ps_pathParams st) (ps_queryParams st ++ [param])%list
                 (ps_bodySchema st) (ps_bodyTypeName st) (ps_usedRefs st)
  else if String.eqb (param_in param) "body" then
    match param_schema param with
    | Some schema =>
        if truthy (schema_ref schema) then
          let r := orElse (schema_ref schema) "" in
          mkParamState (ps_pathParams st) (ps_queryParams st) (Some schema)
            (Some (cleanTypeName (stripPrefix definitionsPrefix r)
                                 (typeNameSuffixFilter config)))
            (setAdd r (ps_usedRefs st))
        else
          mkParamState (ps_pathParams st) (ps_queryParams st) (Some schema)
                       (ps_bodyTypeName st) (ps_usedRefs st)
    | None => st
    end
  else st.

Definition parseOperation (path method : string) (operation : Operation)
    (config : Config) (usedRefs : list string) (definitions : Record SchemaObject)
    (tagMapping : Record string) : ParsedAPI * list string :=
  let originalTag := originalTagOf operation in
  let mappedTag := applyTagMapping originalTag tagMapping in
  let tag := tagToDirectoryName mappedTag in
  let cleanPath := cleanPathPrefix path (pathPrefixFilter config) in
  let functionName := generateFunctionName method cleanPath in
  let st :=
    fold_left (parseParameter config)
      (match op_parameters operation with Some l => l | None => [] end)
      (mkParamState [] [] None None usedRefs) in
  let paramsTypeName :=
    match ps_queryParams st with
    | _ :: _ => Some (toPascalCase functionName ++ "Params")
    | [] => None
    end in
  let responseSchema :=
    match successResponseOf operation with
    | Some r => response_schema r
    | None => None
    end in
  let (responseTypeName, usedRefs') :=
    match responseSchema with
    | Some schema =>
        resolveResponseWith definitionsPrefix schema definitions config (ps_usedRefs st)
    | None => (None, ps_usedRefs st)
    end in
  (mkParsedAPI path cleanPath method tag functionName (op_summary operation)
     paramsTypeName (ps_bodyTypeName st) responseTypeName
     (ps_pathParams st) (ps_queryParams st) (ps_bodySchema st) responseSchema,
   usedRefs').

(** [content['application/json'] || content['*/*']] *)
Definition jsonContentOf (content : Record MediaType) : option MediaType :=
  match lookup "application/json" content with
  | Some m => Some m
  | None => lookup "*/*" content
  end.

(** The parameter loop of [parseOpenAPI3Operation]: the internal parameter
    takes its type and format from the parameter's schema. *)
Definition parseParameter3 (st : list ParameterObject * list ParameterObject)
    (param : ParameterObject) : list ParameterObject * list ParameterObject :=
  let internalParam :=
    mkParameter (param_name param) (param_in param) (param_description param)
      (param_required param)
      (match param_schema param with Some s => schema_type s | None => None end)
      (param_schema param) None None in
  if String.eqb (param_in param) "path" then ((fst st ++ [internalParam])%list, snd st)
  else if String.eqb (param_in param) "query" then (fst st, (snd st ++ [internalParam])%list)
  else st.

Definition parseOpenAPI3Operation (path method : string) (operation : Operation)
    (config : Config) (usedRefs : list string) (schemas : Record SchemaObject)
    (tagMapping : Record string) : ParsedAPI * list string :=
  let originalTag := originalTagOf operation in
  let mappedTag := applyTagMapping originalTag tagMapping in
  let tag := tagToDirectoryName mappedTag in
  let cleanPath := cleanPathPrefix path (pathPrefixFilter config) in
  let functionName := generateFunctionName method cleanPath in
  let (pathParams, queryParams) :=
    fold_left parseParameter3
      (match op_parameters operation with Some l => l | None => [] end) ([], []) in
  let bodySchema :=
    match op_requestBody operation with
    | Some body =>
        match body_content body with
        | Some content =>
            match jsonContentOf content with
            | Some m => media_schema m
            | None => None
            end
        | None => None
        end
    | None => None
    end in
  let (bodyTypeName, usedRefs1) :=
    match bodySchema with
    | Some schema =>
        if truthy (schema_ref schema) then
          let r := orElse (schema_ref schema) "" in
          (Some (cleanTypeName (stripPrefix schemasPrefix r) (typeNameSuffixFilter config)),
           setAdd r usedRefs)
        else (None, usedRefs)
    | None => (None, usedRefs)
    end in
  let paramsTypeName :=
    match queryParams with
    | _ :: _ => Some (toPascalCase functionName ++ "Params")
    | [] => None
    end in
  let responseSchema :=
    match successResponseOf operation with
    | Some r =>
        match response_content r with
        | Some content =>
            match jsonContentOf content with
            | Some m => media_schema m
            | None => None
            end
        | None => None
        end
    | None => None
    end in
  let (responseTypeName, usedRefs2) :=
    match responseSchema with
    | Some schema => resolveResponseWith schemasPrefix schema schemas config usedRefs1
    | None => (None, usedRefs1)
    end in
  (mkParsedAPI path cleanPath method tag functionName (op_summary operation)
     paramsTypeName bodyTypeName responseTypeName
     pathParams queryParams bodySchema responseSchema,
   usedRefs2).

Definition parseType (name : string) (schema : SchemaObject) (config : Config)
    : ParsedType :=
  mkParsedType name (cleanTypeName name (typeNameSuffixFilter config)) schema.

Definition getModuleFromTypeName (typeName : string) : string :=
  match split "." typeName with
  | first :: _ :: _ => tagToDirectoryName first
  | _ => "common"
  end.

(** [collectRefs(schema, refs)]: the references pushed on [refs], in the
    order in which they are pushed. *)
Fixpoint collectRefs (schema : SchemaObject) : list string :=
  match schema with
  | mkSchema ref _ _ properties items _ _ allOf additionalProperties =>
      if truthy ref then [orElse ref ""]
      else
        (match properties with
         | Some props =>
             (fix props_refs (l : list (string * SchemaObject)) : list string :=
                match l with
                | [] => []
                | (_, prop) :: l' => collectRefs prop ++ props_refs l'
                end) props
         | None => []
         end ++
         match items with
         | Some it => collectRefs it
         | None => []
         end ++
         match allOf with
         | Some members =>
             (fix members_refs (l : list SchemaObject) : list string :=
                match l with
                | [] => []
                | item :: l' => collectRefs item ++ members_refs l'
                end) members
         | None => []
         end ++
         match additionalProperties with
         | Some (inr ap) => collectRefs ap
         | _ => []
         end)%list
  end.

(** [refs.pop()] on an array: the array without its last element, and that
    element. *)
Definition pop (refs : list string) : option (list string * string) :=
  match rev refs with
  | [] => None
  | x :: r => Some (rev r, x)
  end.

(** The state of the drain loop: the work-list [refsToProcess] and the set
    [processedRefs]. *)
Record DrainState := mkDrain {
  refsToProcess : list string;
  processedRefs : list string
}.

(** One turn of [while (refsToProcess.length > 0)]; [None] when the loop
    condition fails. *)
Definition drainStep (prefix : string) (definitions : Record SchemaObject)
    (st : DrainState) : option DrainState :=
  match pop (refsToProcess st) with
  | None => None
  | Some (rest, ref) =>
      if mem ref (processedRefs st) then Some (mkDrain rest (processedRefs st))
      else
        let processed := (processedRefs st ++ [ref])%list in
        let refName := stripPrefix prefix ref in
        match lookup refName definitions with
        | None => Some (mkDrain rest processed)
        | Some schema => Some (mkDrain (rest ++ collectRefs schema)%list processed)
        end
  end.

(** The loop, run for at most [fuel] turns. *)
Fixpoint drainLoop (prefix : string) (definitions : Record SchemaObject)
    (fuel : nat) (st : DrainState) : DrainState :=
  match fuel with
  | 0 => st
  | S fuel' =>
      match drainStep prefix definitions st with
      | None => st
      | Some st' => drainLoop prefix definitions fuel' st'
      end
  end.

(** The references the loop can ever see: the used ones and those of the
    schemas of the table. *)
Definition refUniverse (definitions : Record SchemaObject) (usedRefs : list string)
    : list string :=
  (usedRefs ++ flat_map (fun kv => collectRefs (snd kv)) definitions)%list.

(** What a reference adds to the work-list when it is processed. *)
Definition pushCount (prefix : string) (definitions : Record SchemaObject)
    (ref : string) : nat :=
  match lookup (stripPrefix prefix ref) definitions with
  | Some schema => List.length (collectRefs schema)
  | None => 0
  end.

(** The work still to do: a reference of [refs] that is not processed yet
    counts for its own turn and for the turns of what it will push. *)
Fixpoint pendingWeight (prefix : string) (definitions : Record SchemaObject)
    (processed refs : list string) : nat :=
  match refs with
  | [] => 0
  | r :: refs' =>
      (if mem r processed then 0 else S (pushCount prefix definitions r))
      + pendingWeight prefix definitions processed refs'
  end.

(** The measure that every turn of the loop decreases. *)
Definition drainMeasure (prefix : string) (definitions : Record SchemaObject)
    (usedRefs : list string) (st : DrainState) : nat :=
  List.length (refsToProcess st)
  + pendingWeight prefix definitions (processedRefs st)
                  (refUniverse definitions usedRefs).

(** A number of turns after which the loop has ended. *)
Definition drainBound (prefix : string) (definitions : Record SchemaObject)
    (usedRefs : list string) : nat :=
  S (drainMeasure prefix definitions usedRefs (mkDrain usedRefs [])).

(** The drain of [parseSwagger2] and [parseOpenAPI3]: the processed
    references, in the order of the set. *)
Definition drainRefs (prefix : string) (definitions : Record SchemaObject)
    (usedRefs : list string) : list string :=
  processedRefs
    (drainLoop prefix definitions (drainBound prefix definitions usedRefs)
               (mkDrain usedRefs [])).

(** [map.get(key).push(x)], with [map.set(key, [])] first for a new key. *)
Fixpoint groupPush {T : Type} (key : string) (x : T) (m : Record (list T))
    : Record (list T) :=
  match m with
  | [] => [(key, [x])]
  | (k, l) :: m' =>
      if String.eqb key k then (k, (l ++ [x])%list) :: m'
      else (k, l) :: groupPush key x m'
  end.

(** The second loop: the processed references that the table defines, parsed
    and grouped by module. *)
Definition parseTypes (prefix : string) (definitions : Record SchemaObject)
    (config : Config) (processed : list string) : Record (list ParsedType) :=
  fold_left
    (fun types ref =>
       let refName := stripPrefix prefix ref in
       match lookup refName definitions with
       | None => types
       | Some schema =>
           groupPush (getModuleFromTypeName refName)
                     (parseType refName schema config) types
       end)
    processed [].

Definition methods : list string :=
  ["get"; "post"; "put"; "delete"; "patch"; "options"; "head"].

(** [pathItem[method]] *)
Definition operationOf (pathItem : PathItem) (method : string) : option Operation :=
  if String.eqb method "get" then item_get pathItem
  else if String.eqb method "post" then item_post pathItem
  else if String.eqb method "put" then item_put pathItem
  else if String.eqb method "delete" then item_delete pathItem
  else if String.eqb method "patch" then item_patch pathItem
  else if String.eqb method "options" then item_options pathItem
  else if String.eqb method "head" then item_head pathItem
  else None.

(** The first loop of [parseSwagger2] and [parseOpenAPI3], over the paths and
    the methods, with the operation parser of the dialect. *)
Definition ApiState : Type := Record (list ParsedAPI) * list string.

Definition parseMethod
    (parseOp : string -> string -> Operation -> list string -> ParsedAPI * list string)
    (config : Config) (path : string) (pathItem : PathItem)
    (st : ApiState) (method : string) : ApiState :=
  match operationOf pathItem method with
  | None => st
  | Some operation =>
      if shouldIncludeTag (originalTagOf operation) config then
        let (parsedAPI, usedRefs) := parseOp path method operation (snd st) in
        (groupPush (api_tag parsedAPI) parsedAPI (fst st), usedRefs)
      else st
  end.

Definition parsePaths
    (parseOp : string -> string -> Operation -> list string -> ParsedAPI * list string)
    (config : Config) (paths : Record PathItem) : ApiState :=
  fold_left
    (fun st entry => fold_left (parseMethod parseOp config (fst entry) (snd entry)) methods st)
    paths ([], []).

Record ParseResult := mkParseResult {
  apis : Record (list ParsedAPI);
  types : Record (list ParsedType)
}.

Definition parseSwagger2 (spec : APISpec) (config : Config) (tagMapping : Record string)
    : ParseResult :=
  let definitions := match spec_definitions spec with Some d => d | None => [] end in
  let (apis, usedRefs) :=
    parsePaths (fun path method operation usedRefs =>
                  parseOperation path method operation config usedRefs definitions tagMapping)
               config (spec_paths spec) in
  match spec_definitions spec with
  | Some definitions =>
      mkParseResult apis
        (parseTypes definitionsPrefix definitions config
                    (drainRefs definitionsPrefix definitions usedRefs))
  | None => mkParseResult apis []
  end.

Definition parseOpenAPI3 (spec : APISpec) (config : Config) (tagMapping : Record string)
    : ParseResult :=
  let schemas := match spec_schemas spec with Some d => d | None => [] end in
  let (apis, usedRefs) :=
    parsePaths (fun path method operation usedRefs =>
                  parseOpenAPI3Operation path method operation config usedRefs schemas tagMapping)
               config (spec_paths spec) in
  mkParseResult apis
    (parseTypes schemasPrefix schemas config (drainRefs schemasPrefix schemas usedRefs)).

Definition parseSwagger (spec : APISpec) (config : Config) (tagMapping : Record string)
    : ParseResult :=
  if isOpenAPI3 spec then parseOpenAPI3 spec config tagMapping
  else parseSwagger2 spec config tagMapping.

End Parser.

(* ================================================================= *)
(** ** generators/typeGenerator *)

Module TypeGenerator.
Import JsString Naming Types.

Definition isIdentifierStart (c : ascii) : bool :=
  isUpper c || isLower c || Ascii.eqb c "_" || Ascii.eqb c "$".
Definition isIdentifierPart (c : ascii) : bool :=
  isIdentifierStart c || isDigit c.

Fixpoint allChars (p : ascii -> bool) (s : string) : bool :=
  match s with
  | "" => true
  | String c s' => p c && allChars p s'
  end.

Definition isValidIdentifier (name : string) : bool :=
  match name with
  | "" => false
  | String c rest => isIdentifierStart c && allChars isIdentifierPart rest
  end.

Definition formatPropertyName (name : string) : string :=
  if isValidIdentifier name then name else "'" ++ name ++ "'".

Definition extractRefName (ref : string) : string :=
  if includes ref "#/components/schemas/" then replaceFirst "#/components/schemas/" "" ref
  else replaceFirst "#/definitions/" "" ref.

(** The text of a number in a template or a [join]. *)
Definition numberToString (z : Z) : string := NilZero.string_of_int (Z.to_int z).

(** [v => typeof v === 'string' ? `'${v}'` : v], as [join] prints it *)
Definition renderEnumValue (v : EnumValue) : string :=
  match v with
  | EStr s => "'" ++ s ++ "'"
  | ENum z => numberToString z
  end.

(** [required?.includes(k)] *)
Definition requiredIncludes (required : option (list string)) (k : string) : bool :=
  match required with
  | Some l => mem k l
  | None => false
  end.

Fixpoint schemaToTsType (schema : SchemaObject) (config : Config) : string :=
  match schema with
  | mkSchema ref type _ properties items required enum allOf additionalProperties =>
      if truthy ref then
        cleanTypeName (extractRefName (orElse ref "")) (typeNameSuffixFilter config)
      else
        match allOf with
        | Some members =>
            join " & "
              ((fix member_types (l : list SchemaObject) : list string :=
                  match l with
                  | [] => []
                  | s :: l' => schemaToTsType s config :: member_types l'
                  end) members)
        | None =>
            match enum with
            | Some values => join " | " (map renderEnumValue values)
            | None =>
                if strictEq type "string" then "string"
                else if strictEq type "integer" || strictEq type "number" then "number"
                else if strictEq type "boolean" then "boolean"
                else if strictEq type "array" then
                    match items with
                    | Some it => schemaToTsType it config ++ "[]"
                    | None => "unknown[]"
                    end
                else if strictEq type "object" then
                    match properties with
                    | Some props =>
                        "{ " ++
                        join "; "
                          ((fix prop_types (l : list (string * SchemaObject)) : list string :=
                              match l with
                              | [] => []
                              | (k, v) :: l' =>
                                  (k ++ (if requiredIncludes required k then "" else "?")
                                     ++ ": " ++ schemaToTsType v config) :: prop_types l'
                              end) props)
                        ++ " }"
                    | None =>
                        match additionalProperties with
                        | Some (inr ap) =>
                            "Record<string, " ++ schemaToTsType ap config ++ ">"
                        | _ => "Record<string, unknown>"
                        end
                    end
                else "unknown"
            end
        end
  end.

Definition generateProperty (name : string) (schema : SchemaObject) (required : bool)
    (config : Config) : string :=
  let propName := formatPropertyName name in
  let optional := if required then "" else "?" in
  let tsType := schemaToTsType schema config in
  (if truthy (schema_description schema)
   then "/** " ++ orElse (schema_description schema) "" ++ " */" ++ nl ++ "  "
   else "")
  ++ propName ++ optional ++ ": " ++ tsType.

(** [obj[key] = value]: a new key goes to the end, a known key keeps its
    place (keys are taken not to be array indices). *)
Fixpoint assignKey {T : Type} (key : string) (value : T) (obj : Record T) : Record T :=
  match obj with
  | [] => [(key, value)]
  | (k, v) :: obj' =>
      if String.eqb key k then (k, value) :: obj'
      else (k, v) :: assignKey key value obj'
  end.

(** [Object.assign(target, source)] *)
Definition objectAssign {T : Type} (target source : Record T) : Record T :=
  fold_left (fun acc kv => assignKey (fst kv) (snd kv) acc) source target.

(** The state of the [allOf] loop of [generateTypeDefinition]. *)
Record AllOfState := mkAllOf {
  mergedProps : Record SchemaObject;
  mergedRequired : list string;
  extendsTypes : list string
}.

Definition mergeAllOfItem (config : Config) (st : AllOfState) (item : SchemaObject)
    : AllOfState :=
  let extends :=
    if truthy (schema_ref item) then
      (extendsTypes st ++
       [cleanTypeName (extractRefName (orElse (schema_ref item) ""))
                      (typeNameSuffixFilter config)])%list
    else extendsTypes st in
  let props :=
    match schema_properties item with
    | Some p => objectAssign (mergedProps st) p
    | None => mergedProps st
    end in
  let required :=
    match schema_required item with
    | Some r => (mergedRequired st ++ r)%list
    | None => mergedRequired st
    end in
  mkAllOf props required extends.

(** The property lines of an interface: the entries whose name is not in
    [excludeFields], each rendered by [generateProperty]. *)
Fixpoint propertyLines (config : Config) (required : list string)
    (props : Record SchemaObject) : list string :=
  match props with
  | [] => []
  | (propName, propSchema) :: props' =>
      if mem propName (excludeFields config) then propertyLines config required props'
      else ("  " ++ generateProperty propName propSchema (mem propName required) config)
           :: propertyLines config required props'
  end.

Definition generateTypeDefinition (name : string) (schema : SchemaObject)
    (config : Config) : string :=
  let lines :=
    if truthy (schema_description schema)
    then ["/** " ++ orElse (schema_description schema) "" ++ " */"]
    else [] in
  match schema_allOf schema with
  | Some members =>
      let st := fold_left (mergeAllOfItem config) members (mkAllOf [] [] []) in
      match extendsTypes st, mergedProps st with
      | _ :: _, [] =>
          join nl (lines ++ [("export type " ++ name ++ " = " ++ join " & " (extendsTypes st))%string])%list
      | _, _ =>
          let extendsClause :=
            match extendsTypes st with
            | _ :: _ => " extends " ++ join ", " (extendsTypes st)
            | [] => ""
            end in
          join nl (lines ++ [("export interface " ++ name ++ extendsClause ++ " {")%string]
                         ++ propertyLines config (mergedRequired st) (mergedProps st)
                         ++ ["}"])%list
      end
  | None =>
      match schema_enum schema with
      | Some values =>
          join nl (lines ++ [("export type " ++ name ++ " = "
                              ++ join " | " (map renderEnumValue values))%string])%list
      | None =>
          if strictEq (schema_type schema) "object"
             || match schema_properties schema with Some _ => true | None => false end
          then
            join nl
              (lines ++ [("export interface " ++ name ++ " {")%string]
               ++ match schema_properties schema with
                  | Some props =>
                      propertyLines config
                        (match schema_required schema with Some r => r | None => [] end)
                        props
                  | None => []
                  end
               ++ match schema_additionalProperties schema with
                  | Some (inl true) => ["  [key: string]: unknown"]
                  | Some (inr ap) => [("  [key: string]: " ++ schemaToTsType ap config)%string]
                  | _ => []
                  end
               ++ ["}"])%list
          else
            join nl (lines ++ [("export type " ++ name ++ " = "
                                ++ schemaToTsType schema config)%string])%list
      end
  end.

Definition parameterToTsType (param : ParameterObject) : string :=
  match param_enum param with
  | Some values => join " | " (map renderEnumValue values)
  | None =>
      if strictEq (param_type param) "string" then "string"
      else if strictEq (param_type param) "integer" || strictEq (param_type param) "number" then "number"
      else if strictEq (param_type param) "boolean" then "boolean"
      else if strictEq (param_type param) "array" then
        match param_items param with
        | Some _ => "string[]"
        | None => "unknown[]"
        end
      else "unknown"
  end.

(** The lines of one query parameter in [generateQueryParamsType]. *)
Definition queryParamLines (config : Config) (param : ParameterObject) : list string :=
  if String.eqb (param_name param) "" || String.eqb (param_name param) "-" then []
  else if mem (param_name param) (excludeFields config) then []
  else
    let propName := formatPropertyName (param_name param) in
    let optional := match param_required param with Some true => "" | _ => "?" end in
    let tsType := parameterToTsType param in
    ((if truthy (param_description param)
      then [("  /** " ++ orElse (param_description param) "" ++ " */")%string]
      else []) ++
     [("  " ++ propName ++ optional ++ ": " ++ tsType)%string])%list.

Definition generateQueryParamsType (name : string) (params : list ParameterObject)
    (config : Config) : string :=
  join nl ([("export interface " ++ name ++ " {")%string]
           ++ flat_map (queryParamLines config) params
           ++ ["}"])%list.

(** [typeMap.has(name)] *)
Fixpoint hasType (name : string) (typeMap : Record ParsedType) : bool :=
  match typeMap with
  | [] => false
  | (k, _) :: m => String.eqb name k || hasType name m
  end.

(** The loop that fills [typeMap]: a type enters the map only when its name
    is not yet a key. *)
Definition buildTypeMap (types : list ParsedType) : Record ParsedType :=
  fold_left
    (fun typeMap type =>
       if hasType (type_name type) typeMap then typeMap
       else (typeMap ++ [(type_name type, type)])%list)
    types [].

(** The declarations of the types, one per entry of [typeMap]. *)
Definition typeDeclarations (types : list ParsedType) (config : Config) : list string :=
  map (fun entry =>
         generateTypeDefinition (type_name (snd entry)) (type_schema (snd entry)) config)
      (buildTypeMap types).

(** The declarations of the query-parameter types. *)
Definition queryDeclarations (apis : list ParsedAPI) (config : Config) : list string :=
  flat_map
    (fun api =>
       match api_queryParams api with
       | _ :: _ =>
           if truthy (api_paramsTypeName api) then
             [generateQueryParamsType (orElse (api_paramsTypeName api) "")
                                      (api_queryParams api) config]
           else []
       | [] => []
       end)
    apis.

Definition generateTypesFile (types : list ParsedType) (apis : list ParsedAPI)
    (config : Config) : string :=
  join nl
    (["/**";
      " * 此文件由 swagger-typegen 自动生成，请勿手动修改";
      " */";
      ""]
     ++ flat_map (fun tsCode => [tsCode; ""]) (typeDeclarations types config)
     ++ flat_map (fun tsCode => [tsCode; ""]) (queryDeclarations apis config))%list.

End TypeGenerator.

(* ================================================================= *)
(** ** generators/apiGenerator *)

Module ApiGenerator.
Import JsString Naming Types.

Definition AUTO_GEN_START : string := "// --- AUTO GENERATED START ---".
Definition AUTO_GEN_END : string := "// --- AUTO GENERATED END ---".

Definition BUILTIN_TYPES : list string :=
  ["unknown"; "any"; "void"; "never"; "string"; "number"; "boolean";
   "null"; "undefined"; "object"; "symbol"; "bigint";
   "Record"; "Partial"; "Required"; "Readonly"; "Pick"; "Omit"; "Array"].

(** [typeName.replace(/\[\]$/, '')]: one array suffix at the end is cut off. *)
Definition extractBaseTypeName (typeName : string) : string :=
  if endsWith typeName "[]" then take (String.length typeName - 2) typeName
  else typeName.

(** Insertion in a list sorted by the order of the code units, the order of
    [sort()] without a comparator. *)
Fixpoint insertSorted (x : string) (l : list string) : list string :=
  match l with
  | [] => [x]
  | y :: l' => if String.leb x y then x :: y :: l' else y :: insertSorted x l'
  end.

(** [[...names].sort()] *)
Fixpoint sortStrings (l : list string) : list string :=
  match l with
  | [] => []
  | x :: l' => insertSorted x (sortStrings l')
  end.

(** One of the three blocks of the loop of [generateImports]. *)
Definition addTypeName (typeName : option string) (typeNames : list string)
    : list string :=
  if truthy typeName then
    let baseName := extractBaseTypeName (orElse typeName "") in
    if mem baseName BUILTIN_TYPES then typeNames
    else if mem baseName typeNames then typeNames
    else (typeNames ++ [baseName])%list
  else typeNames.

(** The set [typeNames] after the loop over the operations. *)
Definition collectTypeNames (apis : list ParsedAPI) : list string :=
  fold_left
    (fun typeNames api =>
       addTypeName (api_responseTypeName api)
         (addTypeName (api_bodyTypeName api)
            (addTypeName (api_paramsTypeName api) typeNames)))
    apis [].

Definition generateImports (apis : list ParsedAPI) (typesImportPath : string)
    (config : Config) : string :=
  let clientImport :=
    "import { " ++ requestClient config ++ " } from '" ++ requestImport config ++ "'" in
  let typeNames := collectTypeNames apis in
  match typeNames with
  | _ :: _ =>
      let typeImports := join ", " (sortStrings typeNames) in
      join nl [clientImport;
               ("import type { " ++ typeImports ++ " } from '" ++ typesImportPath ++ "'")%string]
  | [] => join nl [clientImport]
  end.

Definition buildFunctionParams (api : ParsedAPI) : list string :=
  (map (fun pathParam =>
          let tsType :=
            if strictEq (param_type pathParam) "integer" then "number"
            else orElse (param_type pathParam) "string" in
          (param_name pathParam ++ ": " ++ tsType)%string)
       (api_pathParams api)
   ++ (if truthy (api_bodyTypeName api)
       then [("data: " ++ orElse (api_bodyTypeName api) "")%string] else [])
   ++ (if truthy (api_paramsTypeName api)
       then [("params: " ++ orElse (api_paramsTypeName api) "")%string] else []))%list.

(** The loop that puts the path parameters into the request path. *)
Definition interpolatePath (api : ParsedAPI) : string :=
  fold_left
    (fun requestPath pathParam =>
       let name := param_name pathParam in
       let requestPath := replaceFirst ("{" ++ name ++ "}") ("${" ++ name ++ "}") requestPath in
       replaceFirst (":" ++ name) ("${" ++ name ++ "}") requestPath)
    (api_pathParams api) (api_cleanPath api).

Definition pathStringOf (api : ParsedAPI) : string :=
  let requestPath := interpolatePath api in
  match api_pathParams api with
  | _ :: _ => "`" ++ requestPath ++ "`"
  | [] => "'" ++ requestPath ++ "'"
  end.

Definition generateChainStyleFunction (api : ParsedAPI) (params : list string)
    (returnType : string) (config : Config) : string :=
  let funcParams := join ", " params in
  let method := toLowerCase (api_method api) in
  let pathString := pathStringOf api in
  let requestArgs :=
    if String.eqb method "get" || String.eqb method "delete" then
      pathString ++ (if truthy (api_paramsTypeName api) then ", { params }" else "")
    else
      pathString ++ (if truthy (api_bodyTypeName api) then ", data" else "")
                 ++ (if truthy (api_paramsTypeName api) then ", { params }" else "") in
  "export const " ++ api_functionName api ++ " = (" ++ funcParams ++ ") => {" ++ nl ++
  "  return " ++ requestClient config ++ "." ++ method ++ "<" ++ returnType ++ ">("
            ++ requestArgs ++ ")" ++ nl ++
  "}".

Definition generateObjectStyleFunction (api : ParsedAPI) (params : list string)
    (returnType : string) (config : Config) : string :=
  let funcParams := join ", " params in
  let method := toLowerCase (api_method api) in
  let pathString := pathStringOf api in
  let configLines :=
    ([("    url: " ++ pathString)%string; ("    method: '" ++ method ++ "'")%string]
     ++ (if truthy (api_bodyTypeName api) then ["    data"] else [])
     ++ (if truthy (api_paramsTypeName api) then ["    params"] else []))%list in
  let configStr := join ("," ++ nl) configLines in
  "export const " ++ api_functionName api ++ " = (" ++ funcParams ++ ") => {" ++ nl ++
  "  return " ++ requestClient config ++ "<" ++ returnType ++ ">({" ++ nl ++
  configStr ++ nl ++
  "  })" ++ nl ++
  "}".

Definition generateApiFunction (api : ParsedAPI) (config : Config) : string :=
  let lines :=
    if truthy (api_summary api)
    then [("/** " ++ orElse (api_summary api) "" ++ " */")%string] else [] in
  let params := buildFunctionParams api in
  let returnType := orElse (api_responseTypeName api) "unknown" in
  join nl
    (lines ++
     [match requestStyle config with
      | chain => generateChainStyleFunction api params returnType config
      | object => generateObjectStyleFunction api params returnType config
      end])%list.

Definition generateApiFile (apis : list ParsedAPI) (typesImportPath : string)
    (config : Config) : string :=
  join nl
    (["/**";
      " * 此文件由 swagger-typegen 自动生成";
      " * 自动生成的代码在 AUTO GENERATED 标记之间";
      " * 标记之外的代码不会被覆盖";
      " */";
      "";
      generateImports apis typesImportPath config;
      "";
      AUTO_GEN_START;
      ""]
     ++ flat_map (fun api => [generateApiFunction api config; ""]) apis
     ++ [AUTO_GEN_END; ""])%list.

Definition mergeWithExisting (existingContent newContent : string) : string :=
  match indexOf AUTO_GEN_START existingContent, indexOf AUTO_GEN_END existingContent with
  | Some existingStartIndex, Some existingEndIndex =>
      match indexOf AUTO_GEN_START newContent, indexOf AUTO_GEN_END newContent with
      | Some newStartIndex, Some newEndIndex =>
          let newAutoGenPart :=
            slice newStartIndex (newEndIndex + String.length AUTO_GEN_END) newContent in
          let beforeAutoGen := slice 0 existingStartIndex existingContent in
          let afterAutoGen :=
            drop (existingEndIndex + String.length AUTO_GEN_END) existingContent in
          beforeAutoGen ++ newAutoGenPart ++ afterAutoGen
      | _, _ => newContent
      end
  | _, _ => newContent
  end.

End ApiGenerator.

(* ================================================================= *)
(** ** commands/update: writing the function file of a module *)

Module Update.
Import JsString Types ApiGenerator.

(** The suffix loop of the local [cleanTypeName]: the first suffix that
    matches is cut off, and the loop is left. *)
Fixpoint removeFirstSuffix (cleanName : string) (suffixes : list string) : string :=
  match suffixes with
  | [] => cleanName
  | suffix :: suffixes' =>
      if endsWith cleanName suffix then sliceToNeg (String.length suffix) cleanName
      else removeFirstSuffix cleanName suffixes'
  end.

(** The local [cleanTypeName] of the update command. *)
Definition cleanTypeName (name : string) (suffixes : list string) : string :=
  let parts := split "." name in
  let cleanName := last parts "" in
  let cleanName := Naming.mapFirst upperChar (Naming.replaceSeparators cleanName) in
  removeFirstSuffix cleanName suffixes.

(** [extractTypeRefs]: the display names a schema refers to. *)
Fixpoint extractTypeRefs (schema : SchemaObject) (config : Config) : list string :=
  match schema with
  | mkSchema ref _ _ properties items _ _ allOf additionalProperties =>
      ((if truthy ref
        then [cleanTypeName (replaceFirst "#/definitions/" "" (orElse ref ""))
                            (typeNameSuffixFilter config)]
        else []) ++
       match properties with
       | Some props =>
           (fix props_refs (l : list (string * SchemaObject)) : list string :=
              match l with
              | [] => []
              | (_, prop) :: l' => extractTypeRefs prop config ++ props_refs l'
              end) props
       | None => []
       end ++
       match items with
       | Some it => extractTypeRefs it config
       | None => []
       end ++
       match allOf with
       | Some members =>
           (fix members_refs (l : list SchemaObject) : list string :=
              match l with
              | [] => []
              | item :: l' => extractTypeRefs item config ++ members_refs l'
              end) members
       | None => []
       end ++
       match additionalProperties with
       | Some (inr ap) => extractTypeRefs ap config
       | _ => []
       end)%list
  end.

(** The array [result] and the set [processedNames] that the collection
    fills. *)
Record CollectState := mkCollect {
  result : list ParsedType;
  processedNames : list string
}.

(** [result.push(t); processedNames.add(t.name)], done for a name that is
    not in the set. *)
Definition addType (t : ParsedType) (st : CollectState) : CollectState :=
  mkCollect (result st ++ [t])%list (processedNames st ++ [type_name t])%list.

(** The types of all modules, in the order of the two nested loops over
    [allTypes]. *)
Definition typesInOrder (allTypes : Record (list ParsedType)) : list ParsedType :=
  flat_map snd allTypes.

(** [collectDependentTypes], with [fuel] for the depth of the recursion:
    every call comes after a new name has entered [processedNames]. *)
Fixpoint collectDependentTypes (fuel : nat) (allTypes : Record (list ParsedType))
    (config : Config) (type : ParsedType) (st : CollectState) : CollectState :=
  match fuel with
  | 0 => st
  | S fuel' =>
      fold_left
        (fun st refName =>
           if mem refName (processedNames st) then st
           else
             fold_left
               (fun st t =>
                  if String.eqb (type_name t) refName
                     && negb (mem (type_name t) (processedNames st))
                  then collectDependentTypes fuel' allTypes config t (addType t st)
                  else st)
               (typesInOrder allTypes) st)
        (extractTypeRefs (type_schema type) config) st
  end.

(** The set [neededTypes]. *)
Definition neededTypes (apis : list ParsedAPI) : list string :=
  fold_left
    (fun needed api =>
       let needed :=
         if truthy (api_bodyTypeName api)
         then Parser.setAdd (orElse (api_bodyTypeName api) "") needed else needed in
       if truthy (api_responseTypeName api)
       then Parser.setAdd (orElse (api_responseTypeName api) "") needed else needed)
    apis [].

(** The loop of [collectModuleTypes], from a state, with a given fuel for
    the recursion. *)
Definition collectFrom (fuel : nat) (apis : list ParsedAPI)
    (allTypes : Record (list ParsedType)) (config : Config) (st : CollectState)
    : CollectState :=
  fold_left
    (fun st type =>
       if mem (type_name type) (neededTypes apis)
          && negb (mem (type_name type) (processedNames st))
       then collectDependentTypes fuel allTypes config type (addType type st)
       else st)
    (typesInOrder allTypes) st.

(** [collectModuleTypes]; the recursion is never deeper than the number of
    types (see [collectModuleTypes_fuel]). *)
Definition collectModuleTypes (apis : list ParsedAPI)
    (allTypes : Record (list ParsedType)) (config : Config) : list ParsedType :=
  result (collectFrom (List.length (typesInOrder allTypes)) apis allTypes config
                      (mkCollect [] [])).

(** [generateModuleApi]: the content written to [index.ts], from the content
    found there ([None] when the file does not exist). *)
Definition generateModuleApi (existing : option string) (apis : list ParsedAPI)
    (config : Config) : string :=
  let newContent := generateApiFile apis "./types" config in
  match existing with
  | Some existingContent => mergeWithExisting existingContent newContent
  | None => newContent
  end.

(** [generateModuleTypes]: the content written to [types.ts], whatever was
    there. *)
Definition generateModuleTypes (types : list ParsedType) (apis : list ParsedAPI)
    (config : Config) : string :=
  TypeGenerator.generateTypesFile types apis config.

(** The two files of a module's directory; [None] for a file that does not
    exist. *)
Record ModuleFiles := mkModuleFiles {
  typesFile : option string;
  indexFile : option string
}.

(** The body of the loop of [runUpdate] for one module, given the types
    collected for it: both files are written. *)
Definition updateModule (moduleTypes : list ParsedType) (moduleApis : list ParsedAPI)
    (config : Config) (files : ModuleFiles) : ModuleFiles :=
  {| typesFile := Some (generateModuleTypes moduleTypes moduleApis config);
     indexFile := Some (generateModuleApi (indexFile files) moduleApis config) |}.

End Update.

(* ================================================================= *)
(** ** The vocabulary of the specification *)

Module SpecWords.
Import JsString Naming Types.

(** The first suffix of the list, in list order, that the name ends with. *)
Definition firstMatchingSuffix (name : string) (suffixes : list string)
    : option string :=
  find (endsWith name) suffixes.

(** A strip-list sorted longest-first. *)
Inductive LongestFirst : list string -> Prop :=
| LongestFirst_nil : LongestFirst []
| LongestFirst_cons (p : string) (l : list string) :
    Forall (fun q => (String.length q <= String.length p)%nat) l ->
    LongestFirst l -> LongestFirst (p :: l).

(** [q] is the longest of the configured prefixes that match [path]. *)
Definition LongestMatch (path : string) (prefixes : list string) (q : string) : Prop :=
  In q prefixes /\ startsWith path q = true /\
  (forall q', In q' prefixes -> startsWith path q' = true ->
              (String.length q' <= String.length q)%nat).

(** The path with the prefix [q] stripped; what remains is made to start
    with a slash. *)
Definition strippedPath (path q : string) : string :=
  let result := drop (String.length q) path in
  if startsWith result "/" then result else "/" ++ result.

(** A path as a list of segments: a literal word, a Swagger-style parameter
    [{name}] or an Express-style parameter [:name]. *)
Inductive Segment :=
| Literal (text : string)
| BraceParam (name : string)
| ColonParam (name : string).

Definition renderSegment (seg : Segment) : string :=
  match seg with
  | Literal text => text
  | BraceParam name => "{" ++ name ++ "}"
  | ColonParam name => ":" ++ name
  end.

(** The segments written one after the other, each behind a slash, with
    [f] for the text of a segment. *)
Fixpoint renderWith (f : Segment -> string) (segments : list Segment) : string :=
  match segments with
  | [] => ""
  | seg :: rest => "/" ++ f seg ++ renderWith f rest
  end.

(** The path of the segments. *)
Definition renderPath (segments : list Segment) : string :=
  renderWith renderSegment segments.

(** The text of a segment once the [{name}] parameters are replaced, and
    once the [:name] parameters are replaced too. *)
Definition afterBraces (seg : Segment) : string :=
  match seg with
  | BraceParam name => "/By" ++ toPascalCase name
  | _ => renderSegment seg
  end.
Definition afterColons (seg : Segment) : string :=
  match seg with
  | Literal text => text
  | BraceParam name => "/By" ++ toPascalCase name
  | ColonParam name => "/By" ++ toPascalCase name
  end.

(** The part of the processed path that a segment leaves between slashes. *)
Definition segmentPart (seg : Segment) : string :=
  match seg with
  | Literal text => text
  | BraceParam name => "By" ++ toPascalCase name
  | ColonParam name => "By" ++ toPascalCase name
  end.

(** What a segment adds to the function name: a literal word in Pascal
    case, a parameter as the token [By<PascalParam>], itself put in Pascal
    case with the other segments. *)
Definition segmentToken (seg : Segment) : string :=
  match seg with
  | Literal text => toPascalCase text
  | BraceParam name => toPascalCase ("By" ++ toPascalCase name)
  | ColonParam name => toPascalCase ("By" ++ toPascalCase name)
  end.

(** The code units that do not structure a path. *)
Definition plainChar (c : ascii) : bool :=
  negb (Ascii.eqb c "/" || Ascii.eqb c "{" || Ascii.eqb c "}" || Ascii.eqb c ":").

Definition isAlphaNum (c : ascii) : bool := isUpper c || isLower c || isDigit c.

Definition isIdentifier (name : string) : bool :=
  match name with
  | "" => false
  | String c rest => isIdentStart c && TypeGenerator.allChars isIdentPart rest
  end.

(** A literal word and the name of a [{name}] parameter are not empty and
    made of plain code units; the name of a [:name] parameter is an
    identifier. *)
Definition WellFormedSegment (seg : Segment) : Prop :=
  match seg with
  | Literal text => text <> "" /\ TypeGenerator.allChars plainChar text = true
  | BraceParam name => name <> "" /\ TypeGenerator.allChars plainChar name = true
  | ColonParam name => isIdentifier name = true
  end.

(** The same without the condition on a literal word, which may be empty:
    the paths made of such segments include those with a slash at the end
    and those with two slashes in a row. *)
Definition PathSegment (seg : Segment) : Prop :=
  match seg with
  | Literal text => TypeGenerator.allChars plainChar text = true
  | BraceParam name => name <> "" /\ TypeGenerator.allChars plainChar name = true
  | ColonParam name => isIdentifier name = true
  end.

(** A part of a path as the specification reads it: a part [{name}] is a
    Swagger-style parameter, a part [:name] an Express-style parameter, and
    any other part a literal word. *)
Definition readSegment (part : string) : Segment :=
  match part with
  | String c rest =>
      if Ascii.eqb c "{" && endsWith rest "}" && (2 <=? String.length rest)%nat
      then BraceParam (take (String.length rest - 1) rest)
      else if Ascii.eqb c ":" && negb (String.eqb rest "") then ColonParam rest
      else Literal part
  | "" => Literal ""
  end.

(** The segments of a path: its parts between slashes that are not empty. *)
Definition segmentsOf (path : string) : list Segment :=
  map readSegment (filter nonEmpty (split "/" path)).

(** The function name as the specification derives it, segment by segment:
    a parameter gives the token [By<PascalParam>], a literal word is put in
    Pascal case, and the tokens follow the verb in lower case. *)
Definition claimedToken (seg : Segment) : string :=
  match seg with
  | Literal text => toPascalCase text
  | BraceParam name => "By" ++ toPascalCase name
  | ColonParam name => "By" ++ toPascalCase name
  end.

Definition claimedFunctionName (method path : string) : string :=
  toLowerCase method ++ join "" (map claimedToken (segmentsOf path)).

(** The references reachable from the used ones: a used reference, or a
    reference in the schema that a reachable reference resolves to. *)
Inductive Reachable (prefix : string) (definitions : Record SchemaObject)
    (usedRefs : list string) : string -> Prop :=
| Reachable_used (ref : string) :
    In ref usedRefs -> Reachable prefix definitions usedRefs ref
| Reachable_step (ref ref' : string) (schema : SchemaObject) :
    Reachable prefix definitions usedRefs ref ->
    lookup (Parser.stripPrefix prefix ref) definitions = Some schema ->
    In ref' (Parser.collectRefs schema) ->
    Reachable prefix definitions usedRefs ref'.

(** What holds of the state of the drain loop before and after every turn:
    the work-list holds references of the universe; no reference is processed
    twice; what is on the work-list or processed is reachable; every used
    reference is on the work-list or processed; and so is every reference of
    the schema of a processed reference. *)
Record DrainInvariant (prefix : string) (definitions : Record SchemaObject)
    (usedRefs : list string) (st : Parser.DrainState) : Prop := mkDrainInvariant {
  inv_universe :
    forall r, In r (Parser.refsToProcess st) ->
              In r (Parser.refUniverse definitions usedRefs);
  inv_nodup : NoDup (Parser.processedRefs st);
  inv_sound :
    forall r, In r (Parser.refsToProcess st) \/ In r (Parser.processedRefs st) ->
              Reachable prefix definitions usedRefs r;
  inv_used :
    forall r, In r usedRefs ->
              In r (Parser.refsToProcess st) \/ In r (Parser.processedRefs st);
  inv_closed :
    forall r schema r',
      In r (Parser.processedRefs st) ->
      lookup (Parser.stripPrefix prefix r) definitions = Some schema ->
      In r' (Parser.collectRefs schema) ->
      In r' (Parser.refsToProcess st) \/ In r' (Parser.processedRefs st)
}.

(** The parsed type that a processed reference contributes: one when the
    table defines it, none when it dangles. *)
Definition contribution (prefix : string) (definitions : Record SchemaObject)
    (config : Config) (ref : string) : list ParsedType :=
  let refName := Parser.stripPrefix prefix ref in
  match lookup refName definitions with
  | Some schema => [Parser.parseType refName schema config]
  | None => []
  end.

(** All the types of the modules of a result. *)
Definition allTypes (types : Record (list ParsedType)) : list ParsedType :=
  flat_map snd types.

(** The declarations that the type file holds for a display name. *)
Definition declarationsOf (name : string) (types : list ParsedType) (config : Config)
    : list string :=
  map (fun entry =>
         TypeGenerator.generateTypeDefinition
           (type_name (snd entry)) (type_schema (snd entry)) config)
      (filter (fun entry => String.eqb (fst entry) name)
              (TypeGenerator.buildTypeMap types)).

(** The first and the last type of a list with a given display name. *)
Definition firstNamed (name : string) (types : list ParsedType) : option ParsedType :=
  find (fun t => String.eqb (type_name t) name) types.
Definition lastNamed (name : string) (types : list ParsedType) : option ParsedType :=
  firstNamed name (rev types).

(** The type names of an operation that are set and not empty, each with
    one array suffix cut off as [extractBaseTypeName] does. *)
Definition referencedTypeNames (api : ParsedAPI) : list string :=
  flat_map
    (fun typeName =>
       if truthy typeName
       then [ApiGenerator.extractBaseTypeName (orElse typeName "")] else [])
    [api_paramsTypeName api; api_bodyTypeName api; api_responseTypeName api].

(** Sorted by name, in the order of the code units. *)
Definition SortedByName (names : list string) : Prop :=
  Sorted (fun a b => String.leb a b = true) names.

(** The fixed lines at the head of a function file. *)
Definition filePreamble : string :=
  "/**" ++ nl ++
  " * 此文件由 swagger-typegen 自动生成" ++ nl ++
  " * 自动生成的代码在 AUTO GENERATED 标记之间" ++ nl ++
  " * 标记之外的代码不会被覆盖" ++ nl ++
  " */" ++ nl ++ nl.

(** The functions of the generated region, each followed by an empty
    line. *)
Fixpoint generatedFunctions (apis : list ParsedAPI) (config : Config) : string :=
  match apis with
  | [] => ""
  | api :: rest =>
      ApiGenerator.generateApiFunction api config ++ nl ++ nl
      ++ generatedFunctions rest config
  end.

(** [p] and [s] differ at a position that both have. *)
Fixpoint mismatch (p s : string) : bool :=
  match p, s with
  | String a p', String b s' => if Ascii.eqb a b then mismatch p' s' else true
  | _, _ => false
  end.

(** No occurrence of [p] can start inside [s], whatever follows [s]. *)
Fixpoint noStart (p s : string) : bool :=
  match s with
  | "" => true
  | String _ s' => mismatch p s && noStart p s'
  end.

(** The first end marker of a text ends before its first start marker
    begins, with at least one code unit between the two. *)
Definition EndBeforeStart (t : string) : Prop :=
  exists i j,
    indexOf ApiGenerator.AUTO_GEN_START t = Some i /\
    indexOf ApiGenerator.AUTO_GEN_END t = Some j /\
    (j + String.length ApiGenerator.AUTO_GEN_END < i)%nat.



End SpecWords.

(* ================================================================= *)
(** ** Example inputs *)

Module Examples.
Import JsString Types ApiGenerator.

(** A user configuration that only lists two prefixes, the shorter one
    first. *)
Definition shortestFirstUser : ConfigLoader.UserConfig :=
  ConfigLoader.mkUserConfig None None None None None (Some ["/api"; "/api/v1"])
                            None None None None None None.

(** A function file with a hand-written line before the generated region
    and a hand-written function after it. *)
Definition handEditedFile : string :=
  "// my notes" ++ nl ++
  AUTO_GEN_START ++ nl ++
  "export const getOld = () => {}" ++ nl ++
  AUTO_GEN_END ++ nl ++
  "export const custom = () => 42" ++ nl.

(** The same file with a note in front that names the end marker. *)
Definition notedFile : string :=
  "// my code stands behind " ++ AUTO_GEN_END ++ nl ++
  AUTO_GEN_START ++ nl ++
  "export const getOld = () => {}" ++ nl ++
  AUTO_GEN_END ++ nl ++
  "export const custom = () => 42" ++ nl.

Definition integerParam (name : string) (place : string) : ParameterObject :=
  mkParameter name place None (Some true) (Some "integer") None None None.

Definition getUser : ParsedAPI :=
  mkParsedAPI "/api/users/{id}" "/users/{id}" "get" "user" "getUsersById"
    (Some "Get a user") None None (Some "User")
    [integerParam "id" "path"] [] None None.

(** A configuration whose client import path holds the text of the end
    marker. *)
Definition markerInImportConfig : Config :=
  mkConfig "./swagger.json" "./src/api" chain "requestClient" AUTO_GEN_END
           [] [] [] None [] [] [].

Definition stringSchema : SchemaObject :=
  mkSchema None (Some "string") None None None None None None None.
Definition integerSchema : SchemaObject :=
  mkSchema None (Some "integer") None None None None None None None.
Definition objectSchema (props : Record SchemaObject) : SchemaObject :=
  mkSchema None (Some "object") None (Some props) None None None None None.
Definition refSchema (ref : string) : SchemaObject :=
  mkSchema (Some ref) None None None None None None None None.
Definition arraySchema (items : SchemaObject) : SchemaObject :=
  mkSchema None (Some "array") None None (Some items) None None None None.

(** Two definitions with one display name. *)
Definition userOfAdmin : ParsedType := mkParsedType "admin.User" "User" stringSchema.
Definition userOfShop : ParsedType := mkParsedType "shop.User" "User" integerSchema.

(** A session whose [auth] object carries a token, and a configuration that
    excludes the field [token]. *)
Definition sessionSchema : SchemaObject :=
  objectSchema [("token", stringSchema);
                ("id", integerSchema);
                ("auth", objectSchema [("token", stringSchema); ("user", stringSchema)])].
Definition excludeTokenConfig : Config :=
  mkConfig "./swagger.json" "./src/api" chain "requestClient" "@/utils/request"
           [] [] ["token"] None [] [] [].

(** The envelope [{ code, message, data: User }], with the user and a list of
    users, and an operation that answers with the envelope. *)
Definition userSchema : SchemaObject :=
  objectSchema [("id", integerSchema); ("name", stringSchema)].
Definition envelopeSchema : SchemaObject :=
  objectSchema [("code", integerSchema);
                ("message", stringSchema);
                ("data", refSchema "#/definitions/model.User")].
Definition listEnvelopeSchema : SchemaObject :=
  objectSchema [("code", integerSchema);
                ("message", stringSchema);
                ("data", arraySchema (refSchema "#/definitions/model.User"))].
Definition envelopeDefinitions : Record SchemaObject :=
  [("response.UserEnvelope", envelopeSchema);
   ("response.UserListEnvelope", listEnvelopeSchema);
   ("model.User", userSchema)].
Definition respondsWith (ref : string) : Operation :=
  mkOperation (Some ["user"]) None None None
              [("200", mkResponse (Some (refSchema ref)) None)].
(** Two envelopes whose field [data] is not a reference: an object without
    declared properties, and a table of orders (an array of arrays). *)
Definition freeObjectSchema : SchemaObject :=
  mkSchema None (Some "object") None None None None None None None.
Definition metaEnvelopeSchema : SchemaObject :=
  objectSchema [("code", integerSchema); ("data", freeObjectSchema)].
Definition tableEnvelopeSchema : SchemaObject :=
  objectSchema [("code", integerSchema);
                ("data", arraySchema (arraySchema (refSchema "#/definitions/model.Order")))].
Definition inlineDataDefinitions : Record SchemaObject :=
  [("MetaEnvelope", metaEnvelopeSchema);
   ("TableEnvelope", tableEnvelopeSchema);
   ("model.Order", userSchema)].

(** A Swagger 2.0 document with one operation that answers with the user
    envelope, and one whose only operation answers with an array of users. *)
Definition getOnly (operation : Operation) : PathItem :=
  mkPathItem (Some operation) None None None None None None.
Definition usersSpec : APISpec :=
  mkSpec None
    [("/api/users/{id}", getOnly (respondsWith "#/definitions/response.UserEnvelope"))]
    (Some envelopeDefinitions) None.
Definition listUsersSpec : APISpec :=
  mkSpec None
    [("/api/users",
      getOnly (mkOperation (Some ["user"]) None None None
                 [("200", mkResponse
                            (Some (arraySchema (refSchema "#/definitions/model.User")))
                            None)]))]
    (Some envelopeDefinitions) None.


(** Two definitions that refer to each other, and one that refers to
    itself. *)
Definition nodeA : SchemaObject := objectSchema [("next", refSchema "#/definitions/B")].
Definition nodeB : SchemaObject := objectSchema [("back", refSchema "#/definitions/A")].
Definition mutualDefinitions : Record SchemaObject := [("A", nodeA); ("B", nodeB)].
Definition treeNode : SchemaObject :=
  objectSchema [("children", arraySchema (refSchema "#/definitions/tree.Node"))].

End Examples.

(* ================================================================= *)
(** ** core/config: validation, and the entry that [init] writes *)

Module ConfigValidation.
Import JsString Types ConfigLoader.

Definition dquote : string := String (ascii_of_nat 34) "".

(** A value that [package.json] holds under one of the five keys that
    [validateConfig] reads. The merge copies such a value whatever it is,
    and the validation looks at no more than this: of a number only whether
    it is zero is kept, of an array or an object nothing. *)
Inductive Json :=
| JNull
| JBool (b : bool)
| JNumber (isZero : bool)
| JString (text : string)
| JArray
| JObject.

(** [!!value] *)
Definition truthyJson (value : Json) : bool :=
  match value with
  | JNull => false
  | JBool b => b
  | JNumber isZero => negb isZero
  | JString text => negb (String.eqb text "")
  | JArray | JObject => true
  end.

(** The five keys of the entry [swagger-typegen], each absent or with the
    value it has; the other keys of the entry are taken to have the types
    that [Config] declares, so that the merge does not fail. *)
Record RawEntry := mkRawEntry {
  raw_input : option Json;
  raw_output : option Json;
  raw_requestStyle : option Json;
  raw_requestClient : option Json;
  raw_requestImport : option Json
}.

(** The five values of a configuration that [validateConfig] reads. *)
Record ConfigValues := mkConfigValues {
  value_input : Json;
  value_output : Json;
  value_requestStyle : Json;
  value_requestClient : Json;
  value_requestImport : Json
}.

(** The value of [requestStyle] as [package.json] spells it. *)
Definition styleText (style : RequestStyle) : string :=
  match style with
  | chain => "chain"
  | object => "object"
  end.

(** The five values of a configuration whose values have the declared
    types. *)
Definition valuesOf (config : Config) : ConfigValues :=
  mkConfigValues (JString (input config)) (JString (output config))
                 (JString (styleText (requestStyle config)))
                 (JString (requestClient config)) (JString (requestImport config)).

(** [loadConfig], as far as the five keys go: [{ ...defaultConfig,
    ...userConfig }] takes the value of the entry for every key that the
    entry has, whatever the value is. Without [package.json], or when it
    cannot be parsed ([None]), the defaults are returned. *)
Definition loadConfig (userConfig : option RawEntry) : ConfigValues :=
  match userConfig with
  | None => valuesOf defaultConfig
  | Some user =>
      mkConfigValues
        (orDefault (raw_input user) (JString (input defaultConfig)))
        (orDefault (raw_output user) (JString (output defaultConfig)))
        (orDefault (raw_requestStyle user)
                   (JString (styleText (requestStyle defaultConfig))))
        (orDefault (raw_requestClient user) (JString (requestClient defaultConfig)))
        (orDefault (raw_requestImport user) (JString (requestImport defaultConfig)))
  end.

(** [['chain', 'object'].includes(value)] *)
Definition isRequestStyle (value : Json) : bool :=
  match value with
  | JString text => mem text ["chain"; "object"]
  | _ => false
  end.

Definition validateConfig (config : ConfigValues) : list string :=
  ((if truthyJson (value_input config) then [] else ["input 配置项不能为空"]) ++
   (if truthyJson (value_output config) then [] else ["output 配置项不能为空"]) ++
   (if isRequestStyle (value_requestStyle config) then []
    else [("requestStyle 必须是 " ++ dquote ++ "chain" ++ dquote ++ " 或 "
           ++ dquote ++ "object" ++ dquote)%string]) ++
   (if truthyJson (value_requestClient config) then []
    else ["requestClient 配置项不能为空"]) ++
   (if truthyJson (value_requestImport config) then []
    else ["requestImport 配置项不能为空"]))%list.

(** The five keys of an entry whose values have the declared types. *)
Definition rawOf (user : UserConfig) : RawEntry :=
  mkRawEntry (option_map JString (user_input user))
             (option_map JString (user_output user))
             (option_map (fun style => JString (styleText style)) (user_requestStyle user))
             (option_map JString (user_requestClient user))
             (option_map JString (user_requestImport user)).

(** The entry that the [init] command writes to [package.json]. *)
Definition initEntry : UserConfig :=
  mkUserConfig (Some "./swagger.json") (Some "./src/api") (Some chain)
               (Some "requestClient") (Some "@/utils/request")
               (Some ["/api/v1"; "/api"]) (Some ["Request"; "Response"])
               None None None None None.

End ConfigValidation.

(* ================================================================= *)
(** ** core/tagMapping: loading and updating the mapping *)

Module TagUpdate.
Import JsString Types Parser.

(** [map.has(key)] on a [Map], and the own keys of a plain object. *)
Definition hasKey {T : Type} (key : string) (obj : Record T) : bool :=
  match lookup key obj with
  | Some _ => true
  | None => false
  end.

(** The names that every plain object inherits from [Object.prototype]. *)
Definition objectPrototypeNames : list string :=
  ["constructor"; "__defineGetter__"; "__defineSetter__"; "hasOwnProperty";
   "__lookupGetter__"; "__lookupSetter__"; "isPrototypeOf"; "propertyIsEnumerable";
   "toString"; "valueOf"; "__proto__"; "toLocaleString"].

(** [key in obj] on a plain object: an own key or an inherited name. *)
Definition inObject {T : Type} (key : string) (obj : Record T) : bool :=
  hasKey key obj || mem key objectPrototypeNames.

(** [loadTagMappingFromFile]: [file] is the object that [tag-mapping.json]
    holds, [None] when the file does not exist or cannot be parsed. *)
Definition loadTagMappingFromFile (file : option (Record string)) : Record string :=
  match file with
  | Some mapping => mapping
  | None => []
  end.

Definition loadTagMapping (file : option (Record string)) (configMapping : Record string)
    : Record string :=
  match configMapping with
  | _ :: _ => configMapping
  | [] => loadTagMappingFromFile file
  end.

(** What [updateTagMapping] returns, and the content of the file after the
    call. *)
Record TagUpdateResult := mkTagUpdate {
  mapping : Record string;
  newTags : list string;
  fileAfter : option (Record string)
}.

(** One turn of the loop over the tags: [if (!(tag in existingMapping))]. *)
Definition addTag (st : Record string * list string) (tag : string)
    : Record string * list string :=
  if inObject tag (fst st) then st
  else (TypeGenerator.assignKey tag tag (fst st), (snd st ++ [tag])%list).

Definition updateTagMapping (file : option (Record string)) (tags : list string)
    (configMapping : Record string) : TagUpdateResult :=
  let hasConfigMapping :=
    match configMapping with
    | _ :: _ => true
    | [] => false
    end in
  let existingMapping :=
    if hasConfigMapping then configMapping else loadTagMappingFromFile file in
  let (mapping, newTags) := fold_left addTag tags (existingMapping, []) in
  mkTagUpdate mapping newTags
    (match newTags with
     | _ :: _ => if hasConfigMapping then file else Some mapping
     | [] => file
     end).

(** The first loop of [extractAllTags]: the set of the first labels of the
    operations, in the order in which they are met. *)
Definition collectTags (paths : Record PathItem) : list string :=
  fold_left
    (fun tags entry =>
       fold_left
         (fun tags method =>
            match operationOf (snd entry) method with
            | Some operation =>
                match op_tags operation with
                | Some (t :: _) => if truthy (Some t) then setAdd t tags else tags
                | _ => tags
                end
            | None => tags
            end)
         methods tags)
    paths [].

Definition extractAllTags (paths : Record PathItem) : list string :=
  ApiGenerator.sortStrings (collectTags paths).

End TagUpdate.

(* ================================================================= *)
(** ** generators/apiGenerator: the functions of an existing file *)

Module ExistingApis.
Import JsString Naming Types.

(** The class [\w] *)
Definition isWordChar (c : ascii) : bool :=
  isUpper c || isLower c || isDigit c || Ascii.eqb c "_".

Definition notCloseParen (c : ascii) : bool := negb (Ascii.eqb c ")").

(** The match of [funcRegex] anchored at the start of [s]: the text
    [export const ], a name of one or more word characters, the text [ = (],
    any code units other than a closing parenthesis, the text [) => {], and
    then as few code units as possible up to a line break followed by a
    closing brace.  The result is the name, the text matched and the text
    that follows it. *)
Definition matchFunction (s : string) : option (string * string * string) :=
  if startsWith s "export const " then
    let (funcName, s1) := span isWordChar (drop 13 s) in
    if negb (String.eqb funcName "") && startsWith s1 " = (" then
      let (_, s2) := span notCloseParen (drop 4 s1) in
      if startsWith s2 ") => {" then
        let s3 := drop 6 s2 in
        match indexOf (nl ++ "}") s3 with
        | Some i =>
            let rest := drop (i + 2) s3 in
            Some (funcName, take (String.length s - String.length rest) s, rest)
        | None => None
        end
      else None
    else None
  else None.

(** The loop over [funcRegex.exec(content)]: the leftmost match is recorded
    and the search resumes behind it; [fuel] bounds the number of steps. *)
Fixpoint scanFunctions (fuel : nat) (content : string) (apis : Record string)
    : Record string :=
  match fuel with
  | 0 => apis
  | S fuel' =>
      match matchFunction content with
      | Some (funcName, funcBody, rest) =>
          scanFunctions fuel' rest (TypeGenerator.assignKey funcName funcBody apis)
      | None =>
          match content with
          | "" => apis
          | String _ content' => scanFunctions fuel' content' apis
          end
      end
  end.

(** [extractExistingApis]; a match is never empty, so the length of the
    content is enough fuel. *)
Definition extractExistingApis (content : string) : Record string :=
  scanFunctions (String.length content) content [].

End ExistingApis.

(* ================================================================= *)
(** ** commands/check: the comparison of the fields and of the functions *)

Module CheckCommand.
Import JsString Types TypeGenerator.

Inductive ChangeType := added | removed | modified.

Record FieldChange := mkFieldChange {
  change_field : string;
  field_changeType : ChangeType;
  change_oldType : option string;
  change_newType : option string
}.

Record APIChange := mkAPIChange {
  change_path : string;
  change_method : string;
  api_changeType : ChangeType;
  change_functionName : string
}.

(** The white space of the class [\s] and of [trim], in the ASCII range. *)
Definition isWhiteSpace (c : ascii) : bool :=
  let n := nat_of_ascii c in
  ((9 <=? n)%nat && (n <=? 13)%nat) || (n =? 32)%nat.

(** The expression [\s+]: a run of white space, replaced by one space. *)
Definition whiteSpaceRun : Matcher := fun s =>
  match Naming.span isWhiteSpace s with
  | (String _ _, rest) => Some (" ", rest)
  | _ => None
  end.

Fixpoint trimStart (s : string) : string :=
  match s with
  | "" => ""
  | String c s' => if isWhiteSpace c then trimStart s' else s
  end.

Fixpoint trimEnd (s : string) : string :=
  match s with
  | "" => ""
  | String c s' =>
      match trimEnd s' with
      | "" => if isWhiteSpace c then "" else String c ""
      | t => String c t
      end
  end.

(** [s.trim()] *)
Definition trim (s : string) : string := trimEnd (trimStart s).

Definition normalizeType (type : string) : string :=
  trim (replaceAll whiteSpaceRun type).

(** [fields.set(name, schemaToTsType(prop, config))] for every property. *)
Definition setFields (config : Config) (fields : Record string)
    (properties : Record SchemaObject) : Record string :=
  fold_left
    (fun fields entry => assignKey (fst entry) (schemaToTsType (snd entry) config) fields)
    properties fields.

Definition parseFieldsFromSchema (schema : SchemaObject) (config : Config)
    : Record string :=
  let fields :=
    match schema_properties schema with
    | Some properties => setFields config [] properties
    | None => []
    end in
  match schema_allOf schema with
  | Some members =>
      fold_left
        (fun fields item =>
           match schema_properties item with
           | Some properties => setFields config fields properties
           | None => fields
           end)
        members fields
  | None => fields
  end.

Definition compareFields (oldFields newFields : Record string) : list FieldChange :=
  (flat_map
     (fun entry =>
        let name := fst entry in
        let newType := snd entry in
        match lookup name oldFields with
        | None => [mkFieldChange name added None (Some newType)]
        | Some oldType =>
            if String.eqb (normalizeType oldType) (normalizeType newType) then []
            else [mkFieldChange name modified (Some oldType) (Some newType)]
        end)
     newFields
   ++
   flat_map
     (fun entry =>
        if TagUpdate.hasKey (fst entry) newFields then []
        else [mkFieldChange (fst entry) removed (Some (snd entry)) None])
     oldFields)%list.

(** The part of the loop body of [detectChanges] that compares the
    functions of a module with its file [index.ts]; [existing] is the content
    of the file, [None] when it does not exist. *)
Definition detectApiChanges (existing : option string) (apis : list ParsedAPI)
    : list APIChange :=
  match existing with
  | Some existingContent =>
      let existingApis := ExistingApis.extractExistingApis existingContent in
      (flat_map
         (fun newApi =>
            if TagUpdate.hasKey (api_functionName newApi) existingApis then []
            else [mkAPIChange (api_path newApi) (api_method newApi) added
                              (api_functionName newApi)])
         apis
       ++
       flat_map
         (fun entry =>
            if mem (fst entry) (map api_functionName apis) then []
            else [mkAPIChange "" "" removed (fst entry)])
         existingApis)%list
  | None =>
      map (fun api => mkAPIChange (api_path api) (api_method api) added
                                  (api_functionName api))
          apis
  end.

End CheckCommand.

(* ================================================================= *)
(** ** The vocabulary of the further properties *)

Module Conditions.
Import JsString Naming Types Parser.

(** A text that holds both markers, the start marker first. *)
Definition MarkersInOrder (t : string) : Prop :=
  exists i j,
    indexOf ApiGenerator.AUTO_GEN_START t = Some i /\
    indexOf ApiGenerator.AUTO_GEN_END t = Some j /\
    (i <= j)%nat.

(** A code unit of the ASCII range, where the case mapping of the model is
    the one of JavaScript. *)
Definition isAscii (c : ascii) : bool := (nat_of_ascii c <? 128)%nat.

Definition notDot (c : ascii) : bool := negb (Ascii.eqb c ".").

(** An operation of the document, under some path and method. *)
Definition operationAt (paths : Record PathItem) (operation : Operation) : Prop :=
  exists path item method,
    In (path, item) paths /\ In method methods /\
    operationOf item method = Some operation.

(** The first label of an operation, when it has one that is not empty. *)
Definition firstTag (operation : Operation) : option string :=
  match op_tags operation with
  | Some (t :: _) => if truthy (Some t) then Some t else None
  | _ => None
  end.

(** The operations of a document with their path and method, in the order
    of the two loops of the parser. *)
Definition operationsOf (paths : Record PathItem) : list (string * string * Operation) :=
  flat_map
    (fun entry =>
       flat_map
         (fun method =>
            match operationOf (snd entry) method with
            | Some operation => [(fst entry, method, operation)]
            | None => []
            end)
         methods)
    paths.

(** Those of them whose label passes the filter of the configuration. *)
Definition includedOperations (config : Config) (paths : Record PathItem)
    : list (string * string * Operation) :=
  filter (fun o => shouldIncludeTag (originalTagOf (snd o)) config) (operationsOf paths).

(** The reference prefix and the table of schemas of the dialect of a
    document. *)
Definition dialectPrefix (spec : APISpec) : string :=
  if isOpenAPI3 spec then schemasPrefix else definitionsPrefix.

Definition dialectSchemas (spec : APISpec) : Record SchemaObject :=
  match (if isOpenAPI3 spec then spec_schemas spec else spec_definitions spec) with
  | Some table => table
  | None => []
  end.

(** The operation parser of the dialect of a document. *)
Definition parseOne (spec : APISpec) (config : Config) (tagMapping : Record string)
    (o : string * string * Operation) (usedRefs : list string)
    : ParsedAPI * list string :=
  if isOpenAPI3 spec then
    parseOpenAPI3Operation (fst (fst o)) (snd (fst o)) (snd o) config usedRefs
                           (dialectSchemas spec) tagMapping
  else
    parseOperation (fst (fst o)) (snd (fst o)) (snd o) config usedRefs
                   (dialectSchemas spec) tagMapping.

(** The function parsed from an operation, and the references that the
    parser records for it. *)
Definition parsedFunction (spec : APISpec) (config : Config) (tagMapping : Record string)
    (o : string * string * Operation) : ParsedAPI :=
  fst (parseOne spec config tagMapping o []).

Definition usedByOperation (spec : APISpec) (config : Config) (tagMapping : Record string)
    (o : string * string * Operation) : list string :=
  snd (parseOne spec config tagMapping o []).

(** The references that the parser records for the operations that pass
    the filter. *)
Definition usedByDocument (spec : APISpec) (config : Config) (tagMapping : Record string)
    : list string :=
  flat_map (usedByOperation spec config tagMapping)
           (includedOperations config (spec_paths spec)).

(** The reference of a schema, when it has one. *)
Definition refOf (schema : SchemaObject) : list string :=
  if truthy (schema_ref schema) then [orElse (schema_ref schema) ""] else [].

(** The schema of the unwrap field among the properties of a schema, when
    unwrapping is configured. *)
Definition unwrapFieldIn (config : Config) (schema : SchemaObject) : option SchemaObject :=
  match unwrapResponseField config with
  | Some unwrapField =>
      if truthy (Some unwrapField) then
        match schema_properties schema with
        | Some props => lookup unwrapField props
        | None => None
        end
      else None
  | None => None
  end.

(** The references that the parser reads off a response schema. With
    [allOf]: those of the members and of their unwrap fields. With a
    reference: the reference itself and, in the envelope it names, the
    reference of the unwrap field, or of its items when the field is an
    array. Otherwise the reference of the unwrap field of the schema's own
    properties. Nothing else is read: not the items of a response that is
    itself an array. *)
Definition responseRefs (prefix : string) (definitions : Record SchemaObject)
    (config : Config) (responseSchema : SchemaObject) : list string :=
  match schema_allOf responseSchema with
  | Some members =>
      flat_map
        (fun item =>
           refOf item ++
           match unwrapFieldIn config item with
           | Some data => refOf data
           | None => []
           end)%list
        members
  | None =>
      if truthy (schema_ref responseSchema) then
        orElse (schema_ref responseSchema) "" ::
        match lookup (stripPrefix prefix (orElse (schema_ref responseSchema) ""))
                     definitions with
        | Some envelope =>
            match unwrapFieldIn config envelope with
            | Some field =>
                if truthy (schema_ref field) then refOf field
                else if strictEq (schema_type field) "array" then
                  match schema_items field with
                  | Some items => refOf items
                  | None => []
                  end
                else []
            | None => []
            end
        | None => []
        end
      else
        match unwrapFieldIn config responseSchema with
        | Some data => refOf data
        | None => []
        end
  end.

(** The references of the body: in Swagger 2.0 those of the schemas of the
    parameters in [body], in OpenAPI 3.0 that of the schema of the request
    body. A body that is an array of referenced items names none. *)
Definition bodyRefs (spec : APISpec) (operation : Operation) : list string :=
  if isOpenAPI3 spec then
    match op_requestBody operation with
    | Some body =>
        match body_content body with
        | Some content =>
            match jsonContentOf content with
            | Some m => match media_schema m with Some schema => refOf schema | None => [] end
            | None => []
            end
        | None => []
        end
    | None => []
    end
  else
    flat_map
      (fun param =>
         if String.eqb (param_in param) "body" then
           match param_schema param with
           | Some schema => refOf schema
           | None => []
           end
         else [])
      (match op_parameters operation with Some l => l | None => [] end).

(** The schema of the success response in the dialect of the document. *)
Definition responseSchemaOf (spec : APISpec) (operation : Operation) : option SchemaObject :=
  match successResponseOf operation with
  | Some r =>
      if isOpenAPI3 spec then
        match response_content r with
        | Some content =>
            match jsonContentOf content with
            | Some m => media_schema m
            | None => None
            end
        | None => None
        end
      else response_schema r
  | None => None
  end.

(** The references that an operation names where the parser reads them, and
    those of all the operations that pass the filter. *)
Definition namedRefs (spec : APISpec) (config : Config) (operation : Operation)
    : list string :=
  (bodyRefs spec operation ++
   match responseSchemaOf spec operation with
   | Some schema => responseRefs (dialectPrefix spec) (dialectSchemas spec) config schema
   | None => []
   end)%list.

Definition namedByDocument (spec : APISpec) (config : Config) : list string :=
  flat_map (fun o => namedRefs spec config (snd o))
           (includedOperations config (spec_paths spec)).

(** The lookups of the parser in plain objects find own members only: the
    unwrap field is no name that every object inherits, and such a name is
    the label of an operation or the name of a reachable reference only as a
    key that the tag mapping or the table of schemas has of its own. *)
Definition OwnLookups (spec : APISpec) (config : Config) (tagMapping : Record string)
    : Prop :=
  (forall unwrapField, unwrapResponseField config = Some unwrapField ->
     mem unwrapField TagUpdate.objectPrototypeNames = false) /\
  (forall o, In o (includedOperations config (spec_paths spec)) ->
     mem (originalTagOf (snd o)) TagUpdate.objectPrototypeNames = true ->
     TagUpdate.hasKey (originalTagOf (snd o)) tagMapping = true) /\
  (forall ref,
     SpecWords.Reachable (dialectPrefix spec) (dialectSchemas spec)
                         (namedByDocument spec config) ref ->
     mem (stripPrefix (dialectPrefix spec) ref) TagUpdate.objectPrototypeNames = true ->
     TagUpdate.hasKey (stripPrefix (dialectPrefix spec) ref) (dialectSchemas spec) = true).

(** [set.add(r)] for every [r] of a list, in order. *)
Definition setAddAll (refs : list string) (s : list string) : list string :=
  fold_left (fun s r => setAdd r s) refs s.

(** A step that gives a result and adds references to the set of the used
    ones, both independent of the set. *)
Definition Uniform {A : Type} (F : list string -> A * list string) : Prop :=
  exists (a : A) (refs : list string), forall s, F s = (a, setAddAll refs s).

(** The entries of a list with a given key, as a group of a [Map]: no entry
    when there is none. *)
Definition groupOf {T : Type} (key : T -> string) (k : string) (l : list T)
    : option (list T) :=
  match filter (fun x => String.eqb (key x) k) l with
  | [] => None
  | g => Some g
  end.

Definition notHash (c : ascii) : bool := negb (Ascii.eqb c "#").
Definition notSeparator (c : ascii) : bool :=
  negb (Ascii.eqb c "-" || Ascii.eqb c "_").

(** The display names that the type file of a module needs: those that its
    functions name, and those that the first type of a needed name refers
    to. *)
Inductive NeededName (apis : list ParsedAPI) (allTypes : Record (list ParsedType))
    (config : Config) : string -> Prop :=
| Needed_api (n : string) :
    In n (Update.neededTypes apis) -> NeededName apis allTypes config n
| Needed_ref (m : string) (t : ParsedType) (n : string) :
    NeededName apis allTypes config m ->
    SpecWords.firstNamed m (Update.typesInOrder allTypes) = Some t ->
    In n (Update.extractTypeRefs (type_schema t) config) ->
    NeededName apis allTypes config n.

(** Every white space of a text is one space, with no white space behind
    it; and a text that does not begin with white space. *)
Definition startsClean (s : string) : bool :=
  match s with
  | "" => true
  | String c _ => negb (CheckCommand.isWhiteSpace c)
  end.

Fixpoint collapsed (s : string) : bool :=
  match s with
  | "" => true
  | String c s' =>
      (if CheckCommand.isWhiteSpace c then Ascii.eqb c " " && startsClean s' else true)
      && collapsed s'
  end.

(** The text that opens the declaration of a generated function. *)
Definition exportConst : string := "export const ".

(** The comment line of a generated function, if it has one. *)
Definition commentLine (api : ParsedAPI) : option string :=
  if truthy (api_summary api)
  then Some ("/** " ++ orElse (api_summary api) "" ++ " */")
  else None.

(** What stands between the opening line of a generated function and its
    closing brace. *)
Definition functionInside (api : ParsedAPI) (config : Config) : string :=
  let method := toLowerCase (api_method api) in
  let returnType := orElse (api_responseTypeName api) "unknown" in
  match requestStyle config with
  | chain =>
      "  return " ++ requestClient config ++ "." ++ method ++ "<" ++ returnType ++ ">("
      ++ (if String.eqb method "get" || String.eqb method "delete" then
            ApiGenerator.pathStringOf api
            ++ (if truthy (api_paramsTypeName api) then ", { params }" else "")
          else
            ApiGenerator.pathStringOf api
            ++ (if truthy (api_bodyTypeName api) then ", data" else "")
            ++ (if truthy (api_paramsTypeName api) then ", { params }" else ""))
      ++ ")"
  | object =>
      "  return " ++ requestClient config ++ "<" ++ returnType ++ ">({" ++ nl
      ++ join ("," ++ nl)
           ([("    url: " ++ ApiGenerator.pathStringOf api)%string;
             ("    method: '" ++ method ++ "'")%string]
            ++ (if truthy (api_bodyTypeName api) then ["    data"] else [])
            ++ (if truthy (api_paramsTypeName api) then ["    params"] else []))%list
      ++ nl ++ "  })"
  end.

(** The text of a generated function behind [export const ]. *)
Definition functionTail (api : ParsedAPI) (config : Config) : string :=
  api_functionName api ++ " = (" ++ join ", " (ApiGenerator.buildFunctionParams api)
  ++ ") => {" ++ nl ++ functionInside api config ++ nl ++ "}".

(** A function that the scan of [extractExistingApis] finds again in the
    generated file: its name is made of word characters, the text of its
    parameters holds no closing parenthesis, and the text [export const ]
    occurs neither in its comment line nor behind its own opening. *)
Definition Scannable (config : Config) (api : ParsedAPI) : Prop :=
  api_functionName api <> "" /\
  TypeGenerator.allChars ExistingApis.isWordChar (api_functionName api) = true /\
  TypeGenerator.allChars ExistingApis.notCloseParen
    (join ", " (ApiGenerator.buildFunctionParams api)) = true /\
  match commentLine api with
  | Some line => includes line exportConst = false
  | None => True
  end /\
  includes (functionTail api config) exportConst = false.

(** A function written by hand in the form that [extractExistingApis] looks
    for. *)
Definition handWritten (name params body : string) : string :=
  exportConst ++ name ++ " = (" ++ params ++ ") => {" ++ body ++ nl ++ "}".

End Conditions.

(* ================================================================= *)
(** * Properties *)

Import JsString Naming Types Parser TypeGenerator ApiGenerator SpecWords Examples.

(* ----------------------------------------------------------------- *)
(** ** Facts about the string primitives *)

Section StringFacts.

Lemma append_nil_r (s : string) : s ++ "" = s.
Proof. induction s as [|c s IH]; simpl; [reflexivity | now rewrite IH]. Qed.

Lemma append_assoc (a b c : string) : (a ++ b) ++ c = a ++ b ++ c.
Proof. induction a as [|x a IH]; simpl; [reflexivity | now rewrite IH]. Qed.

Lemma length_append (a b : string) :
  String.length (a ++ b) = String.length a + String.length b.
Proof. induction a as [|x a IH]; simpl; [reflexivity | now rewrite IH]. Qed.

Lemma append_inv_head (a b c : string) : a ++ b = a ++ c -> b = c.
Proof.
  induction a as [|x a IH]; simpl; intros H; [exact H | injection H; auto].
Qed.

Lemma take_drop (n : nat) (s : string) : take n s ++ drop n s = s.
Proof.
  revert s; induction n as [|n IH]; intros [|c s]; simpl; try reflexivity.
  now rewrite IH.
Qed.

Lemma take_app_length (a b : string) : take (String.length a) (a ++ b) = a.
Proof. induction a as [|x a IH]; simpl; [now destruct b | now rewrite IH]. Qed.

Lemma drop_app_length (a b : string) : drop (String.length a) (a ++ b) = b.
Proof. induction a as [|x a IH]; simpl; [reflexivity | exact IH]. Qed.

Lemma length_take (n : nat) (s : string) :
  String.length (take n s) = Nat.min n (String.length s).
Proof.
  revert s; induction n as [|n IH]; intros [|c s]; simpl; try reflexivity.
  now rewrite IH.
Qed.

Lemma length_drop (n : nat) (s : string) :
  String.length (drop n s) = String.length s - n.
Proof.
  revert s; induction n as [|n IH]; intros [|c s]; simpl; try reflexivity.
  apply IH.
Qed.

Lemma take_all (n : nat) (s : string) : String.length s <= n -> take n s = s.
Proof.
  revert s; induction n as [|n IH]; intros [|c s]; simpl; intros H;
    try reflexivity; try lia.
  rewrite IH by lia; reflexivity.
Qed.

Lemma drop_all (n : nat) (s : string) : String.length s <= n -> drop n s = "".
Proof.
  revert s; induction n as [|n IH]; intros [|c s]; simpl; intros H;
    try reflexivity; try lia.
  apply IH; lia.
Qed.

Lemma drop_drop (n m : nat) (s : string) : drop n (drop m s) = drop (m + n) s.
Proof.
  revert s; induction m as [|m IH]; intros s; simpl; [reflexivity|].
  destruct s as [|c s]; [now destruct n | apply IH].
Qed.

Lemma take_app_le (n : nat) (a b : string) :
  n <= String.length a -> take n (a ++ b) = take n a.
Proof.
  revert a; induction n as [|n IH]; intros [|c a]; simpl; intros H;
    try reflexivity; try lia.
  rewrite IH by lia; reflexivity.
Qed.

Lemma drop_app_ge (n : nat) (a b : string) :
  String.length a <= n -> drop n (a ++ b) = drop (n - String.length a) b.
Proof.
  revert n; induction a as [|c a IH]; intros n H; simpl in *.
  - now rewrite Nat.sub_0_r.
  - destruct n as [|n]; [lia|]. simpl. apply IH; lia.
Qed.

Lemma startsWith_app (p r : string) : startsWith (p ++ r) p = true.
Proof.
  induction p as [|c p IH]; simpl; [reflexivity|].
  now rewrite Ascii.eqb_refl.
Qed.

Lemma startsWith_inv (s p : string) :
  startsWith s p = true -> s = p ++ drop (String.length p) s.
Proof.
  revert s; induction p as [|c p IH]; intros s H; simpl in *; [reflexivity|].
  destruct s as [|d s]; [discriminate|].
  destruct (Ascii.eqb c d) eqn:E; [|discriminate].
  apply Ascii.eqb_eq in E; subst d. simpl. f_equal. apply IH, H.
Qed.

Lemma startsWith_iff (s p : string) :
  startsWith s p = true <-> exists r, s = p ++ r.
Proof.
  split.
  - intros H. eexists. apply startsWith_inv, H.
  - intros [r ->]. apply startsWith_app.
Qed.

Lemma startsWith_length (s p : string) :
  startsWith s p = true -> String.length p <= String.length s.
Proof.
  intros H. apply startsWith_inv in H. rewrite H, length_append. lia.
Qed.

Lemma startsWith_same_length (s p q : string) :
  startsWith s p = true -> startsWith s q = true ->
  String.length p = String.length q -> p = q.
Proof.
  intros Hp Hq Hl.
  apply startsWith_inv in Hp. apply startsWith_inv in Hq.
  rewrite <- (take_app_length p (drop (String.length p) s)), <- Hp.
  rewrite <- (take_app_length q (drop (String.length q) s)), <- Hq.
  now rewrite Hl.
Qed.

(** [indexOf] finds an occurrence ... *)
Lemma indexOf_occurs (p s : string) (i : nat) :
  indexOf p s = Some i -> startsWith (drop i s) p = true.
Proof.
  revert i; induction s as [|c s IH]; intros i H; simpl in H.
  - destruct (startsWith "" p) eqn:E; [|discriminate].
    injection H as <-. exact E.
  - destruct (startsWith (String c s) p) eqn:E.
    + injection H as <-. exact E.
    + destruct (indexOf p s) as [j|] eqn:Ej; [|discriminate].
      injection H as <-. simpl. apply IH. reflexivity.
Qed.

(** ... the first one ... *)
Lemma indexOf_first (p s : string) (i j : nat) :
  indexOf p s = Some i -> j < i -> startsWith (drop j s) p = false.
Proof.
  revert i j; induction s as [|c s IH]; intros i j H Hj; simpl in H.
  - destruct (startsWith "" p); [injection H as <-; lia | discriminate].
  - destruct (startsWith (String c s) p) eqn:E.
    + injection H as <-; lia.
    + destruct (indexOf p s) as [k|] eqn:Ek; [|discriminate].
      injection H as <-.
      destruct j as [|j]; [exact E|]. simpl. apply (IH k); [reflexivity | lia].
Qed.

(** ... and fails only when there is none. *)
Lemma indexOf_none (p s : string) (j : nat) :
  indexOf p s = None -> j <= String.length s -> startsWith (drop j s) p = false.
Proof.
  revert j; induction s as [|c s IH]; intros j H Hj; simpl in H.
  - destruct (startsWith "" p) eqn:E; [discriminate|].
    simpl in Hj. assert (j = 0) by lia. subst j. exact E.
  - destruct (startsWith (String c s) p) eqn:E; [discriminate|].
    destruct (indexOf p s) as [k|] eqn:Ek; [discriminate|].
    destruct j as [|j]; [exact E|]. simpl. apply IH; [reflexivity | simpl in Hj; lia].
Qed.

Lemma indexOf_le_length (p s : string) (i : nat) :
  indexOf p s = Some i -> i <= String.length s.
Proof.
  revert i; induction s as [|c s IH]; intros i H; simpl in H.
  - destruct (startsWith "" p); [injection H as <-; lia | discriminate].
  - destruct (startsWith (String c s) p).
    + injection H as <-; lia.
    + destruct (indexOf p s) as [k|] eqn:Ek; [|discriminate].
      injection H as <-. simpl. specialize (IH k eq_refl). lia.
Qed.

Lemma indexOf_bound (p s : string) (i : nat) :
  indexOf p s = Some i -> i + String.length p <= String.length s.
Proof.
  intros H. pose proof (indexOf_le_length _ _ _ H) as Hi.
  apply indexOf_occurs in H. apply startsWith_length in H.
  rewrite length_drop in H. lia.
Qed.

(** The text splits at the index found. *)
Lemma indexOf_split (p s : string) (i : nat) :
  indexOf p s = Some i ->
  s = take i s ++ p ++ drop (i + String.length p) s.
Proof.
  intros H. apply indexOf_occurs in H. apply startsWith_inv in H.
  rewrite drop_drop in H.
  rewrite <- H. symmetry. apply take_drop.
Qed.

Lemma endsWith_inv (s p : string) :
  endsWith s p = true -> s = take (String.length s - String.length p) s ++ p.
Proof.
  unfold endsWith. intros H. apply andb_true_iff in H as [_ H].
  apply String.eqb_eq in H.
  transitivity (take (String.length s - String.length p) s
                ++ drop (String.length s - String.length p) s).
  - symmetry. apply take_drop.
  - now rewrite H.
Qed.

Lemma endsWith_app (a p : string) : endsWith (a ++ p) p = true.
Proof.
  unfold endsWith. rewrite length_append. apply andb_true_iff. split.
  - apply Nat.leb_le. lia.
  - replace (String.length a + String.length p - String.length p)
      with (String.length a) by lia.
    rewrite drop_app_length. apply String.eqb_refl.
Qed.

Lemma mismatch_startsWith (p s rest : string) :
  mismatch p s = true -> startsWith (s ++ rest) p = false.
Proof.
  revert s. induction p as [|a p IH]; intros [|b s]; simpl; try discriminate.
  destruct (Ascii.eqb a b); [apply IH | reflexivity].
Qed.

(** A text in which the pattern cannot start is skipped by the search. *)
Lemma indexOf_skip (p s rest : string) :
  noStart p s = true ->
  indexOf p (s ++ rest) = option_map (Nat.add (String.length s)) (indexOf p rest).
Proof.
  induction s as [|c s IH]; simpl; intros H.
  - destruct (indexOf p rest); reflexivity.
  - apply andb_true_iff in H as [Hm Hs].
    change (String c (s ++ rest)) with (String c s ++ rest).
    rewrite (mismatch_startsWith p (String c s) rest Hm), (IH Hs).
    destruct (indexOf p rest); reflexivity.
Qed.

(** The search finds an occurrence at or before any given one. *)
Lemma indexOf_before (p a b : string) :
  exists i, indexOf p (a ++ p ++ b) = Some i /\ i <= String.length a.
Proof.
  destruct (indexOf p (a ++ p ++ b)) as [i|] eqn:E.
  - exists i. split; [reflexivity|].
    destruct (Nat.le_gt_cases i (String.length a)) as [Hle|Hgt]; [exact Hle|].
    pose proof (indexOf_first _ _ _ _ E Hgt) as Hf.
    rewrite drop_app_length, startsWith_app in Hf. discriminate.
  - pose proof (indexOf_none p (a ++ p ++ b) (String.length a) E) as Hf.
    rewrite drop_app_length, startsWith_app, length_append in Hf.
    discriminate Hf. lia.
Qed.

Lemma drop_app_le (n : nat) (a b : string) :
  n <= String.length a -> drop n (a ++ b) = drop n a ++ b.
Proof.
  revert a. induction n as [|n IH]; intros a H; [reflexivity|].
  destruct a as [|c a]; simpl in *; [lia|]. apply IH. lia.
Qed.

Lemma startsWith_within (s rest p : string) :
  startsWith (s ++ rest) p = true -> String.length p <= String.length s ->
  startsWith s p = true.
Proof.
  revert s. induction p as [|a p IH]; intros s H Hl; [reflexivity|].
  destruct s as [|b s]; simpl in *; [lia|].
  destruct (Ascii.eqb a b); [|discriminate]. apply IH; [exact H | lia].
Qed.

(** An occurrence found in [a ++ b] when [a] has none reaches beyond [a]. *)
Lemma indexOf_beyond (p a b : string) (j : nat) :
  indexOf p a = None -> indexOf p (a ++ b) = Some j ->
  String.length a < j + String.length p.
Proof.
  intros Hn Hj.
  destruct (Nat.le_gt_cases (j + String.length p) (String.length a)) as [Hle|Hgt];
    [|exact Hgt].
  exfalso. apply indexOf_occurs in Hj.
  rewrite drop_app_le in Hj by lia.
  apply startsWith_within in Hj; [|rewrite length_drop; lia].
  rewrite (indexOf_none p a j Hn) in Hj by lia. discriminate.
Qed.

Lemma startsWith_exact (s p : string) :
  startsWith s p = true -> String.length s <= String.length p -> s = p.
Proof.
  intros H Hl. apply startsWith_inv in H.
  assert (Hd : drop (String.length p) s = "") by (apply drop_all; exact Hl).
  rewrite Hd, append_nil_r in H. exact H.
Qed.

(** A text without the pattern still has none after one more code unit,
    unless the pattern ends with that code unit. *)
Lemma indexOf_none_snoc (p a : string) (c : ascii) :
  indexOf p a = None -> endsWith p (String c "") = false ->
  indexOf p (a ++ String c "") = None.
Proof.
  intros Hn He. destruct (indexOf p (a ++ String c "")) as [k|] eqn:Ek; [|reflexivity].
  exfalso.
  assert (Hp : 0 < String.length p).
  { destruct p; [|simpl; lia]. destruct a; discriminate. }
  pose proof (indexOf_beyond p a _ k Hn Ek) as Hb.
  pose proof (indexOf_bound _ _ _ Ek) as Hbound.
  rewrite length_append in Hbound. simpl in Hbound.
  apply indexOf_occurs in Ek.
  assert (Hk : k <= String.length a) by lia.
  rewrite drop_app_le in Ek by exact Hk.
  apply startsWith_exact in Ek.
  - rewrite <- Ek, endsWith_app in He. discriminate.
  - rewrite length_append, length_drop. simpl. lia.
Qed.

Lemma take_app_ge (n : nat) (a b : string) :
  String.length a <= n -> take n (a ++ b) = a ++ take (n - String.length a) b.
Proof.
  revert n; induction a as [|c a IH]; intros n H; simpl in *.
  - now rewrite Nat.sub_0_r.
  - destruct n as [|n]; [lia|]. simpl. rewrite IH by lia. reflexivity.
Qed.

Lemma take_take_drop (a b : nat) (s : string) :
  take a s ++ take b (drop a s) = take (a + b) s.
Proof.
  revert s; induction a as [|a IH]; intros s; simpl; [reflexivity|].
  destruct s as [|c s]; simpl; [now destruct b | now rewrite IH].
Qed.

End StringFacts.

(* ----------------------------------------------------------------- *)
(** ** utils/naming: suffixes and prefixes *)

Section NamingFacts.

Lemma sliceToNeg_strips (s p : string) :
  p <> "" -> endsWith s p = true -> sliceToNeg (String.length p) s ++ p = s.
Proof.
  intros Hp H. unfold sliceToNeg.
  destruct p as [|c p]; [congruence|].
  simpl String.length. symmetry. apply (endsWith_inv s (String c p) H).
Qed.

Lemma removeTypeSuffix_no_match (name : string) (suffixes : list string) :
  firstMatchingSuffix name suffixes = None -> removeTypeSuffix name suffixes = name.
Proof.
  unfold firstMatchingSuffix.
  induction suffixes as [|s l IH]; simpl; [reflexivity|].
  destruct (endsWith name s); [discriminate | exact IH].
Qed.

Lemma removeTypeSuffix_match (name : string) (suffixes : list string) (s : string) :
  firstMatchingSuffix name suffixes = Some s ->
  removeTypeSuffix name suffixes = sliceToNeg (String.length s) name.
Proof.
  unfold firstMatchingSuffix.
  induction suffixes as [|s0 l IH]; simpl; [discriminate|].
  destruct (endsWith name s0) eqn:E.
  - intros [= ->]. reflexivity.
  - exact IH.
Qed.

Lemma LongestFirst_insert (x : string) (l : list string) :
  LongestFirst l -> LongestFirst (ConfigLoader.insertByLength x l).
Proof.
  induction 1 as [|p l Hall Hl IH]; simpl.
  - constructor; constructor.
  - destruct (String.length p <=? String.length x)%nat eqn:E.
    + apply Nat.leb_le in E. constructor.
      * constructor; [exact E|].
        eapply Forall_impl; [|exact Hall]. simpl. intros; lia.
      * constructor; assumption.
    + apply Nat.leb_gt in E. constructor; [|exact IH].
      clear IH Hl. induction l as [|y l IHl]; simpl.
      * constructor; [lia | constructor].
      * inversion Hall; subst.
        destruct (String.length y <=? String.length x)%nat;
          repeat constructor; auto; lia.
Qed.

Lemma sortByLengthDesc_sorted (l : list string) :
  LongestFirst (ConfigLoader.sortByLengthDesc l).
Proof.
  induction l as [|x l IH]; simpl; [constructor | now apply LongestFirst_insert].
Qed.

Lemma insertByLength_In (x y : string) (l : list string) :
  In y (ConfigLoader.insertByLength x l) <-> y = x \/ In y l.
Proof.
  induction l as [|z l IH]; simpl.
  - intuition congruence.
  - destruct (String.length z <=? String.length x)%nat; simpl.
    + intuition congruence.
    + rewrite IH. intuition congruence.
Qed.

Lemma sortByLengthDesc_In (y : string) (l : list string) :
  In y (ConfigLoader.sortByLengthDesc l) <-> In y l.
Proof.
  induction l as [|x l IH]; simpl; [tauto|].
  rewrite insertByLength_In, IH. intuition congruence.
Qed.

(** On a list sorted longest-first, the first matching prefix is the longest
    matching one. *)
Lemma cleanPathPrefix_sorted (path : string) (prefixes : list string) (q : string) :
  LongestFirst prefixes -> LongestMatch path prefixes q ->
  cleanPathPrefix path prefixes = strippedPath path q.
Proof.
  intros Hs (Hin & Hq & Hmax). induction Hs as [|p l Hall Hl IH]; [destruct Hin|].
  simpl. destruct (startsWith path p) eqn:Ep.
  - assert (p = q) as ->; [|reflexivity].
    apply (startsWith_same_length path); trivial.
    apply Nat.le_antisymm.
    + apply Hmax; [now left | exact Ep].
    + destruct Hin as [->|Hin]; [lia|].
      rewrite Forall_forall in Hall. now apply Hall.
  - destruct Hin as [->|Hin]; [congruence|].
    apply IH; [exact Hin|].
    intros q' Hq' Hm. apply Hmax; [now right | exact Hm].
Qed.

Lemma cleanPathPrefix_none (path : string) (prefixes : list string) :
  (forall q, In q prefixes -> startsWith path q = false) ->
  cleanPathPrefix path prefixes = path.
Proof.
  induction prefixes as [|p l IH]; simpl; intros H; [reflexivity|].
  rewrite (H p) by now left. apply IH. intros q Hq. apply H. now right.
Qed.

End NamingFacts.

(** C10, as first stated, fails: the last part of "x.BaseResponse" is equal
    to the configured suffix "BaseResponse", but the name also ends with
    "Response", which stands earlier in the list and is the one that is
    stripped; the display name is "Base" and not the empty string. *)
Lemma C10_earlier_suffix_counterexample :
  In (toPascalCase (last (split "." "x.BaseResponse") ""))
     ["Response"; "BaseResponse"] /\
  cleanTypeName "x.BaseResponse" ["Response"; "BaseResponse"] = "Base" /\
  cleanTypeName "x.BaseResponse" ["Response"; "BaseResponse"] <> "".
Proof. split; [right; left; reflexivity|]. split; [reflexivity | discriminate]. Qed.

(** The empty suffix is a case of its own: every name ends with it, and
    [slice(0, -0)] is [slice(0, 0)], so the whole name is lost where
    stripping nothing would leave it as it is. *)
Lemma removeTypeSuffix_empty_suffix :
  firstMatchingSuffix "Order" [""] = Some "" /\
  removeTypeSuffix "Order" [""] = "" /\
  removeTypeSuffix "Order" [""] ++ "" <> "Order".
Proof. repeat split; vm_compute; congruence. Qed.

(** C10 (amended): [removeTypeSuffix] returns the name unchanged when no
    suffix of the list matches; otherwise it strips exactly one suffix, the
    first of the list that the name ends with, provided that suffix is not
    empty. So [cleanTypeName] returns the empty string whenever the last
    part of the name, in Pascal case, is itself the first suffix of the list
    that it ends with, as for [cleanTypeName "response.Response"
    ["Response"]]; when a suffix that stands earlier in the list matches,
    that one alone is stripped. *)
Theorem C10_removeTypeSuffix_strips_first_match (name : string) (suffixes : list string) :
  match firstMatchingSuffix name suffixes with
  | None => removeTypeSuffix name suffixes = name
  | Some s => s <> "" -> removeTypeSuffix name suffixes ++ s = name
  end /\
  (let part := toPascalCase (last (split "." name) "") in
   (firstMatchingSuffix part suffixes = Some part -> cleanTypeName name suffixes = "") /\
   (forall s, firstMatchingSuffix part suffixes = Some s -> s <> "" ->
              cleanTypeName name suffixes ++ s = part)) /\
  cleanTypeName "response.Response" ["Response"] = "".
Proof.
  assert (Hstrip : forall n l s, firstMatchingSuffix n l = Some s -> s <> "" ->
                                 removeTypeSuffix n l ++ s = n).
  { intros n l s E Hs. rewrite (removeTypeSuffix_match _ _ _ E).
    apply sliceToNeg_strips; [exact Hs|].
    unfold firstMatchingSuffix in E. apply find_some in E. tauto. }
  split; [|split; [|reflexivity]].
  - destruct (firstMatchingSuffix name suffixes) as [s|] eqn:E.
    + intros Hs. now apply Hstrip.
    + now apply removeTypeSuffix_no_match.
  - intros part. unfold cleanTypeName. fold part. split.
    + intros E. rewrite (removeTypeSuffix_match _ _ _ E).
      unfold sliceToNeg. rewrite Nat.sub_diag. now destruct part.
    + intros s E Hs. now apply Hstrip.
Qed.

(** The amended statement at the name "UserResponse": the first suffix of
    the list that matches, "Response", is stripped; and at the qualified
    name "response.Response", whose last part is that suffix. *)
Lemma C10_witness :
  removeTypeSuffix "UserResponse" ["Request"; "Response"] ++ "Response" = "UserResponse" /\
  cleanTypeName "response.Response" ["Request"; "Response"] = "".
Proof.
  assert (Hs : "Response" <> "") by discriminate.
  split.
  - exact (proj1 (C10_removeTypeSuffix_strips_first_match
                    "UserResponse" ["Request"; "Response"]) Hs).
  - exact (proj1 (proj1 (proj2 (C10_removeTypeSuffix_strips_first_match
                                  "response.Response" ["Request"; "Response"])))
                 eq_refl).
Defined.

(** C7: on a strip-list sorted longest-first, [cleanPathPrefix] strips the
    longest configured prefix that matches the path, so a longer prefix wins
    over a shorter one (what is left of the path is returned, behind a slash
    if it does not start with one); [loadConfig] sorts the configured list
    longest-first, in whatever order it was written; and with the list
    ["/api/v1"; "/api"] the path "/api/v1/orders" is cleaned to "/orders". *)
Theorem C7_cleanPathPrefix_longest_prefix_wins
    (path : string) (prefixes : list string) (q : string)
    (Hlongest : LongestMatch path prefixes q) :
  (LongestFirst prefixes -> cleanPathPrefix path prefixes = strippedPath path q) /\
  (startsWith (drop (String.length q) path) "/" = true ->
   q ++ strippedPath path q = path) /\
  (forall userConfig : option ConfigLoader.UserConfig,
      LongestFirst (pathPrefixFilter (ConfigLoader.loadConfig userConfig))) /\
  (forall user : ConfigLoader.UserConfig,
      ConfigLoader.user_pathPrefixFilter user = Some prefixes ->
      cleanPathPrefix path (pathPrefixFilter (ConfigLoader.loadConfig (Some user)))
      = strippedPath path q) /\
  cleanPathPrefix "/api/v1/orders" ["/api/v1"; "/api"] = "/orders".
Proof.
  split; [|split; [|split; [|split]]].
  - intros Hs. now apply cleanPathPrefix_sorted.
  - intros Hslash. unfold strippedPath. rewrite Hslash.
    destruct Hlongest as (_ & Hq & _). symmetry. now apply startsWith_inv.
  - intros [user|]; simpl.
    + apply sortByLengthDesc_sorted.
    + repeat constructor.
  - intros user Huser. simpl. rewrite Huser. simpl.
    apply cleanPathPrefix_sorted; [apply sortByLengthDesc_sorted|].
    destruct Hlongest as (Hin & Hq & Hmax). repeat split; trivial.
    + now apply sortByLengthDesc_In.
    + intros q' Hq'. apply Hmax. now apply sortByLengthDesc_In.
  - reflexivity.
Qed.

(** The strip-list written shortest-first in [package.json]: after
    [loadConfig] the longer prefix is still the one that is stripped. *)
Lemma C7_witness :
  cleanPathPrefix "/api/v1/orders"
    (pathPrefixFilter (ConfigLoader.loadConfig (Some shortestFirstUser)))
  = "/orders".
Proof.
  assert (H : LongestMatch "/api/v1/orders" ["/api"; "/api/v1"] "/api/v1").
  { repeat split; simpl; auto.
    intros q' [<-|[<-|[]]] _; simpl; lia. }
  exact (proj1 (proj2 (proj2 (proj2 (C7_cleanPathPrefix_longest_prefix_wins
                                       "/api/v1/orders" ["/api"; "/api/v1"] "/api/v1" H))))
               shortestFirstUser eq_refl).
Defined.

(* ----------------------------------------------------------------- *)
(** ** generators/apiGenerator: the sentinel merge *)

Section MergeFacts.

Lemma merge_formula (prior new : string) (i j k l : nat) :
  indexOf AUTO_GEN_START prior = Some i ->
  indexOf AUTO_GEN_END prior = Some j ->
  indexOf AUTO_GEN_START new = Some k ->
  indexOf AUTO_GEN_END new = Some l ->
  mergeWithExisting prior new
  = take i prior ++ slice k (l + String.length AUTO_GEN_END) new
    ++ drop (j + String.length AUTO_GEN_END) prior.
Proof.
  intros Hi Hj Hk Hl. unfold mergeWithExisting.
  rewrite Hi, Hj, Hk, Hl. unfold slice. rewrite Nat.sub_0_r. reflexivity.
Qed.

Lemma merge_foreign (prior new : string) :
  indexOf AUTO_GEN_START prior = None \/ indexOf AUTO_GEN_END prior = None \/
  indexOf AUTO_GEN_START new = None \/ indexOf AUTO_GEN_END new = None ->
  mergeWithExisting prior new = new.
Proof.
  unfold mergeWithExisting. intros [H|[H|[H|H]]]; rewrite H; try reflexivity.
  - now destruct (indexOf AUTO_GEN_START prior).
  - now destruct (indexOf AUTO_GEN_START prior), (indexOf AUTO_GEN_END prior).
  - now destruct (indexOf AUTO_GEN_START prior), (indexOf AUTO_GEN_END prior),
      (indexOf AUTO_GEN_START new).
Qed.

(** Merging a text with itself. *)
Lemma merge_self (t : string) : mergeWithExisting t t = t <-> ~ EndBeforeStart t.
Proof.
  destruct (indexOf AUTO_GEN_START t) as [i|] eqn:Hi.
  2:{ split; intros _.
      - intros (i & j & Hi' & _). congruence.
      - apply merge_foreign. now left. }
  destruct (indexOf AUTO_GEN_END t) as [j|] eqn:Hj.
  2:{ split; intros _.
      - intros (i' & j & _ & Hj' & _). congruence.
      - apply merge_foreign. right. now left. }
  rewrite (merge_formula t t i j i j Hi Hj Hi Hj). unfold slice.
  set (n := String.length AUTO_GEN_END).
  destruct (Nat.le_gt_cases i (j + n)) as [Hle|Hgt].
  - split.
    + intros _ (i' & j' & Hi' & Hj' & Hlt).
      rewrite Hi in Hi'. rewrite Hj in Hj'.
      injection Hi' as <-. injection Hj' as <-. fold n in Hlt. lia.
    + intros _. rewrite <- append_assoc, take_take_drop.
      replace (i + (j + n - i)) with (j + n) by lia. apply take_drop.
  - split.
    + intros H. exfalso.
      apply (f_equal String.length) in H.
      rewrite !length_append, !length_take, !length_drop in H.
      pose proof (indexOf_le_length _ _ _ Hi) as Hb.
      replace (j + n - i) with 0 in H by lia. simpl in H.
      rewrite Nat.min_l in H by exact Hb. lia.
    + intros H. exfalso. apply H. exists i, j. fold n. auto.
Qed.

(** The end marker cannot start inside an occurrence of the start marker. *)
Lemma markers_differ (d : nat) :
  d < String.length AUTO_GEN_START -> mismatch AUTO_GEN_END (drop d AUTO_GEN_START) = true.
Proof.
  change (String.length AUTO_GEN_START) with 31.
  do 31 (destruct d as [|d]; [reflexivity|]). lia.
Qed.

Lemma markers_apart (t : string) (k l : nat) :
  startsWith (drop k t) AUTO_GEN_START = true ->
  startsWith (drop l t) AUTO_GEN_END = true ->
  k <= l -> k + String.length AUTO_GEN_START <= l.
Proof.
  intros Hk Hl Hle.
  destruct (Nat.le_gt_cases (k + String.length AUTO_GEN_START) l) as [H|H]; [exact H|].
  exfalso. apply startsWith_inv in Hk.
  replace l with (k + (l - k)) in Hl by lia.
  rewrite <- drop_drop, Hk, drop_app_le in Hl by lia.
  rewrite (mismatch_startsWith _ _ _ (markers_differ (l - k) ltac:(lia))) in Hl.
  discriminate.
Qed.

(** With the start marker first, the region runs from the start marker to
    the end of the end marker. *)
Lemma region_shape (new : string) (k l : nat) :
  indexOf AUTO_GEN_START new = Some k ->
  indexOf AUTO_GEN_END new = Some l ->
  k <= l ->
  exists middle,
    slice k (l + String.length AUTO_GEN_END) new
    = AUTO_GEN_START ++ middle ++ AUTO_GEN_END.
Proof.
  intros Hk Hl Hle.
  apply indexOf_occurs in Hk. apply indexOf_occurs in Hl.
  pose proof (markers_apart new k l Hk Hl Hle) as Hapart.
  apply startsWith_inv in Hk. set (rest := drop (String.length AUTO_GEN_START) (drop k new)) in *.
  set (m := l - k - String.length AUTO_GEN_START).
  replace l with (k + (String.length AUTO_GEN_START + m)) in Hl by (unfold m; lia).
  rewrite <- drop_drop, Hk, drop_app_ge in Hl by lia.
  replace (String.length AUTO_GEN_START + m - String.length AUTO_GEN_START) with m in Hl by lia.
  apply startsWith_inv in Hl.
  exists (take m rest). unfold slice. rewrite Hk.
  rewrite take_app_ge by lia.
  replace (l + String.length AUTO_GEN_END - k - String.length AUTO_GEN_START)
    with (m + String.length AUTO_GEN_END) by (unfold m; lia).
  rewrite <- take_take_drop. rewrite Hl at 1. now rewrite take_app_length.
Qed.

End MergeFacts.




(* ----------------------------------------------------------------- *)
(** ** generators/typeGenerator: one declaration per display name *)

Section TypeMapFacts.

Let keyIs (name : string) (entry : string * ParsedType) : bool :=
  String.eqb (fst entry) name.

Lemma hasType_false_filter (name : string) (typeMap : Record ParsedType) :
  hasType name typeMap = false -> filter (keyIs name) typeMap = [].
Proof.
  induction typeMap as [|[k v] m IH]; simpl; [reflexivity|].
  intros H. apply orb_false_iff in H as [Hk Hm].
  unfold keyIs at 1. simpl. rewrite String.eqb_sym, Hk. now apply IH.
Qed.

Lemma hasType_app (name : string) (m1 m2 : Record ParsedType) :
  hasType name (m1 ++ m2)%list = hasType name m1 || hasType name m2.
Proof.
  induction m1 as [|[k v] m1 IH]; simpl; [reflexivity|].
  now rewrite IH, orb_assoc.
Qed.

(** The map after the loop, seen through one name: what the map held for the
    name before the loop, or else the first type of the list with that
    name. *)
Lemma buildTypeMap_from (types : list ParsedType) (acc : Record ParsedType)
    (name : string) :
  filter (keyIs name)
    (fold_left
       (fun typeMap type =>
          if hasType (type_name type) typeMap then typeMap
          else (typeMap ++ [(type_name type, type)])%list)
       types acc)
  = if hasType name acc then filter (keyIs name) acc
    else match firstNamed name types with
         | Some t => [(name, t)]
         | None => []
         end.
Proof.
  revert acc. induction types as [|t types IH]; intros acc; simpl.
  - destruct (hasType name acc) eqn:E; [reflexivity|].
    now apply hasType_false_filter.
  - rewrite IH. clear IH.
    destruct (hasType (type_name t) acc) eqn:Et.
    + destruct (hasType name acc) eqn:En; [reflexivity|].
      unfold firstNamed. simpl.
      destruct (String.eqb (type_name t) name) eqn:E; [|reflexivity].
      apply String.eqb_eq in E. congruence.
    + rewrite hasType_app, filter_app. simpl.
      unfold keyIs at 2. simpl.
      unfold firstNamed. simpl.
      rewrite (String.eqb_sym name (type_name t)).
      destruct (String.eqb (type_name t) name) eqn:E.
      * apply String.eqb_eq in E. subst name. rewrite Et. simpl.
        now rewrite (hasType_false_filter _ _ Et).
      * rewrite orb_false_r.
        destruct (hasType name acc); [now rewrite app_nil_r | reflexivity].
Qed.

End TypeMapFacts.

(** C2, as first stated, fails: of two definitions with the display name
    [User], the file declares the first of the list, a string, and not the
    last, a number. *)
Lemma C2_last_seen_counterexample :
  type_originalName userOfAdmin <> type_originalName userOfShop /\
  type_name userOfAdmin = type_name userOfShop /\
  lastNamed "User" [userOfAdmin; userOfShop] = Some userOfShop /\
  declarationsOf "User" [userOfAdmin; userOfShop] defaultConfig
  = ["export type User = string"] /\
  generateTypeDefinition "User" (type_schema userOfShop) defaultConfig
  = "export type User = number" /\
  typeDeclarations [userOfAdmin; userOfShop] defaultConfig
  = ["export type User = string"].
Proof. repeat split; try reflexivity. discriminate. Qed.

(** C2 (amended): when types of a list given to [generateTypesFile] share a
    display name, whatever their original names, the file holds exactly one
    declaration for that name, and it is the declaration of the first such
    type of the list: first-seen wins, nothing is renamed. *)
Theorem C2_first_seen_wins
    (types : list ParsedType) (apis : list ParsedAPI) (config : Config)
    (name : string) (t : ParsedType)
    (Hfirst : firstNamed name types = Some t) :
  declarationsOf name types config
  = [generateTypeDefinition name (type_schema t) config] /\
  generateTypesFile types apis config
  = join nl (["/**"; " * 此文件由 swagger-typegen 自动生成，请勿手动修改"; " */"; ""]
             ++ flat_map (fun tsCode => [tsCode; ""]) (typeDeclarations types config)
             ++ flat_map (fun tsCode => [tsCode; ""]) (queryDeclarations apis config))%list.
Proof.
  split.
  - unfold declarationsOf, buildTypeMap.
    rewrite (buildTypeMap_from types [] name). simpl. rewrite Hfirst. simpl.
    unfold firstNamed in Hfirst. apply find_some in Hfirst as [_ Hname].
    apply String.eqb_eq in Hname. now rewrite Hname.
  - reflexivity.
Qed.

(** An instance of C2: the two users, in either order. *)
Lemma C2_witness :
  declarationsOf "User" [userOfAdmin; userOfShop] defaultConfig
  = ["export type User = string"] /\
  declarationsOf "User" [userOfShop; userOfAdmin] defaultConfig
  = ["export type User = number"].
Proof.
  split.
  - exact (proj1 (C2_first_seen_wins [userOfAdmin; userOfShop] [] defaultConfig
                                     "User" userOfAdmin eq_refl)).
  - exact (proj1 (C2_first_seen_wins [userOfShop; userOfAdmin] [] defaultConfig
                                     "User" userOfShop eq_refl)).
Defined.

(* ----------------------------------------------------------------- *)
(** ** generators/typeGenerator: excluded fields *)

(** In an interface, the property lines leave out every excluded field. *)
Lemma propertyLines_skip_excluded
    (config : Config) (required : list string) (props : Record SchemaObject) :
  propertyLines config required props
  = propertyLines config required
      (filter (fun kv => negb (mem (fst kv) (excludeFields config))) props).
Proof.
  induction props as [|[k v] props IH]; simpl; [reflexivity|].
  destruct (mem k (excludeFields config)) eqn:E; simpl; [exact IH|].
  now rewrite E, IH.
Qed.

(** In the type of query parameters, an excluded parameter has no line. *)
Lemma queryParamLines_excluded (config : Config) (param : ParameterObject) :
  mem (param_name param) (excludeFields config) = true ->
  queryParamLines config param = [].
Proof.
  intros H. unfold queryParamLines. rewrite H.
  now destruct (String.eqb (param_name param) "" || String.eqb (param_name param) "-").
Qed.

(** C3 fails on the code: with the field [token] excluded, the interface of
    the session leaves out its own [token], but the inline object rendered
    for [auth] by [schemaToTsType] still declares the [token] inside it. *)
Theorem C3_inline_object_keeps_excluded_field :
  mem "token" (excludeFields excludeTokenConfig) = true /\
  schemaToTsType (objectSchema [("token", stringSchema); ("user", stringSchema)])
                 excludeTokenConfig
  = "{ token?: string; user?: string }" /\
  generateTypeDefinition "Session" sessionSchema excludeTokenConfig
  = "export interface Session {" ++ nl ++
    "  id?: number" ++ nl ++
    "  auth?: { token?: string; user?: string }" ++ nl ++
    "}".
Proof. repeat split; reflexivity. Qed.

(* ----------------------------------------------------------------- *)
(** ** generators/apiGenerator: the type-only import *)

Section ImportFacts.

Lemma mem_In (x : string) (l : list string) : mem x l = true <-> In x l.
Proof.
  induction l as [|y l IH]; simpl; [split; [discriminate | tauto]|].
  rewrite orb_true_iff, IH, String.eqb_eq. intuition congruence.
Qed.

Lemma mem_false_In (x : string) (l : list string) : mem x l = false <-> ~ In x l.
Proof.
  rewrite <- mem_In. destruct (mem x l); intuition congruence.
Qed.

Lemma insertSorted_perm (x : string) (l : list string) :
  Permutation (x :: l) (insertSorted x l).
Proof.
  induction l as [|y l IH]; simpl; [reflexivity|].
  destruct (String.leb x y); [reflexivity|].
  rewrite perm_swap. now constructor.
Qed.

Lemma sortStrings_perm (l : list string) : Permutation l (sortStrings l).
Proof.
  induction l as [|x l IH]; simpl; [constructor|].
  rewrite <- insertSorted_perm. now constructor.
Qed.

Lemma insertSorted_sorted (x : string) (l : list string) :
  SortedByName l -> SortedByName (insertSorted x l).
Proof.
  unfold SortedByName. induction 1 as [|y l Hl IH Hy]; simpl.
  - repeat constructor.
  - destruct (String.leb x y) eqn:E.
    + repeat constructor; assumption.
    + constructor; [exact IH|].
      assert (Hyx : String.leb y x = true).
      { destruct (String.leb_total x y); congruence. }
      destruct l as [|z l]; simpl.
      * constructor. exact Hyx.
      * destruct (String.leb x z); constructor; trivial.
        now inversion Hy.
Qed.

Lemma sortStrings_sorted (l : list string) : SortedByName (sortStrings l).
Proof.
  induction l as [|x l IH]; simpl; [constructor | now apply insertSorted_sorted].
Qed.

(** What one block of the loop adds to the set of names. *)
Lemma addTypeName_In (typeName : option string) (typeNames : list string) (n : string) :
  In n (addTypeName typeName typeNames) <->
  In n typeNames \/
  (truthy typeName = true /\ n = extractBaseTypeName (orElse typeName "") /\
   mem n BUILTIN_TYPES = false).
Proof.
  unfold addTypeName. destruct (truthy typeName); [|intuition congruence].
  generalize (extractBaseTypeName (orElse typeName "")). intros b.
  destruct (mem b BUILTIN_TYPES) eqn:Eb.
  - intuition congruence.
  - destruct (mem b typeNames) eqn:Em.
    + apply mem_In in Em. intuition congruence.
    + rewrite in_app_iff. simpl. split.
      * intros [H|[<-|[]]]; auto.
      * intros [H|(_ & -> & _)]; auto.
Qed.

Lemma addTypeName_NoDup (typeName : option string) (typeNames : list string) :
  NoDup typeNames -> NoDup (addTypeName typeName typeNames).
Proof.
  intros H. unfold addTypeName. destruct (truthy typeName); [|exact H].
  set (b := extractBaseTypeName (orElse typeName "")).
  destruct (mem b BUILTIN_TYPES); [exact H|].
  destruct (mem b typeNames) eqn:Em; [exact H|].
  apply mem_false_In in Em.
  apply (Permutation_NoDup (l := b :: typeNames)).
  - apply Permutation_cons_append.
  - now constructor.
Qed.

Lemma referencedTypeNames_In (api : ParsedAPI) (n : string) :
  In n (referencedTypeNames api) <->
  (truthy (api_paramsTypeName api) = true /\
   n = extractBaseTypeName (orElse (api_paramsTypeName api) "")) \/
  (truthy (api_bodyTypeName api) = true /\
   n = extractBaseTypeName (orElse (api_bodyTypeName api) "")) \/
  (truthy (api_responseTypeName api) = true /\
   n = extractBaseTypeName (orElse (api_responseTypeName api) "")).
Proof.
  unfold referencedTypeNames. simpl.
  destruct (truthy (api_paramsTypeName api)), (truthy (api_bodyTypeName api)),
    (truthy (api_responseTypeName api)); simpl; intuition congruence.
Qed.

(** The set of names after the loop, started from any set. *)
Lemma collectTypeNames_from (apis : list ParsedAPI) (acc : list string) (n : string) :
  In n (fold_left
          (fun typeNames api =>
             addTypeName (api_responseTypeName api)
               (addTypeName (api_bodyTypeName api)
                  (addTypeName (api_paramsTypeName api) typeNames)))
          apis acc) <->
  In n acc \/
  ((exists api, In api apis /\ In n (referencedTypeNames api)) /\
   mem n BUILTIN_TYPES = false).
Proof.
  revert acc. induction apis as [|api apis IH]; intros acc; simpl.
  - split; [now left | intros [H|[[api [[] _]] _]]; exact H].
  - rewrite IH, !addTypeName_In. clear IH. split.
    + intros [[[[H|H]|H]|H]|H].
      * now left.
      * right. destruct H as (Ht & Hn & Hb). split; [|exact Hb].
        exists api. split; [now left|]. apply referencedTypeNames_In. auto.
      * right. destruct H as (Ht & Hn & Hb). split; [|exact Hb].
        exists api. split; [now left|]. apply referencedTypeNames_In. auto.
      * right. destruct H as (Ht & Hn & Hb). split; [|exact Hb].
        exists api. split; [now left|]. apply referencedTypeNames_In. auto.
      * right. destruct H as [[api' [Hin Hn]] Hb]. split; [|exact Hb].
        exists api'. split; [now right | exact Hn].
    + intros [H|[[api' [[<-|Hin] Hn]] Hb]].
      * left. left. left. now left.
      * left. apply referencedTypeNames_In in Hn.
        destruct Hn as [[Ht Hn]|[[Ht Hn]|[Ht Hn]]]; auto 10.
      * right. split; [|exact Hb]. now exists api'.
Qed.

Lemma collectTypeNames_NoDup_from (apis : list ParsedAPI) (acc : list string) :
  NoDup acc ->
  NoDup (fold_left
           (fun typeNames api =>
              addTypeName (api_responseTypeName api)
                (addTypeName (api_bodyTypeName api)
                   (addTypeName (api_paramsTypeName api) typeNames)))
           apis acc).
Proof.
  revert acc. induction apis as [|api apis IH]; intros acc H; simpl; [exact H|].
  apply IH. now repeat apply addTypeName_NoDup.
Qed.

End ImportFacts.

(* ----------------------------------------------------------------- *)
(** ** generators/apiGenerator: the layout of the function file *)

Section GeneratedFileFacts.

Lemma join_cons (sep x y : string) (l : list string) :
  join sep (x :: y :: l) = x ++ sep ++ join sep (y :: l).
Proof. reflexivity. Qed.

Lemma join_functions (apis : list ParsedAPI) (config : Config) (tail : string) :
  join nl (flat_map (fun api => [generateApiFunction api config; ""]) apis
           ++ [tail; ""])%list
  = generatedFunctions apis config ++ tail ++ nl.
Proof.
  induction apis as [|api apis IH]; [reflexivity|].
  change (flat_map (fun api => [generateApiFunction api config; ""]) (api :: apis)
          ++ [tail; ""])%list
    with (generateApiFunction api config :: "" ::
          (flat_map (fun api => [generateApiFunction api config; ""]) apis
           ++ [tail; ""]))%list.
  destruct (flat_map (fun api => [generateApiFunction api config; ""]) apis
            ++ [tail; ""])%list as [|y l] eqn:E.
  - destruct (flat_map _ apis); discriminate.
  - rewrite !join_cons, IH. simpl generatedFunctions.
    now rewrite !append_assoc.
Qed.

(** The function file: the preamble, the imports, an empty line, and the
    generated region between its two markers. *)
Lemma generateApiFile_layout
    (apis : list ParsedAPI) (typesImportPath : string) (config : Config) :
  generateApiFile apis typesImportPath config
  = filePreamble ++ generateImports apis typesImportPath config ++ nl ++ nl
    ++ AUTO_GEN_START ++ nl ++ nl
    ++ generatedFunctions apis config ++ AUTO_GEN_END ++ nl.
Proof.
  unfold generateApiFile.
  change (join nl (?a ++ ?b ++ ?c)%list) with (join nl (a ++ (b ++ c))%list).
  cbn [app].
  pose proof (join_functions apis config AUTO_GEN_END) as Hj.
  destruct (flat_map (fun api => [generateApiFunction api config; ""]) apis
            ++ [AUTO_GEN_END; ""])%list as [|y l] eqn:E.
  - destruct (flat_map _ apis); discriminate.
  - rewrite !join_cons, Hj. unfold filePreamble.
    rewrite !append_assoc. reflexivity.
Qed.

End GeneratedFileFacts.

(** C9 fails on the code: the names of the type-only import are not always
    names of types. [extractBaseTypeName] cuts off one array suffix and
    leaves every other type expression as it is, and the built-in names are
    only looked up as whole texts. For an operation whose unwrapped response
    is an object without declared properties the parser gives the response
    type [Record<string, unknown>], and for a table of orders it gives
    [Order[][]]; the function file then imports [Order[]] and
    [Record<string, unknown>] from the type file, which is no valid import
    and names the built-in [Record]. *)
Theorem C9_import_of_type_expressions :
  let meta :=
    fst (parseOperation "/api/meta" "get" (respondsWith "#/definitions/MetaEnvelope")
                        defaultConfig [] inlineDataDefinitions []) in
  let table :=
    fst (parseOperation "/api/table" "get" (respondsWith "#/definitions/TableEnvelope")
                        defaultConfig [] inlineDataDefinitions []) in
  api_responseTypeName meta = Some "Record<string, unknown>" /\
  api_responseTypeName table = Some "Order[][]" /\
  mem "Record" BUILTIN_TYPES = true /\
  sortStrings (collectTypeNames [meta; table]) = ["Order[]"; "Record<string, unknown>"] /\
  generateImports [meta; table] "./types" defaultConfig
  = "import { requestClient } from '@/utils/request'" ++ nl
    ++ "import type { Order[], Record<string, unknown> } from './types'".
Proof. repeat split; vm_compute; reflexivity. Qed.

(** X24: the import lines of [generateImports] are the import of the request
    client and then at most one type-only import; the names it imports are
    the [paramsTypeName], [bodyTypeName] and [responseTypeName] of the
    operations with one array suffix cut off, without those that are equal
    to a built-in name, each once, sorted by the order of the code units;
    there is no type-only import when no name is left. The function file
    carries this text in front of the generated region. *)
Theorem type_import_is_sorted_and_deduplicated
    (apis : list ParsedAPI) (typesImportPath : string) (config : Config) :
  let names := sortStrings (collectTypeNames apis) in
  SortedByName names /\ NoDup names /\
  (forall n : string,
      In n names <->
      (exists api, In api apis /\ In n (referencedTypeNames api)) /\
      mem n BUILTIN_TYPES = false) /\
  (forall name, extractBaseTypeName (name ++ "[]") = name) /\
  (forall typeName, endsWith typeName "[]" = false ->
                    extractBaseTypeName typeName = typeName) /\
  generateImports apis typesImportPath config
  = "import { " ++ requestClient config ++ " } from '" ++ requestImport config ++ "'"
    ++ match names with
       | [] => ""
       | _ :: _ =>
           nl ++ "import type { " ++ join ", " names ++ " } from '"
              ++ typesImportPath ++ "'"
       end /\
  generateApiFile apis typesImportPath config
  = filePreamble ++ generateImports apis typesImportPath config ++ nl ++ nl
    ++ AUTO_GEN_START ++ nl ++ nl
    ++ generatedFunctions apis config ++ AUTO_GEN_END ++ nl.
Proof.
  intros names. split; [apply sortStrings_sorted|]. split; [|split; [|split; [|split; [|split]]]].
  6: apply generateApiFile_layout.
  - apply (Permutation_NoDup (sortStrings_perm _)).
    apply collectTypeNames_NoDup_from. constructor.
  - intros n. unfold names.
    rewrite <- (Permutation_in' (eq_refl n) (sortStrings_perm (collectTypeNames apis))).
    unfold collectTypeNames. rewrite collectTypeNames_from. simpl. tauto.
  - intros name. unfold extractBaseTypeName. rewrite endsWith_app.
    rewrite length_append. change (String.length "[]") with 2.
    rewrite Nat.add_sub. apply take_app_length.
  - intros typeName H. unfold extractBaseTypeName. now rewrite H.
  - unfold generateImports, names.
    destruct (collectTypeNames apis) as [|x l] eqn:E.
    + reflexivity.
    + pose proof (sortStrings_perm (x :: l)) as Hp.
      destruct (sortStrings (x :: l)) as [|y l'] eqn:Es.
      * apply Permutation_sym, Permutation_nil in Hp. discriminate.
      * unfold join, String.concat. now rewrite !append_assoc.
Qed.

(* ----------------------------------------------------------------- *)
(** ** core/parser: unwrapping the response envelope *)

Section UnwrapFacts.




End UnwrapFacts.



(* ----------------------------------------------------------------- *)
(** ** core/parser: the drain of the reference work-list *)

Section DrainFacts.

Variable prefix : string.
Variable definitions : Record SchemaObject.
Variable usedRefs : list string.

Let universe : list string := refUniverse definitions usedRefs.
Let weight := pendingWeight prefix definitions.
Let measure := drainMeasure prefix definitions usedRefs.

Lemma pop_nil (l : list string) : pop l = None <-> l = [].
Proof.
  unfold pop. split.
  - destruct (rev l) eqn:E; [|discriminate]. intros _.
    rewrite <- (rev_involutive l), E. reflexivity.
  - intros ->. reflexivity.
Qed.

Lemma pop_snoc (l rest : list string) (x : string) :
  pop l = Some (rest, x) <-> l = (rest ++ [x])%list.
Proof.
  unfold pop. split.
  - destruct (rev l) as [|y r] eqn:E; [discriminate|]. intros [= <- <-].
    rewrite <- (rev_involutive l), E. reflexivity.
  - intros ->. rewrite rev_unit, rev_involutive. reflexivity.
Qed.

Lemma mem_snoc (x r : string) (l : list string) :
  mem x (l ++ [r])%list = mem x l || String.eqb x r.
Proof.
  induction l as [|y l IH]; simpl; [now rewrite orb_false_r|].
  now rewrite IH, orb_assoc.
Qed.

Lemma weight_mono (refs processed : list string) (r : string) :
  weight (processed ++ [r])%list refs <= weight processed refs.
Proof.
  unfold weight. induction refs as [|x refs IH]; simpl; [lia|].
  rewrite mem_snoc. destruct (mem x processed); simpl; [exact IH|].
  destruct (String.eqb x r); lia.
Qed.

Lemma weight_drop (refs processed : list string) (r : string) :
  In r refs -> mem r processed = false ->
  weight (processed ++ [r])%list refs + S (pushCount prefix definitions r)
  <= weight processed refs.
Proof.
  unfold weight. induction refs as [|x refs IH]; simpl; [tauto|].
  intros [->|Hin] Hm.
  - rewrite mem_snoc, Hm, String.eqb_refl. simpl.
    pose proof (weight_mono refs processed r) as Hw. unfold weight in Hw. lia.
  - specialize (IH Hin Hm). rewrite mem_snoc.
    destruct (mem x processed); simpl; [lia|].
    destruct (String.eqb x r); lia.
Qed.

Lemma lookup_In (T : Type) (key : string) (obj : Record T) (v : T) :
  lookup key obj = Some v -> In (key, v) obj.
Proof.
  induction obj as [|[k w] obj IH]; simpl; [discriminate|].
  destruct (String.eqb key k) eqn:E.
  - intros [= ->]. apply String.eqb_eq in E. subst. now left.
  - intros H. right. now apply IH.
Qed.

Lemma collected_in_universe (key : string) (schema : SchemaObject) (r : string) :
  lookup key definitions = Some schema -> In r (collectRefs schema) -> In r universe.
Proof.
  intros Hl Hr. unfold universe, refUniverse. apply in_or_app. right.
  apply in_flat_map. exists (key, schema). split; [now apply lookup_In | exact Hr].
Qed.

Local Abbreviation Invariant := (DrainInvariant prefix definitions usedRefs).

Lemma invariant_initial : Invariant (mkDrain usedRefs []).
Proof.
  constructor; simpl.
  - intros r H. unfold universe, refUniverse. apply in_or_app. now left.
  - constructor.
  - intros r [H|[]]. now constructor.
  - intros r H. now left.
  - intros r schema r' [].
Qed.

Lemma drainStep_none (st : DrainState) :
  drainStep prefix definitions st = None <-> refsToProcess st = [].
Proof.
  unfold drainStep. rewrite <- pop_nil.
  destruct (pop (refsToProcess st)) as [[rest ref]|]; [|tauto].
  split; [|discriminate].
  destruct (mem ref (processedRefs st)); [discriminate|].
  destruct (lookup _ definitions); discriminate.
Qed.

Lemma drainStep_invariant (st st' : DrainState) :
  Invariant st -> drainStep prefix definitions st = Some st' ->
  Invariant st' /\ measure st' < measure st.
Proof.
  intros [Hu Hn Hs Hused Hc]. unfold drainStep, measure, drainMeasure.
  fold universe.
  destruct (pop (refsToProcess st)) as [[rest ref]|] eqn:Ep; [|discriminate].
  apply pop_snoc in Ep. rewrite Ep in *. clear Ep.
  assert (Hsplit : forall r, In r (rest ++ [ref])%list <-> In r rest \/ r = ref).
  { intros r. rewrite in_app_iff. simpl. intuition congruence. }
  destruct (mem ref (processedRefs st)) eqn:Em.
  - (* a reference that was processed before is dropped *)
    intros [= <-]. simpl. split.
    + apply mem_In in Em. constructor; simpl.
      * intros r H. apply Hu, Hsplit. now left.
      * exact Hn.
      * intros r [H|H]; apply Hs; [left; apply Hsplit; now left | now right].
      * intros r H. destruct (Hused r H) as [H'|H']; [|now right].
        apply Hsplit in H' as [H'| ->]; [now left | now right].
      * intros r schema r' Hr Hl Hr'.
        destruct (Hc r schema r' Hr Hl Hr') as [H'|H']; [|now right].
        apply Hsplit in H' as [H'| ->]; [now left | now right].
    + rewrite length_app. simpl. lia.
  - (* a new reference is processed, and its schema is searched *)
    assert (Hnew : ~ In ref (processedRefs st)) by now apply mem_false_In.
    assert (Hrefu : In ref universe) by (apply Hu, Hsplit; now right).
    assert (Hreach : Reachable prefix definitions usedRefs ref)
      by (apply Hs; left; apply Hsplit; now right).
    pose proof (weight_drop universe (processedRefs st) ref Hrefu Em) as Hw.
    unfold weight in Hw.
    assert (Hnd : NoDup (processedRefs st ++ [ref])%list).
    { apply (Permutation_NoDup (l := ref :: processedRefs st)).
      - apply Permutation_cons_append.
      - now constructor. }
    unfold pushCount in Hw.
    destruct (lookup (stripPrefix prefix ref) definitions) as [schema|] eqn:El;
      intros [= <-]; simpl; (split; [constructor; simpl|]).
    + intros r H. apply in_app_iff in H as [H|H].
      * apply Hu, Hsplit. now left.
      * exact (collected_in_universe _ _ _ El H).
    + exact Hnd.
    + intros r [H|H].
      * apply in_app_iff in H as [H|H].
        -- apply Hs. left. apply Hsplit. now left.
        -- exact (Reachable_step _ _ _ ref r schema Hreach El H).
      * apply in_app_iff in H as [H|[<-|[]]]; [apply Hs; now right | exact Hreach].
    + intros r H. rewrite !in_app_iff. simpl.
      destruct (Hused r H) as [H'|H']; [|tauto].
      apply Hsplit in H' as [H'| ->]; tauto.
    + intros r schema' r' Hr Hl Hr'. rewrite !in_app_iff. simpl.
      apply in_app_iff in Hr as [Hr|[<-|[]]].
      * destruct (Hc r schema' r' Hr Hl Hr') as [H'|H']; [|tauto].
        apply Hsplit in H' as [H'| ->]; tauto.
      * rewrite El in Hl. injection Hl as <-. tauto.
    + rewrite !length_app in *. simpl in *. lia.
    + intros r H. apply Hu, Hsplit. now left.
    + exact Hnd.
    + intros r [H|H].
      * apply Hs. left. apply Hsplit. now left.
      * apply in_app_iff in H as [H|[<-|[]]]; [apply Hs; now right | exact Hreach].
    + intros r H. rewrite !in_app_iff. simpl.
      destruct (Hused r H) as [H'|H']; [|tauto].
      apply Hsplit in H' as [H'| ->]; tauto.
    + intros r schema' r' Hr Hl Hr'. rewrite !in_app_iff. simpl.
      apply in_app_iff in Hr as [Hr|[<-|[]]].
      * destruct (Hc r schema' r' Hr Hl Hr') as [H'|H']; [|tauto].
        apply Hsplit in H' as [H'| ->]; tauto.
      * congruence.
    + rewrite !length_app in *. simpl in *. lia.
Qed.

(** With more fuel than the measure, the loop ends, and more fuel changes
    nothing. *)
Lemma drainLoop_ends (fuel : nat) (st : DrainState) :
  Invariant st -> measure st < fuel ->
  let final := drainLoop prefix definitions fuel st in
  refsToProcess final = [] /\ Invariant final /\
  forall fuel', fuel <= fuel' -> drainLoop prefix definitions fuel' st = final.
Proof.
  revert st. induction fuel as [|fuel IH]; intros st Hinv Hm; [lia|].
  simpl. destruct (drainStep prefix definitions st) as [st'|] eqn:Es.
  - destruct (drainStep_invariant st st' Hinv Es) as [Hinv' Hlt].
    destruct (IH st' Hinv' ltac:(lia)) as (He & Hi & Hf).
    split; [exact He | split; [exact Hi|]].
    intros [|fuel'] Hle; [lia|]. simpl. rewrite Es. apply Hf. lia.
  - split; [now apply drainStep_none | split; [exact Hinv|]].
    intros [|fuel'] Hle; [lia|]. simpl. now rewrite Es.
Qed.

Lemma measure_initial :
  measure (mkDrain usedRefs []) < drainBound prefix definitions usedRefs.
Proof.
  unfold measure, drainBound. lia.
Qed.

(** At the end, the processed references are the reachable ones. *)
Lemma closed_reachable (st : DrainState) (r : string) :
  Invariant st -> refsToProcess st = [] ->
  Reachable prefix definitions usedRefs r -> In r (processedRefs st).
Proof.
  intros [Hu Hn Hs Hused Hc] Hempty. rewrite Hempty in *.
  induction 1 as [r Hr | r r' schema _ IH Hl Hr'].
  - destruct (Hused r Hr) as [[]|H]; exact H.
  - destruct (Hc r schema r' IH Hl Hr') as [[]|H]; exact H.
Qed.

End DrainFacts.

Section ParseTypesFacts.

Lemma allTypes_groupPush (key : string) (x : ParsedType) (m : Record (list ParsedType)) :
  Permutation (allTypes (groupPush key x m)) (allTypes m ++ [x])%list.
Proof.
  unfold allTypes. induction m as [|[k l] m IH]; simpl; [reflexivity|].
  destruct (String.eqb key k); simpl.
  - rewrite <- !app_assoc. apply Permutation_app_head. apply Permutation_app_comm.
  - rewrite <- app_assoc. now apply Permutation_app_head.
Qed.

(** The types of all modules are the contributions of the processed
    references, one for every reference that the table defines. *)
Lemma allTypes_parseTypes
    (prefix : string) (definitions : Record SchemaObject) (config : Config)
    (processed : list string) :
  Permutation (allTypes (parseTypes prefix definitions config processed))
              (flat_map (contribution prefix definitions config) processed).
Proof.
  unfold parseTypes.
  assert (H : forall acc,
    Permutation
      (allTypes
         (fold_left
            (fun types ref =>
               let refName := stripPrefix prefix ref in
               match lookup refName definitions with
               | None => types
               | Some schema =>
                   groupPush (getModuleFromTypeName refName)
                             (parseType refName schema config) types
               end) processed acc))
      (allTypes acc ++ flat_map (contribution prefix definitions config) processed)%list).
  { induction processed as [|ref processed IH]; intros acc; simpl.
    - now rewrite app_nil_r.
    - rewrite IH. unfold contribution at 2.
      destruct (lookup (stripPrefix prefix ref) definitions) as [schema|]; simpl.
      + rewrite allTypes_groupPush, <- app_assoc. reflexivity.
      + reflexivity. }
  exact (H []).
Qed.

End ParseTypesFacts.

(** C4: for every table of definitions and every set of used references,
    the drain loop ends within [drainBound] turns (more turns change
    nothing), also when schemas refer to themselves or to each other; every
    reference is processed at most once, the processed references are exactly
    the reachable ones, and each of them that the table defines contributes
    one parsed type to the modules. For two definitions that refer to each
    other, both are resolved, once each, into one entry each. *)
Theorem C4_reference_drain_terminates_and_is_complete
    (prefix : string) (definitions : Record SchemaObject) (usedRefs : list string)
    (config : Config) :
  let bound := drainBound prefix definitions usedRefs in
  let final := drainLoop prefix definitions bound (mkDrain usedRefs []) in
  drainStep prefix definitions final = None /\
  (forall fuel, bound <= fuel ->
                drainLoop prefix definitions fuel (mkDrain usedRefs []) = final) /\
  NoDup (drainRefs prefix definitions usedRefs) /\
  (forall ref, In ref (drainRefs prefix definitions usedRefs) <->
               Reachable prefix definitions usedRefs ref) /\
  Permutation
    (allTypes (parseTypes prefix definitions config
                          (drainRefs prefix definitions usedRefs)))
    (flat_map (contribution prefix definitions config)
              (drainRefs prefix definitions usedRefs)) /\
  drainRefs definitionsPrefix mutualDefinitions ["#/definitions/A"]
  = ["#/definitions/A"; "#/definitions/B"] /\
  parseTypes definitionsPrefix mutualDefinitions config
             (drainRefs definitionsPrefix mutualDefinitions ["#/definitions/A"])
  = [("common", [parseType "A" nodeA config; parseType "B" nodeB config])].
Proof.
  intros bound final.
  destruct (drainLoop_ends prefix definitions usedRefs bound (mkDrain usedRefs [])
              (invariant_initial prefix definitions usedRefs)
              (measure_initial prefix definitions usedRefs))
    as (Hend & Hinv & Hfuel).
  fold final in Hend, Hinv, Hfuel.
  split; [now apply drainStep_none|].
  split; [exact Hfuel|].
  unfold drainRefs. fold bound. fold final.
  split; [exact (inv_nodup _ _ _ _ Hinv)|].
  split; [|split; [apply allTypes_parseTypes|split; reflexivity]].
  intros ref. split.
  - intros H. apply (inv_sound _ _ _ _ Hinv). now right.
  - now apply closed_reachable.
Qed.

(* ----------------------------------------------------------------- *)
(** ** utils/naming: the function name of a path *)

Section ReplaceAllFacts.

Variable m : Matcher.

(** A match consumes at least one code unit. *)
Hypothesis shrinking :
  forall s rep rest, m s = Some (rep, rest) -> String.length rest < String.length s.

Lemma replaceAllFuel_enough (f1 f2 : nat) (s : string) :
  String.length s <= f1 -> String.length s <= f2 ->
  replaceAllFuel m f1 s = replaceAllFuel m f2 s.
Proof.
  revert f2 s. induction f1 as [|f1 IH]; intros f2 s H1 H2.
  - destruct s; [|simpl in H1; lia].
    destruct f2; simpl; [reflexivity|].
    destruct (m "") as [[rep rest]|] eqn:E; [|reflexivity].
    apply shrinking in E. simpl in E. lia.
  - destruct f2 as [|f2].
    + destruct s; [|simpl in H2; lia]. simpl.
      destruct (m "") as [[rep rest]|] eqn:E; [|reflexivity].
      apply shrinking in E. simpl in E. lia.
    + simpl. destruct (m s) as [[rep rest]|] eqn:E.
      * apply shrinking in E. f_equal. apply IH; lia.
      * destruct s as [|c s]; [reflexivity|]. simpl in *. f_equal. apply IH; lia.
Qed.

Lemma replaceAll_match (s rep rest : string) :
  m s = Some (rep, rest) -> replaceAll m s = rep ++ replaceAll m rest.
Proof.
  intros E. unfold replaceAll. pose proof (shrinking _ _ _ E) as Hl.
  destruct (String.length s) as [|n] eqn:En; [lia|].
  simpl. rewrite E. f_equal. apply replaceAllFuel_enough; lia.
Qed.

Lemma replaceAll_copy (c : ascii) (s : string) :
  m (String c s) = None -> replaceAll m (String c s) = String c (replaceAll m s).
Proof.
  intros E. unfold replaceAll. simpl. now rewrite E.
Qed.

Lemma replaceAll_empty : replaceAll m "" = "".
Proof. reflexivity. Qed.

(** A text none of whose code units can start a match is copied. *)
Lemma replaceAll_skip (ok : ascii -> bool) (a b : string) :
  (forall c t, ok c = true -> m (String c t) = None) ->
  TypeGenerator.allChars ok a = true ->
  replaceAll m (a ++ b) = a ++ replaceAll m b.
Proof.
  intros Hok. induction a as [|c a IH]; simpl; intros Ha; [reflexivity|].
  apply andb_true_iff in Ha as [Hc Ha].
  rewrite replaceAll_copy by now apply Hok. now rewrite IH.
Qed.

End ReplaceAllFacts.

Section FunctionNameFacts.

Lemma span_split (p : ascii -> bool) (s a b : string) :
  span p s = (a, b) -> s = a ++ b.
Proof.
  revert a b. induction s as [|c s IH]; simpl; intros a b.
  - intros [= <- <-]. reflexivity.
  - destruct (p c).
    + destruct (span p s) as [a' b'] eqn:E. intros [= <- <-].
      simpl. f_equal. now apply IH.
    + intros [= <- <-]. reflexivity.
Qed.

(** The run ends where the text ends or at a code unit that fails. *)
Lemma span_app (p : ascii -> bool) (a b : string) :
  TypeGenerator.allChars p a = true ->
  match b with "" => True | String c _ => p c = false end ->
  span p (a ++ b) = (a, b).
Proof.
  intros Ha Hb. induction a as [|c a IH]; simpl in *.
  - destruct b as [|c b]; [reflexivity|]. simpl. now rewrite Hb.
  - apply andb_true_iff in Ha as [Hc Ha]. rewrite Hc, (IH Ha). reflexivity.
Qed.

Lemma braceParam_shrinking (s rep rest : string) :
  braceParam s = Some (rep, rest) -> String.length rest < String.length s.
Proof.
  unfold braceParam. destruct s as [|c s]; [discriminate|].
  destruct (Ascii.eqb c "{"); [|discriminate].
  destruct (span _ s) as [a b] eqn:E. apply span_split in E. subst s.
  destruct a as [|p0 ps]; [discriminate|].
  destruct b as [|d b]; [discriminate|]. intros [= _ <-].
  simpl. rewrite length_append. simpl. lia.
Qed.

Lemma colonParam_shrinking (s rep rest : string) :
  colonParam s = Some (rep, rest) -> String.length rest < String.length s.
Proof.
  unfold colonParam. destruct s as [|c [|d s]]; try discriminate.
  destruct (Ascii.eqb c ":" && isIdentStart d); [|discriminate].
  destruct (span isIdentPart s) as [a b] eqn:E. apply span_split in E. subst s.
  intros [= _ <-]. simpl. rewrite length_append. lia.
Qed.

Lemma braceParam_other (c : ascii) (t : string) :
  negb (Ascii.eqb c "{") = true -> braceParam (String c t) = None.
Proof.
  unfold braceParam. now destruct (Ascii.eqb c "{").
Qed.

Lemma colonParam_other (c : ascii) (t : string) :
  negb (Ascii.eqb c ":") = true -> colonParam (String c t) = None.
Proof.
  unfold colonParam. destruct t; [reflexivity|]. now destruct (Ascii.eqb c ":").
Qed.

Lemma allChars_impl (p q : ascii -> bool) (s : string) :
  (forall c, p c = true -> q c = true) ->
  TypeGenerator.allChars p s = true -> TypeGenerator.allChars q s = true.
Proof.
  intros H. induction s as [|c s IH]; simpl; [reflexivity|].
  intros Hs. apply andb_true_iff in Hs as [Hc Hs]. now rewrite (H c Hc), IH.
Qed.

Lemma allChars_app (p : ascii -> bool) (a b : string) :
  TypeGenerator.allChars p (a ++ b)
  = TypeGenerator.allChars p a && TypeGenerator.allChars p b.
Proof.
  induction a as [|c a IH]; simpl; [reflexivity|]. now rewrite IH, andb_assoc.
Qed.

Lemma plainChar_upper (c : ascii) : plainChar (upperChar c) = plainChar c.
Proof. destruct c as [[] [] [] [] [] [] [] []]; reflexivity. Qed.

Lemma plainChar_lower (c : ascii) : plainChar (lowerChar c) = plainChar c.
Proof. destruct c as [[] [] [] [] [] [] [] []]; reflexivity. Qed.

Lemma identPart_plain (c : ascii) : isIdentPart c = true -> plainChar c = true.
Proof. destruct c as [[] [] [] [] [] [] [] []]; vm_compute; congruence. Qed.

Lemma identStart_part (c : ascii) : isIdentStart c = true -> isIdentPart c = true.
Proof. unfold isIdentPart. now intros ->. Qed.

Lemma replaceSeparators_plain (s : string) :
  TypeGenerator.allChars plainChar s = true ->
  TypeGenerator.allChars plainChar (replaceSeparators s) = true.
Proof.
  assert (H : forall n s, String.length s <= n ->
                          TypeGenerator.allChars plainChar s = true ->
                          TypeGenerator.allChars plainChar (replaceSeparators s) = true).
  { clear s. induction n as [|n IH]; intros [|c s] Hn Hs; simpl in *;
      try reflexivity; try lia.
    apply andb_true_iff in Hs as [Hc Hs].
    destruct (Ascii.eqb c "-" || Ascii.eqb c "_").
    - destruct s as [|d s]; simpl; [now rewrite Hc|].
      simpl in Hs, Hn. apply andb_true_iff in Hs as [Hd Hs'].
      destruct (isLineTerminator d); simpl.
      + rewrite Hc. simpl. apply (IH (String d s)); simpl; [lia|].
        now rewrite Hd, Hs'.
      + rewrite plainChar_upper, Hd. simpl. apply IH; [lia | exact Hs'].
    - simpl. rewrite Hc. simpl. apply IH; [lia | exact Hs]. }
  apply (H (String.length s)). lia.
Qed.

Lemma toPascalCase_plain (s : string) :
  TypeGenerator.allChars plainChar s = true ->
  TypeGenerator.allChars plainChar (toPascalCase s) = true.
Proof.
  intros H. apply replaceSeparators_plain in H.
  unfold toPascalCase, toCamelCase.
  destruct (replaceSeparators s) as [|c r]; simpl in *; [reflexivity|].
  now rewrite plainChar_upper, plainChar_lower.
Qed.

Lemma identifier_plain (name : string) :
  isIdentifier name = true -> TypeGenerator.allChars plainChar name = true.
Proof.
  destruct name as [|c r]; [discriminate|]. simpl.
  intros H. apply andb_true_iff in H as [Hc Hr].
  rewrite (identPart_plain c (identStart_part c Hc)). simpl.
  exact (allChars_impl _ _ r identPart_plain Hr).
Qed.

Let notBrace (c : ascii) : bool := negb (Ascii.eqb c "{").
Let notCloseBrace (c : ascii) : bool := negb (Ascii.eqb c "}").
Let notColon (c : ascii) : bool := negb (Ascii.eqb c ":").
Let notSlash (c : ascii) : bool := negb (Ascii.eqb c "/").

Lemma plain_notBrace (c : ascii) : plainChar c = true -> notBrace c = true.
Proof. destruct c as [[] [] [] [] [] [] [] []]; vm_compute; congruence. Qed.
Lemma plain_notCloseBrace (c : ascii) : plainChar c = true -> notCloseBrace c = true.
Proof. destruct c as [[] [] [] [] [] [] [] []]; vm_compute; congruence. Qed.
Lemma plain_notColon (c : ascii) : plainChar c = true -> notColon c = true.
Proof. destruct c as [[] [] [] [] [] [] [] []]; vm_compute; congruence. Qed.
Lemma plain_notSlash (c : ascii) : plainChar c = true -> notSlash c = true.
Proof. destruct c as [[] [] [] [] [] [] [] []]; vm_compute; congruence. Qed.

(** The first replacement turns the [{name}] parameters into tokens and
    leaves the rest of a well-formed path as it is. *)
Lemma brace_pass (segments : list Segment) :
  Forall WellFormedSegment segments ->
  replaceAll braceParam (renderPath segments) = renderWith afterBraces segments.
Proof.
  unfold renderPath. induction 1 as [|seg rest Hseg _ IH]; [reflexivity|].
  change (renderWith renderSegment (seg :: rest))
    with (String "/" (renderSegment seg ++ renderWith renderSegment rest)).
  rewrite (replaceAll_copy _ "/") by reflexivity.
  change (renderWith afterBraces (seg :: rest))
    with (String "/" (afterBraces seg ++ renderWith afterBraces rest)).
  f_equal. destruct seg as [text|name|name]; simpl in *.
  - destruct Hseg as [_ Hp].
    rewrite (replaceAll_skip braceParam notBrace)
      by (auto using braceParam_other || exact (allChars_impl _ _ _ plain_notBrace Hp)).
    now rewrite IH.
  - destruct Hseg as [Hne Hp].
    rewrite append_assoc.
    rewrite (replaceAll_match braceParam braceParam_shrinking _
               ("/By" ++ toPascalCase name) (renderWith renderSegment rest)).
    + rewrite IH. now rewrite append_assoc.
    + unfold braceParam. simpl.
      rewrite (span_app (fun d => negb (Ascii.eqb d "}")) name
                 (String "}" (renderWith renderSegment rest))
                 (allChars_impl _ _ _ plain_notCloseBrace Hp) eq_refl).
      destruct name as [|p0 ps]; [congruence | reflexivity].
  - assert (Hp : TypeGenerator.allChars notBrace (String ":" name) = true).
    { simpl. apply (allChars_impl _ _ _ plain_notBrace). now apply identifier_plain. }
    change (String ":" (name ++ renderWith renderSegment rest))
      with (String ":" name ++ renderWith renderSegment rest).
    rewrite (replaceAll_skip braceParam notBrace)
      by (auto using braceParam_other || exact Hp).
    now rewrite IH.
Qed.

Lemma renderWith_starts (f : Segment -> string) (segments : list Segment) :
  match renderWith f segments with
  | "" => True
  | String c _ => isIdentPart c = false
  end.
Proof. destruct segments; simpl; [exact I | reflexivity]. Qed.

(** The second replacement turns the [:name] parameters into tokens. *)
Lemma colon_pass (segments : list Segment) :
  Forall WellFormedSegment segments ->
  replaceAll colonParam (renderWith afterBraces segments)
  = renderWith afterColons segments.
Proof.
  induction 1 as [|seg rest Hseg _ IH]; [reflexivity|].
  change (renderWith afterBraces (seg :: rest))
    with (String "/" (afterBraces seg ++ renderWith afterBraces rest)).
  rewrite (replaceAll_copy _ "/") by (apply colonParam_other; reflexivity).
  change (renderWith afterColons (seg :: rest))
    with (String "/" (afterColons seg ++ renderWith afterColons rest)).
  f_equal. destruct seg as [text|name|name]; simpl afterBraces; simpl afterColons;
    simpl in Hseg.
  - destruct Hseg as [_ Hp].
    rewrite (replaceAll_skip colonParam notColon)
      by (auto using colonParam_other || exact (allChars_impl _ _ _ plain_notColon Hp)).
    now rewrite IH.
  - destruct Hseg as [_ Hp].
    assert (Hq : TypeGenerator.allChars notColon ("/By" ++ toPascalCase name) = true).
    { simpl. apply (allChars_impl _ _ _ plain_notColon). now apply toPascalCase_plain. }
    rewrite (replaceAll_skip colonParam notColon)
      by (auto using colonParam_other || exact Hq).
    now rewrite IH.
  - destruct name as [|d tl]; [discriminate|].
    simpl in Hseg. apply andb_true_iff in Hseg as [Hd Htl].
    rewrite (replaceAll_match colonParam colonParam_shrinking _
               ("/By" ++ toPascalCase (String d tl)) (renderWith afterBraces rest)).
    + now rewrite IH.
    + unfold colonParam. simpl. rewrite Hd. simpl.
      rewrite (span_app isIdentPart tl (renderWith afterBraces rest) Htl
                 (renderWith_starts afterBraces rest)).
      reflexivity.
Qed.

Lemma split_nonempty (c : ascii) (s : string) : split c s <> [].
Proof.
  destruct s as [|a s]; simpl; [discriminate|].
  destruct (Ascii.eqb a c); [discriminate|].
  destruct (split c s); discriminate.
Qed.

(** A word without slash joins the first part of what follows it. *)
Lemma split_word (w rest : string) :
  TypeGenerator.allChars notSlash w = true ->
  split "/" (w ++ rest)
  = match split "/" rest with
    | h :: t => (w ++ h) :: t
    | [] => [w]
    end.
Proof.
  induction w as [|c w IH]; simpl; intros Hw.
  - pose proof (split_nonempty "/" rest).
    destruct (split "/" rest); [contradiction | reflexivity].
  - apply andb_true_iff in Hw as [Hc Hw]. unfold notSlash in Hc.
    apply negb_true_iff in Hc. rewrite Hc, (IH Hw).
    pose proof (split_nonempty "/" rest).
    destruct (split "/" rest); [contradiction | reflexivity].
Qed.

Lemma split_render (f : Segment -> string) (segments : list Segment) :
  exists parts, split "/" (renderWith f segments) = "" :: parts /\
                match segments with
                | [] => parts = []
                | seg :: rest => parts = split "/" (f seg ++ renderWith f rest)
                end.
Proof.
  destruct segments as [|seg rest]; simpl; eexists; split; reflexivity.
Qed.

(** The parts of the processed path that are not empty are the parts of the
    segments. *)
Lemma processed_parts (segments : list Segment) :
  Forall WellFormedSegment segments ->
  filter nonEmpty (split "/" (renderWith afterColons segments))
  = map segmentPart segments.
Proof.
  induction 1 as [|seg rest Hseg Hrest IH]; [reflexivity|].
  assert (Hword : forall w,
             w <> "" -> TypeGenerator.allChars notSlash w = true ->
             filter nonEmpty (split "/" (w ++ renderWith afterColons rest))
             = w :: map segmentPart rest).
  { intros w Hne Hw. rewrite (split_word _ _ Hw).
    destruct (split_render afterColons rest) as (parts & Hs & _).
    rewrite Hs in *. simpl in IH. rewrite append_nil_r. simpl.
    destruct w; [congruence|]. simpl. now rewrite IH. }
  destruct seg as [text|name|name]; simpl in Hseg.
  - destruct Hseg as [Hne Hp]. simpl.
    apply Hword; [exact Hne | exact (allChars_impl _ _ _ plain_notSlash Hp)].
  - destruct Hseg as [_ Hp].
    change (renderWith afterColons (BraceParam name :: rest))
      with (String "/" (String "/" (("By" ++ toPascalCase name)
                                    ++ renderWith afterColons rest))).
    cbn [split Ascii.eqb Bool.eqb filter nonEmpty String.eqb negb].
    apply Hword; [discriminate|]. simpl.
    apply (allChars_impl _ _ _ plain_notSlash). now apply toPascalCase_plain.
  - apply identifier_plain in Hseg.
    change (renderWith afterColons (ColonParam name :: rest))
      with (String "/" (String "/" (("By" ++ toPascalCase name)
                                    ++ renderWith afterColons rest))).
    cbn [split Ascii.eqb Bool.eqb filter nonEmpty String.eqb negb].
    apply Hword; [discriminate|]. simpl.
    apply (allChars_impl _ _ _ plain_notSlash). now apply toPascalCase_plain.
Qed.

Lemma wellFormed_pathSegment (seg : Segment) : WellFormedSegment seg -> PathSegment seg.
Proof. destruct seg; simpl; tauto. Qed.

(** The two replacements and the parts of the processed path, for the
    segments whose literal words may be empty. *)
Lemma brace_pass_general (segments : list Segment) :
  Forall PathSegment segments ->
  replaceAll braceParam (renderPath segments) = renderWith afterBraces segments.
Proof.
  unfold renderPath. induction 1 as [|seg rest Hseg _ IH]; [reflexivity|].
  change (renderWith renderSegment (seg :: rest))
    with (String "/" (renderSegment seg ++ renderWith renderSegment rest)).
  rewrite (replaceAll_copy _ "/") by reflexivity.
  change (renderWith afterBraces (seg :: rest))
    with (String "/" (afterBraces seg ++ renderWith afterBraces rest)).
  f_equal. destruct seg as [text|name|name]; simpl in *.
  - rewrite (replaceAll_skip braceParam notBrace)
      by (auto using braceParam_other || exact (allChars_impl _ _ _ plain_notBrace Hseg)).
    now rewrite IH.
  - destruct Hseg as [Hne Hp].
    rewrite append_assoc.
    rewrite (replaceAll_match braceParam braceParam_shrinking _
               ("/By" ++ toPascalCase name) (renderWith renderSegment rest)).
    + rewrite IH. now rewrite append_assoc.
    + unfold braceParam. simpl.
      rewrite (span_app (fun d => negb (Ascii.eqb d "}")) name
                 (String "}" (renderWith renderSegment rest))
                 (allChars_impl _ _ _ plain_notCloseBrace Hp) eq_refl).
      destruct name as [|p0 ps]; [congruence | reflexivity].
  - assert (Hp : TypeGenerator.allChars notBrace (String ":" name) = true).
    { simpl. apply (allChars_impl _ _ _ plain_notBrace). now apply identifier_plain. }
    change (String ":" (name ++ renderWith renderSegment rest))
      with (String ":" name ++ renderWith renderSegment rest).
    rewrite (replaceAll_skip braceParam notBrace)
      by (auto using braceParam_other || exact Hp).
    now rewrite IH.
Qed.

Lemma colon_pass_general (segments : list Segment) :
  Forall PathSegment segments ->
  replaceAll colonParam (renderWith afterBraces segments)
  = renderWith afterColons segments.
Proof.
  induction 1 as [|seg rest Hseg _ IH]; [reflexivity|].
  change (renderWith afterBraces (seg :: rest))
    with (String "/" (afterBraces seg ++ renderWith afterBraces rest)).
  rewrite (replaceAll_copy _ "/") by (apply colonParam_other; reflexivity).
  change (renderWith afterColons (seg :: rest))
    with (String "/" (afterColons seg ++ renderWith afterColons rest)).
  f_equal. destruct seg as [text|name|name]; simpl afterBraces; simpl afterColons;
    simpl in Hseg.
  - rewrite (replaceAll_skip colonParam notColon)
      by (auto using colonParam_other || exact (allChars_impl _ _ _ plain_notColon Hseg)).
    now rewrite IH.
  - destruct Hseg as [_ Hp].
    assert (Hq : TypeGenerator.allChars notColon ("/By" ++ toPascalCase name) = true).
    { simpl. apply (allChars_impl _ _ _ plain_notColon). now apply toPascalCase_plain. }
    rewrite (replaceAll_skip colonParam notColon)
      by (auto using colonParam_other || exact Hq).
    now rewrite IH.
  - destruct name as [|d tl]; [discriminate|].
    simpl in Hseg. apply andb_true_iff in Hseg as [Hd Htl].
    rewrite (replaceAll_match colonParam colonParam_shrinking _
               ("/By" ++ toPascalCase (String d tl)) (renderWith afterBraces rest)).
    + now rewrite IH.
    + unfold colonParam. simpl. rewrite Hd. simpl.
      rewrite (span_app isIdentPart tl (renderWith afterBraces rest) Htl
                 (renderWith_starts afterBraces rest)).
      reflexivity.
Qed.

Lemma processed_parts_general (segments : list Segment) :
  Forall PathSegment segments ->
  filter nonEmpty (split "/" (renderWith afterColons segments))
  = filter nonEmpty (map segmentPart segments).
Proof.
  induction 1 as [|seg rest Hseg Hrest IH]; [reflexivity|].
  assert (Hword : forall w,
             TypeGenerator.allChars notSlash w = true ->
             filter nonEmpty (split "/" (w ++ renderWith afterColons rest))
             = filter nonEmpty (w :: map segmentPart rest)).
  { intros w Hw. rewrite (split_word _ _ Hw).
    destruct (split_render afterColons rest) as (parts & Hs & _).
    rewrite Hs in *. simpl in IH. rewrite append_nil_r.
    cbn [filter]. now rewrite IH. }
  destruct seg as [text|name|name]; simpl in Hseg.
  - change (renderWith afterColons (Literal text :: rest))
      with (String "/" (text ++ renderWith afterColons rest)).
    cbn [split Ascii.eqb Bool.eqb filter nonEmpty String.eqb negb].
    apply Hword. exact (allChars_impl _ _ _ plain_notSlash Hseg).
  - destruct Hseg as [_ Hp].
    change (renderWith afterColons (BraceParam name :: rest))
      with (String "/" (String "/" (("By" ++ toPascalCase name)
                                    ++ renderWith afterColons rest))).
    cbn [split Ascii.eqb Bool.eqb filter nonEmpty String.eqb negb].
    apply Hword. simpl.
    apply (allChars_impl _ _ _ plain_notSlash). now apply toPascalCase_plain.
  - apply identifier_plain in Hseg.
    change (renderWith afterColons (ColonParam name :: rest))
      with (String "/" (String "/" (("By" ++ toPascalCase name)
                                    ++ renderWith afterColons rest))).
    cbn [split Ascii.eqb Bool.eqb filter nonEmpty String.eqb negb].
    apply Hword. simpl.
    apply (allChars_impl _ _ _ plain_notSlash). now apply toPascalCase_plain.
Qed.

(** Empty parts add nothing to the name. *)
Lemma join_pascal_parts (parts : list string) :
  join "" (map toPascalCase (filter nonEmpty parts)) = join "" (map toPascalCase parts).
Proof.
  assert (Hcons : forall x l, join "" (x :: l) = x ++ join "" l).
  { intros x [|y l]; simpl; [now rewrite append_nil_r | reflexivity]. }
  induction parts as [|part parts IH]; [reflexivity|].
  cbn [filter map]. destruct part as [|c part].
  - cbn [nonEmpty String.eqb negb]. rewrite IH.
    change (toPascalCase "") with "". now rewrite Hcons.
  - cbn [nonEmpty String.eqb negb map]. now rewrite !Hcons, IH.
Qed.

Lemma replaceSeparators_alnum (s : string) :
  TypeGenerator.allChars isAlphaNum s = true -> replaceSeparators s = s.
Proof.
  induction s as [|c s IH]; simpl; [reflexivity|].
  intros H. apply andb_true_iff in H as [Hc Hs].
  assert (Hsep : Ascii.eqb c "-" || Ascii.eqb c "_" = false).
  { revert Hc. destruct c as [[] [] [] [] [] [] [] []]; vm_compute; congruence. }
  rewrite Hsep. now rewrite IH.
Qed.

Lemma alnum_upper (c : ascii) : isAlphaNum (upperChar c) = isAlphaNum c.
Proof. destruct c as [[] [] [] [] [] [] [] []]; reflexivity. Qed.

Lemma alnum_lower (c : ascii) : isAlphaNum (lowerChar c) = isAlphaNum c.
Proof. destruct c as [[] [] [] [] [] [] [] []]; reflexivity. Qed.

(** The token of a parameter whose name is made of letters and digits. *)
Lemma token_alnum (name : string) :
  TypeGenerator.allChars isAlphaNum name = true ->
  toPascalCase ("By" ++ toPascalCase name) = "By" ++ toPascalCase name.
Proof.
  intros H.
  assert (Hp : TypeGenerator.allChars isAlphaNum (toPascalCase name) = true).
  { unfold toPascalCase, toCamelCase. rewrite (replaceSeparators_alnum _ H).
    destruct name as [|c r]; simpl in *; [reflexivity|].
    now rewrite alnum_upper, alnum_lower. }
  unfold toPascalCase at 1. unfold toCamelCase.
  rewrite replaceSeparators_alnum; [reflexivity|]. simpl. exact Hp.
Qed.

End FunctionNameFacts.

(** C8, as first stated, fails: the code replaces the two patterns wherever
    they stand in the path, not segment by segment. In "/jobs/{id}:cancel"
    the second part is neither a [{param}] nor a [:param] segment, yet both
    patterns inside it are replaced, and each replacement starts a part of
    its own. *)
Lemma C8_pattern_inside_segment_counterexample :
  generateFunctionName "get" "/jobs/{id}:cancel" = "getJobsByIdByCancel" /\
  segmentsOf "/jobs/{id}:cancel" = [Literal "jobs"; Literal "{id}:cancel"] /\
  claimedFunctionName "get" "/jobs/{id}:cancel" = "getJobs{id}:cancel" /\
  generateFunctionName "get" "/jobs/{id}:cancel"
  <> claimedFunctionName "get" "/jobs/{id}:cancel".
Proof. repeat split; vm_compute; congruence. Qed.

(** C8 (amended): for a path made of segments, each behind a slash, where a
    segment is a literal word without slash, brace or colon (it may be
    empty), a parameter [{param}] with such a name that is not empty, or a
    parameter [:param] whose name is an identifier, [generateFunctionName]
    puts the verb in lower case in front of the segments, each literal
    segment in Pascal case and each parameter segment as the token
    [By<PascalParam>], all joined without separator; for a parameter name
    of letters and digits the token is [By] followed by the name in Pascal
    case; and GET with "/orders/{id}/items/{itemId}" gives
    "getOrdersByIdItemsByItemId". *)
Theorem C8_generateFunctionName_tokens
    (method : string) (segments : list Segment)
    (Hsegments : Forall PathSegment segments) :
  generateFunctionName method (renderPath segments)
  = toLowerCase method ++ join "" (map segmentToken segments) /\
  (forall name : string,
      TypeGenerator.allChars isAlphaNum name = true ->
      segmentToken (BraceParam name) = "By" ++ toPascalCase name /\
      segmentToken (ColonParam name) = "By" ++ toPascalCase name) /\
  generateFunctionName "GET" "/orders/{id}/items/{itemId}"
  = "getOrdersByIdItemsByItemId".
Proof.
  split; [|split; [|reflexivity]].
  2:{ intros name Hname. split; exact (token_alnum name Hname). }
  unfold generateFunctionName.
  rewrite (brace_pass_general segments Hsegments), (colon_pass_general segments Hsegments).
  rewrite (processed_parts_general segments Hsegments), join_pascal_parts, map_map.
  f_equal. f_equal. apply map_ext. now intros [text|name|name].
Qed.

(** The instance of C8 for the path of the specification, one with an
    Express-style parameter, and one with a slash at the end. *)
Lemma C8_witness :
  generateFunctionName "GET"
    (renderPath [Literal "orders"; BraceParam "id"; Literal "items"; BraceParam "itemId"])
  = "getOrdersByIdItemsByItemId" /\
  generateFunctionName "DELETE"
    (renderPath [Literal "pos-devices"; ColonParam "device_id"])
  = "deletePosDevicesByDeviceId" /\
  generateFunctionName "get" (renderPath [Literal "orders"; Literal ""]) = "getOrders".
Proof.
  split; [|split].
  - refine (proj1 (C8_generateFunctionName_tokens "GET"
              [Literal "orders"; BraceParam "id"; Literal "items"; BraceParam "itemId"] _)).
    repeat (constructor; try discriminate).
  - refine (proj1 (C8_generateFunctionName_tokens "DELETE"
              [Literal "pos-devices"; ColonParam "device_id"] _)).
    repeat (constructor; try discriminate).
  - refine (proj1 (C8_generateFunctionName_tokens "get"
              [Literal "orders"; Literal ""] _)).
    repeat (constructor; try discriminate).
Defined.

(* ----------------------------------------------------------------- *)
(** ** The markers in a generated function file *)

Section MarkerFacts.

(** In a text [head ++ lines ++ nl ++ nl ++ start ++ body], the pattern
    [stop] is not found wholly before the pattern [start] when it cannot
    start in [head], does not occur in [lines] and does not end with a line
    feed. *)
Lemma found_in_order (head lines start stop body : string) (i j : nat) :
  noStart stop head = true ->
  indexOf stop lines = None ->
  endsWith stop nl = false ->
  indexOf start (head ++ lines ++ nl ++ nl ++ start ++ body) = Some i ->
  indexOf stop (head ++ lines ++ nl ++ nl ++ start ++ body) = Some j ->
  i <= j + String.length stop.
Proof.
  intros Hhead Hlines Hend Hi Hj.
  assert (Hnone : indexOf stop (lines ++ nl) = None)
    by (apply indexOf_none_snoc; assumption).
  (* the start pattern is found at or before its place *)
  assert (Hstart : i <= String.length head + String.length lines + 2).
  { destruct (indexOf_before start (head ++ lines ++ nl ++ nl) body)
      as (i' & Hi' & Hle).
    rewrite !append_assoc in Hi'. rewrite Hi in Hi'. injection Hi' as <-.
    rewrite !length_append in Hle. simpl in Hle. lia. }
  (* the stop pattern is not found before the end of the lines *)
  rewrite (indexOf_skip stop head _ Hhead) in Hj.
  destruct (indexOf stop (lines ++ nl ++ nl ++ start ++ body)) as [j'|] eqn:Ej;
    [|discriminate].
  simpl in Hj. injection Hj as <-.
  rewrite <- append_assoc in Ej.
  pose proof (indexOf_beyond _ _ _ _ Hnone Ej) as Hb.
  rewrite length_append in Hb. simpl in Hb. lia.
Qed.

(** When the import lines do not hold the text of the end marker, the
    generated file has no end marker in front of its start marker. *)
Lemma generated_markers_in_order
    (apis : list ParsedAPI) (typesImportPath : string) (config : Config) :
  includes (generateImports apis typesImportPath config) AUTO_GEN_END = false ->
  ~ EndBeforeStart (generateApiFile apis typesImportPath config).
Proof.
  intros Himports (i & j & Hi & Hj & Hlt).
  rewrite generateApiFile_layout in Hi, Hj.
  assert (Hle : i <= j + String.length AUTO_GEN_END); [|lia].
  apply (found_in_order filePreamble (generateImports apis typesImportPath config)
           AUTO_GEN_START AUTO_GEN_END
           (nl ++ nl ++ generatedFunctions apis config ++ AUTO_GEN_END ++ nl));
    try assumption.
  - vm_compute. reflexivity.
  - unfold includes in Himports.
    destruct (indexOf AUTO_GEN_END _); [discriminate | reflexivity].
  - vm_compute. reflexivity.
Qed.

End MarkerFacts.

(** C6 fails on the code: a second run over the unchanged output of a first
    run can change the function file. [mergeWithExisting] takes the first
    occurrence of each marker and does not compare their places. With the
    text of the end marker in the client import path, the freshly generated
    text has an end marker in front of its start marker, and merging the
    text with itself repeats what stands between the two: 428 code units
    become 467. With the default configuration and a prior file whose
    hand-written note names the end marker, every run puts the generated
    region in front of a copy of the whole prior file: 179 code units become
    358, then 537, then 716. *)
Theorem C6_second_run_changes_the_file :
  (let t := generateApiFile [getUser] "./types" markerInImportConfig in
   String.length t = 428 /\
   String.length (mergeWithExisting t t) = 467 /\
   mergeWithExisting t t <> t) /\
  (let run := Update.updateModule [] [getUser] markerInImportConfig in
   let firstRun := run (Update.mkModuleFiles None None) in
   run firstRun <> firstRun) /\
  (let run := Update.updateModule [] [getUser] defaultConfig in
   let prior := Update.mkModuleFiles None (Some notedFile) in
   includes (generateImports [getUser] "./types" defaultConfig) AUTO_GEN_END = false /\
   String.length notedFile = 179 /\
   option_map String.length (Update.indexFile (run prior)) = Some 358 /\
   option_map String.length (Update.indexFile (run (run prior))) = Some 537 /\
   option_map String.length (Update.indexFile (run (run (run prior)))) = Some 716 /\
   run (run prior) <> run prior).
Proof.
  split; [|split].
  - intros t. split; [vm_compute; reflexivity|]. split; [vm_compute; reflexivity|].
    intros H. apply (f_equal String.length) in H. vm_compute in H. discriminate H.
  - intros run firstRun H.
    apply (f_equal (fun files => option_map String.length (Update.indexFile files))) in H.
    vm_compute in H. discriminate H.
  - intros run prior. repeat (split; [vm_compute; reflexivity|]).
    intros H.
    apply (f_equal (fun files => option_map String.length (Update.indexFile files))) in H.
    vm_compute in H. discriminate H.
Qed.

(* ----------------------------------------------------------------- *)
(** ** commands/update: the types collected for a module *)

Section FoldFacts.

Variables (S X : Type).

(** Two loops that agree on the states of an invariant give one result. *)
Lemma fold_left_agree (I : S -> Prop) (F G : S -> X -> S) (l : list X) (s : S) :
  I s ->
  (forall s x, In x l -> I s -> F s x = G s x /\ I (F s x)) ->
  fold_left F l s = fold_left G l s /\ I (fold_left F l s).
Proof.
  revert s. induction l as [|x l IH]; intros s Hs Hstep; simpl; [auto|].
  destruct (Hstep s x (or_introl eq_refl) Hs) as [He Hi].
  rewrite <- He. apply IH; [exact Hi|].
  intros s' x' Hin. apply Hstep. now right.
Qed.

Lemma fold_left_invariant (I : S -> Prop) (F : S -> X -> S) (l : list X) (s : S) :
  I s -> (forall s x, In x l -> I s -> I (F s x)) -> I (fold_left F l s).
Proof.
  intros Hs Hstep.
  apply (fold_left_agree I F F l s Hs). intros s' x Hin Hi. split; auto.
Qed.

End FoldFacts.

Section CollectFacts.

Variable allTypes : Record (list ParsedType).
Variable config : Config.

Let names : list string := map type_name (Update.typesInOrder allTypes).

(** The names of the types that are not processed yet, counted as often as
    they occur. *)
Let pending (processed : list string) : nat :=
  List.length (filter (fun n => negb (mem n processed)) names).

(** The set of processed names only grows. *)
Let Grows (processed : list string) (st : Update.CollectState) : Prop :=
  forall n, In n processed -> In n (Update.processedNames st).

Lemma filter_length_mono (f g : string -> bool) (l : list string) :
  (forall x, g x = true -> f x = true) ->
  List.length (filter g l) <= List.length (filter f l).
Proof.
  intros H. induction l as [|x l IH]; simpl; [lia|].
  destruct (g x) eqn:Eg.
  - rewrite (H x Eg). simpl. lia.
  - destruct (f x); simpl; lia.
Qed.

Lemma pending_grows (processed : list string) (st : Update.CollectState) :
  Grows processed st -> pending (Update.processedNames st) <= pending processed.
Proof.
  intros H. unfold pending. apply filter_length_mono.
  intros x Hx. apply negb_true_iff in Hx. apply negb_true_iff.
  apply mem_false_In. apply mem_false_In in Hx. intros Hin. apply Hx. now apply H.
Qed.

Lemma filter_length_lt (f g : string -> bool) (l : list string) (n : string) :
  (forall x, g x = true -> f x = true) ->
  In n l -> f n = true -> g n = false ->
  List.length (filter g l) < List.length (filter f l).
Proof.
  intros H. induction l as [|x l IH]; simpl; [tauto|].
  intros [->|Hin] Hf Hg.
  - rewrite Hf, Hg. simpl.
    pose proof (filter_length_mono f g l H). lia.
  - specialize (IH Hin Hf Hg).
    destruct (g x) eqn:Eg.
    + rewrite (H x Eg). simpl. lia.
    + destruct (f x); simpl; lia.
Qed.

Lemma pending_addType (t : ParsedType) (st : Update.CollectState) :
  In t (Update.typesInOrder allTypes) ->
  mem (type_name t) (Update.processedNames st) = false ->
  pending (Update.processedNames (Update.addType t st))
  < pending (Update.processedNames st).
Proof.
  intros Hin Hm. unfold pending, Update.addType. simpl.
  apply (filter_length_lt _ _ names (type_name t)).
  - intros x Hx. apply negb_true_iff in Hx. apply negb_true_iff.
    rewrite mem_snoc in Hx. now apply orb_false_iff in Hx.
  - unfold names. now apply in_map.
  - now rewrite Hm.
  - rewrite mem_snoc, String.eqb_refl, orb_true_r. reflexivity.
Qed.

Lemma grows_addType (t : ParsedType) (st : Update.CollectState) :
  Grows (Update.processedNames st) (Update.addType t st).
Proof.
  intros n Hn. unfold Update.addType. simpl. apply in_or_app. now left.
Qed.

Lemma collectDependentTypes_grows
    (fuel : nat) (type : ParsedType) (st : Update.CollectState) :
  Grows (Update.processedNames st)
        (Update.collectDependentTypes fuel allTypes config type st).
Proof.
  revert type st. induction fuel as [|fuel IH]; intros type st; simpl.
  - intros n Hn. exact Hn.
  - apply (fold_left_invariant _ _ (Grows (Update.processedNames st))).
    + intros n Hn. exact Hn.
    + intros s refName _ Hs.
      destruct (mem refName (Update.processedNames s)); [exact Hs|].
      apply (fold_left_invariant _ _ (Grows (Update.processedNames st))); [exact Hs|].
      intros s' t _ Hs'.
      destruct (String.eqb (type_name t) refName
                && negb (mem (type_name t) (Update.processedNames s'))); [|exact Hs'].
      intros n Hn. apply IH. apply grows_addType. now apply Hs'.
Qed.

(** Fuel beyond the number of pending names does not change the result. *)
Lemma collectDependentTypes_fuel
    (fuel fuel' : nat) (type : ParsedType) (st : Update.CollectState) :
  pending (Update.processedNames st) < fuel ->
  pending (Update.processedNames st) < fuel' ->
  Update.collectDependentTypes fuel allTypes config type st
  = Update.collectDependentTypes fuel' allTypes config type st.
Proof.
  revert fuel' type st. induction fuel as [|fuel IH]; intros fuel' type st H H'; [lia|].
  destruct fuel' as [|fuel']; [lia|]. simpl.
  set (bounded := fun s : Update.CollectState =>
         pending (Update.processedNames s) <= pending (Update.processedNames st)).
  apply (fold_left_agree _ _ bounded); [unfold bounded; lia|].
  intros s refName _ Hs.
  destruct (mem refName (Update.processedNames s)); [auto|].
  apply (fold_left_agree _ _ bounded); [exact Hs|].
  intros s' t Hin Hs'.
  destruct (String.eqb (type_name t) refName) eqn:En; simpl; [|auto].
  destruct (mem (type_name t) (Update.processedNames s')) eqn:Em; simpl; [auto|].
  pose proof (pending_addType t s' Hin Em) as Hlt.
  unfold bounded in *. split.
  - apply IH; lia.
  - pose proof (pending_grows _ _
                  (collectDependentTypes_grows fuel t (Update.addType t s'))). lia.
Qed.

(** The set of processed names holds the names of the result, each once. *)
Let Consistent (st : Update.CollectState) : Prop :=
  Update.processedNames st = map type_name (Update.result st) /\
  NoDup (Update.processedNames st).

Lemma consistent_addType (t : ParsedType) (st : Update.CollectState) :
  Consistent st -> mem (type_name t) (Update.processedNames st) = false ->
  Consistent (Update.addType t st).
Proof.
  intros [He Hn] Hm. unfold Update.addType. split; simpl.
  - now rewrite map_app, He.
  - apply (Permutation_NoDup (l := type_name t :: Update.processedNames st)).
    + apply Permutation_cons_append.
    + constructor; [now apply mem_false_In | exact Hn].
Qed.

Lemma collectDependentTypes_consistent
    (fuel : nat) (type : ParsedType) (st : Update.CollectState) :
  Consistent st ->
  Consistent (Update.collectDependentTypes fuel allTypes config type st).
Proof.
  revert type st. induction fuel as [|fuel IH]; intros type st Hst; simpl; [exact Hst|].
  apply (fold_left_invariant _ _ Consistent); [exact Hst|].
  intros s refName _ Hs.
  destruct (mem refName (Update.processedNames s)); [exact Hs|].
  apply (fold_left_invariant _ _ Consistent); [exact Hs|].
  intros s' t _ Hs'.
  destruct (String.eqb (type_name t) refName); simpl; [|exact Hs'].
  destruct (mem (type_name t) (Update.processedNames s')) eqn:Em; simpl; [exact Hs'|].
  apply IH. now apply consistent_addType.
Qed.

Lemma pending_le_total (processed : list string) :
  pending processed <= List.length (Update.typesInOrder allTypes).
Proof.
  unfold pending, names.
  rewrite <- (length_map type_name (Update.typesInOrder allTypes)).
  apply List.filter_length_le.
Qed.

End CollectFacts.

(** X1: the types that [collectModuleTypes] gives to [generateTypesFile] have
    pairwise distinct display names, and the depth of the recursion of
    [collectDependentTypes] never exceeds the number of types: more fuel gives
    the same result. *)
Theorem collectModuleTypes_distinct_names
    (apis : list ParsedAPI) (allTypes : Record (list ParsedType)) (config : Config) :
  NoDup (map type_name (Update.collectModuleTypes apis allTypes config)) /\
  forall fuel,
    List.length (Update.typesInOrder allTypes) <= fuel ->
    Update.result (Update.collectFrom fuel apis allTypes config (Update.mkCollect [] []))
    = Update.collectModuleTypes apis allTypes config.
Proof.
  split.
  - unfold Update.collectModuleTypes, Update.collectFrom.
    set (Consistent := fun st : Update.CollectState =>
           Update.processedNames st = map type_name (Update.result st) /\
           NoDup (Update.processedNames st)).
    assert (H : Consistent
                  (fold_left
                     (fun st type =>
                        if mem (type_name type) (Update.neededTypes apis)
                           && negb (mem (type_name type) (Update.processedNames st))
                        then Update.collectDependentTypes
                               (List.length (Update.typesInOrder allTypes))
                               allTypes config type (Update.addType type st)
                        else st)
                     (Update.typesInOrder allTypes) (Update.mkCollect [] []))).
    { apply fold_left_invariant; [split; [reflexivity | constructor]|].
      intros s t _ Hs.
      destruct (mem (type_name t) (Update.neededTypes apis)); simpl; [|exact Hs].
      destruct (mem (type_name t) (Update.processedNames s)) eqn:Em; simpl; [exact Hs|].
      apply collectDependentTypes_consistent. now apply consistent_addType. }
    destruct H as [He Hn]. now rewrite <- He.
  - intros fuel Hfuel. unfold Update.collectModuleTypes, Update.collectFrom. f_equal.
    apply (fold_left_agree _ _ (fun _ => True)); [exact I|].
    intros s t Hin _. split; [|exact I].
    destruct (mem (type_name t) (Update.neededTypes apis)); simpl; [|reflexivity].
    destruct (mem (type_name t) (Update.processedNames s)) eqn:Em; simpl; [reflexivity|].
    pose proof (pending_addType allTypes t s Hin Em) as Hlt.
    pose proof (pending_le_total allTypes (Update.processedNames s)) as Hle.
    apply collectDependentTypes_fuel; lia.
Qed.

(** X2: on a name of ASCII code units the local [cleanTypeName] of the
    update command agrees with the one of the naming utilities, as its
    comment asks. (The first puts the first code unit in upper case, the
    second in lower case and then in upper case, which is the same for an
    ASCII code unit.) *)
Theorem update_cleanTypeName_agrees (name : string) (suffixes : list string) :
  allChars Conditions.isAscii name = true ->
  Update.cleanTypeName name suffixes = Naming.cleanTypeName name suffixes.
Proof.
  intros _.
  unfold Update.cleanTypeName, Naming.cleanTypeName, toPascalCase, toCamelCase.
  assert (Hfirst : forall s, mapFirst upperChar (mapFirst lowerChar s)
                             = mapFirst upperChar s).
  { intros [|c s]; simpl; [reflexivity|]. f_equal.
    destruct c as [[] [] [] [] [] [] [] []]; reflexivity. }
  rewrite Hfirst. generalize (mapFirst upperChar (replaceSeparators (last (split "." name) ""))).
  intros cleanName. induction suffixes as [|suffix suffixes IH]; simpl; [reflexivity|].
  now rewrite IH.
Qed.

Lemma update_cleanTypeName_agrees_witness :
  Update.cleanTypeName "request.device_loginRequest" ["Request"; "Response"]
  = Naming.cleanTypeName "request.device_loginRequest" ["Request"; "Response"].
Proof.
  exact (update_cleanTypeName_agrees "request.device_loginRequest" ["Request"; "Response"]
           eq_refl).
Defined.

(** X3: a prior file that lacks one of the markers is foreign: the merge
    returns the new text, whatever the prior file held. *)
Theorem merge_overwrites_foreign_file (prior new : string) :
  includes prior AUTO_GEN_START && includes prior AUTO_GEN_END = false ->
  mergeWithExisting prior new = new.
Proof.
  unfold includes. intros H. apply merge_foreign.
  destruct (indexOf AUTO_GEN_START prior); [|now left].
  destruct (indexOf AUTO_GEN_END prior); [discriminate | right; now left].
Qed.

Lemma merge_overwrites_foreign_file_witness :
  mergeWithExisting "export const mine = 1" (generateApiFile [] "./types" defaultConfig)
  = generateApiFile [] "./types" defaultConfig.
Proof.
  exact (merge_overwrites_foreign_file "export const mine = 1"
           (generateApiFile [] "./types" defaultConfig) eq_refl).
Defined.

(** X4: in the declarations themselves the excluded fields are left out: the
    interface of an object schema and the type of the query parameters are
    those of the schema and of the parameter list without the excluded
    names. *)
Theorem excluded_fields_absent_from_declarations
    (name : string) (config : Config) :
  (forall (description : option string) (props : Record SchemaObject)
          (required : option (list string)),
      generateTypeDefinition name
        (mkSchema None (Some "object") description (Some props) None required
                  None None None) config
      = generateTypeDefinition name
          (mkSchema None (Some "object") description
             (Some (filter (fun kv => negb (mem (fst kv) (excludeFields config))) props))
             None required None None None) config) /\
  (forall params : list ParameterObject,
      generateQueryParamsType name params config
      = generateQueryParamsType name
          (filter (fun param => negb (mem (param_name param) (excludeFields config)))
                  params) config).
Proof.
  split.
  - intros description props required. unfold generateTypeDefinition. simpl.
    now rewrite (propertyLines_skip_excluded config _ props).
  - intros params. unfold generateQueryParamsType. do 3 f_equal.
    induction params as [|param params IH]; simpl; [reflexivity|].
    destruct (mem (param_name param) (excludeFields config)) eqn:E; simpl.
    + now rewrite (queryParamLines_excluded config param E).
    + now rewrite IH.
Qed.

(** The mapping of the primitive kinds by [schemaToTsType]. *)
Theorem schemaToTsType_primitives (config : Config) :
  schemaToTsType stringSchema config = "string" /\
  schemaToTsType integerSchema config = "number" /\
  schemaToTsType (mkSchema None (Some "number") None None None None None None None) config
  = "number" /\
  schemaToTsType (mkSchema None (Some "boolean") None None None None None None None) config
  = "boolean" /\
  (forall items, schemaToTsType (arraySchema items) config
                 = schemaToTsType items config ++ "[]") /\
  schemaToTsType (mkSchema None (Some "array") None None None None None None None) config
  = "unknown[]" /\
  schemaToTsType (mkSchema None (Some "object") None None None None None None None) config
  = "Record<string, unknown>" /\
  (forall ref, ref <> "" ->
               schemaToTsType (refSchema ref) config
               = cleanTypeName (extractRefName ref) (typeNameSuffixFilter config)).
Proof.
  repeat split; try reflexivity.
  intros ref Href. unfold refSchema. simpl.
  destruct (String.eqb ref "") eqn:E; [|reflexivity].
  apply String.eqb_eq in E. contradiction.
Qed.

(** The filter on the category labels: an allow-list takes precedence
    over a deny-list, and without both every label is accepted. *)
Theorem shouldIncludeTag_precedence (tag : string) (config : Config) :
  (includeTags config <> [] ->
   shouldIncludeTag tag config = mem tag (includeTags config)) /\
  (includeTags config = [] -> excludeTags config <> [] ->
   shouldIncludeTag tag config = negb (mem tag (excludeTags config))) /\
  (includeTags config = [] -> excludeTags config = [] ->
   shouldIncludeTag tag config = true).
Proof.
  unfold shouldIncludeTag.
  destruct (includeTags config), (excludeTags config); repeat split; congruence.
Qed.

(* ================================================================= *)
(** * Further properties of the code *)

Import Conditions.

(* ----------------------------------------------------------------- *)
(** ** The merge, applied again *)

Section MergeAgainFacts.

Lemma startsWith_extend (s r p : string) :
  startsWith s p = true -> startsWith (s ++ r) p = true.
Proof.
  revert s. induction p as [|a p IH]; intros s H; [reflexivity|].
  destruct s as [|b s]; simpl in *; [discriminate|].
  destruct (Ascii.eqb a b); [now apply IH | discriminate].
Qed.

(** The first occurrence is where [indexOf] stops. *)
Lemma indexOf_unique (p s : string) (i : nat) :
  startsWith (drop i s) p = true ->
  (forall j, j < i -> startsWith (drop j s) p = false) ->
  i <= String.length s ->
  indexOf p s = Some i.
Proof.
  intros Hocc Hfirst Hlen.
  destruct (indexOf p s) as [k|] eqn:E.
  - f_equal. destruct (Nat.lt_trichotomy k i) as [Hlt|[->|Hgt]]; [|reflexivity|].
    + apply indexOf_occurs in E. rewrite (Hfirst k Hlt) in E. discriminate.
    + rewrite (indexOf_first _ _ _ _ E Hgt) in Hocc. discriminate.
  - rewrite (indexOf_none _ _ i E Hlen) in Hocc. discriminate.
Qed.

(** An occurrence in [a ++ b] that ends inside [a] is an occurrence in [a],
    whatever follows. *)
Lemma occurrence_within (a b c p : string) (j : nat) :
  startsWith (drop j (a ++ b)) p = true ->
  j + String.length p <= String.length a ->
  startsWith (drop j (a ++ c)) p = true.
Proof.
  intros H Hl. rewrite drop_app_le in * by lia.
  apply startsWith_extend. apply (startsWith_within _ b); [exact H|].
  rewrite length_drop. lia.
Qed.


(** Where the markers stand in a merged text. *)
Lemma merged_markers (prior new : string) (i j k l : nat) :
  indexOf AUTO_GEN_START prior = Some i ->
  indexOf AUTO_GEN_END prior = Some j ->
  indexOf AUTO_GEN_START new = Some k ->
  indexOf AUTO_GEN_END new = Some l ->
  i <= j -> k <= l ->
  let merged := mergeWithExisting prior new in
  indexOf AUTO_GEN_START merged = Some i /\
  indexOf AUTO_GEN_END merged = Some (i + (l - k)) /\
  take i merged = take i prior /\
  drop (i + (l - k) + String.length AUTO_GEN_END) merged
  = drop (j + String.length AUTO_GEN_END) prior.
Proof.
  intros Hi Hj Hk Hl Hij Hkl merged.
  set (before := take i prior).
  set (after := drop (j + String.length AUTO_GEN_END) prior).
  set (region := slice k (l + String.length AUTO_GEN_END) new).
  assert (Hm : merged = before ++ region ++ after)
    by (apply (merge_formula prior new i j k l); assumption).
  pose proof (indexOf_le_length _ _ _ Hi) as Hilen.
  assert (Hbefore : String.length before = i).
  { unfold before. rewrite length_take. apply Nat.min_l. exact Hilen. }
  pose proof (indexOf_bound _ _ _ Hl) as Hlbound.
  assert (Hregion : String.length region = l + String.length AUTO_GEN_END - k).
  { unfold region, slice. rewrite length_take, length_drop. apply Nat.min_l. lia. }
  destruct (region_shape new k l Hk Hl Hkl) as [middle Hshape]. fold region in Hshape.
  pose proof (markers_apart new k l (indexOf_occurs _ _ _ Hk) (indexOf_occurs _ _ _ Hl) Hkl)
    as Hapart.
  assert (Hmiddle : String.length AUTO_GEN_START + String.length middle = l - k).
  { rewrite Hshape, !length_append in Hregion. lia. }
  (* the prior text and the new text around the markers *)
  assert (Hprior : prior = (before ++ AUTO_GEN_START)
                           ++ drop (i + String.length AUTO_GEN_START) prior).
  { rewrite append_assoc. apply indexOf_split. exact Hi. }
  assert (Hnew : drop k new = region ++ drop (l + String.length AUTO_GEN_END) new).
  { unfold region, slice.
    replace (l + String.length AUTO_GEN_END) with (k + (l + String.length AUTO_GEN_END - k))
      at 2 by lia.
    rewrite <- drop_drop. symmetry. apply take_drop. }
  assert (Hmerged : merged = (before ++ AUTO_GEN_START) ++ (middle ++ AUTO_GEN_END) ++ after).
  { rewrite Hm, Hshape, !append_assoc. reflexivity. }
  assert (Hlen : String.length merged
                 = i + (l + String.length AUTO_GEN_END - k) + String.length after).
  { rewrite Hm, !length_append. lia. }
  assert (Hstart : indexOf AUTO_GEN_START merged = Some i).
  { apply indexOf_unique.
    - rewrite Hm, <- Hbefore, drop_app_length, Hshape, append_assoc. apply startsWith_app.
    - intros j' Hj'.
      destruct (startsWith (drop j' merged) AUTO_GEN_START) eqn:E; [|reflexivity].
      exfalso. rewrite Hmerged in E.
      apply (occurrence_within _ _ (drop (i + String.length AUTO_GEN_START) prior)) in E.
      + rewrite <- Hprior in E. rewrite (indexOf_first _ _ _ _ Hi Hj') in E. discriminate.
      + rewrite length_append. lia.
    - lia. }
  assert (Hend : indexOf AUTO_GEN_END merged = Some (i + (l - k))).
  { apply indexOf_unique.
    - rewrite Hm, <- Hbefore, <- drop_drop, drop_app_length, Hshape, <- Hmiddle.
      rewrite <- length_append, <- append_assoc, append_assoc, drop_app_length.
      apply startsWith_app.
    - intros j' Hj'.
      destruct (startsWith (drop j' merged) AUTO_GEN_END) eqn:E; [|reflexivity].
      exfalso. destruct (Nat.lt_ge_cases j' i) as [Hlt|Hge].
      + rewrite Hmerged in E.
        apply (occurrence_within _ _ (drop (i + String.length AUTO_GEN_START) prior)) in E.
        * rewrite <- Hprior in E.
          assert (Hjj : j' < j) by lia.
          rewrite (indexOf_first _ _ _ _ Hj Hjj) in E. discriminate.
        * rewrite length_append.
          change (String.length AUTO_GEN_END) with 29.
          change (String.length AUTO_GEN_START) with 31. lia.
      + rewrite Hm in E. replace j' with (i + (j' - i)) in E by lia.
        rewrite <- Hbefore, <- drop_drop, drop_app_length in E.
        apply (occurrence_within _ _ (drop (l + String.length AUTO_GEN_END) new)) in E.
        * rewrite <- Hnew, drop_drop in E.
          assert (Hll : k + (j' - i) < l) by lia.
          rewrite Hbefore in E. rewrite (indexOf_first _ _ _ _ Hl Hll) in E. discriminate.
        * lia.
    - lia. }
  split; [exact Hstart|]. split; [exact Hend|]. split.
  - rewrite Hm, <- Hbefore. apply take_app_length.
  - rewrite Hm.
    replace (i + (l - k) + String.length AUTO_GEN_END)
      with (String.length before + String.length region) by lia.
    rewrite <- drop_drop, drop_app_length, drop_app_length. reflexivity.
Qed.

End MergeAgainFacts.



(* ----------------------------------------------------------------- *)
(** ** Names and paths *)

Section MoreNamingFacts.

Lemma split_parts (c : ascii) (s : string) :
  Forall (fun part => allChars (fun d => negb (Ascii.eqb d c)) part = true) (split c s).
Proof.
  induction s as [|a s IH]; simpl.
  - constructor; [reflexivity | constructor].
  - destruct (Ascii.eqb a c) eqn:E.
    + constructor; [reflexivity | exact IH].
    + destruct (split c s) as [|h r]; [constructor; [simpl; now rewrite E | constructor]|].
      inversion IH as [|? ? Hh Hr]; subst. constructor; [|exact Hr].
      simpl. now rewrite E, Hh.
Qed.

Lemma last_Forall {A : Type} (P : A -> Prop) (l : list A) (d : A) :
  Forall P l -> P d -> P (last l d).
Proof.
  induction 1 as [|x l Hx Hl IH]; intros Hd; simpl; [exact Hd|].
  destruct l; [exact Hx | now apply IH].
Qed.

(** A property of code units that the case mappings keep is kept by the
    replacement of the separators. *)
Lemma replaceSeparators_keeps (P : ascii -> bool) (s : string) :
  (forall c, P c = true -> P (upperChar c) = true) ->
  allChars P s = true -> allChars P (replaceSeparators s) = true.
Proof.
  intros Hup.
  assert (H : forall n s, String.length s <= n -> allChars P s = true ->
                          allChars P (replaceSeparators s) = true).
  { clear s. induction n as [|n IH]; intros [|c s] Hn Hs; simpl in *;
      try reflexivity; try lia.
    apply andb_true_iff in Hs as [Hc Hs].
    destruct (Ascii.eqb c "-" || Ascii.eqb c "_").
    - destruct s as [|d s]; simpl; [now rewrite Hc|].
      simpl in Hs, Hn. apply andb_true_iff in Hs as [Hd Hs'].
      destruct (isLineTerminator d); simpl.
      + rewrite Hc. apply (IH (String d s)); [simpl; lia|]. simpl. now rewrite Hd, Hs'.
      + rewrite (Hup d Hd). apply IH; [lia | exact Hs'].
    - simpl. rewrite Hc. apply IH; [lia | exact Hs]. }
  apply (H (String.length s)). lia.
Qed.

Lemma mapFirst_keeps (P : ascii -> bool) (f : ascii -> ascii) (s : string) :
  (forall c, P c = true -> P (f c) = true) ->
  allChars P s = true -> allChars P (mapFirst f s) = true.
Proof.
  intros Hf. destruct s as [|c s]; simpl; [reflexivity|].
  intros H. apply andb_true_iff in H as [Hc Hs]. now rewrite (Hf c Hc), Hs.
Qed.

Lemma take_keeps (P : ascii -> bool) (n : nat) (s : string) :
  allChars P s = true -> allChars P (take n s) = true.
Proof.
  revert s. induction n as [|n IH]; intros [|c s]; simpl; try reflexivity.
  intros H. apply andb_true_iff in H as [Hc Hs]. now rewrite Hc, IH.
Qed.

Lemma drop_keeps (P : ascii -> bool) (n : nat) (s : string) :
  allChars P s = true -> allChars P (drop n s) = true.
Proof.
  revert s. induction n as [|n IH]; intros [|c s]; simpl; try reflexivity; try (intros H; exact H).
  intros H. apply andb_true_iff in H as [Hc Hs]. now apply IH.
Qed.

Lemma removeTypeSuffix_keeps (P : ascii -> bool) (name : string) (suffixes : list string) :
  allChars P name = true -> allChars P (removeTypeSuffix name suffixes) = true.
Proof.
  intros H. induction suffixes as [|suffix suffixes IH]; simpl; [exact H|].
  destruct (endsWith name suffix); [|exact IH].
  unfold sliceToNeg. destruct (String.length suffix); [reflexivity|].
  now apply take_keeps.
Qed.

Lemma notDot_upper (c : ascii) : notDot c = true -> notDot (upperChar c) = true.
Proof. destruct c as [[] [] [] [] [] [] [] []]; vm_compute; congruence. Qed.

Lemma notDot_lower (c : ascii) : notDot c = true -> notDot (lowerChar c) = true.
Proof. destruct c as [[] [] [] [] [] [] [] []]; vm_compute; congruence. Qed.

End MoreNamingFacts.

(** X6: the display name that [cleanTypeName] gives never holds a dot: the
    package qualification of a name such as [system.SysApi] is always cut
    off, whatever the suffixes to strip are. *)
Theorem cleanTypeName_has_no_dot (name : string) (suffixes : list string) :
  allChars notDot (cleanTypeName name suffixes) = true /\
  includes (cleanTypeName name suffixes) "." = false.
Proof.
  assert (H : allChars notDot (cleanTypeName name suffixes) = true).
  { unfold cleanTypeName, toPascalCase, toCamelCase.
    apply removeTypeSuffix_keeps.
    apply mapFirst_keeps; [exact notDot_upper|].
    apply mapFirst_keeps; [exact notDot_lower|].
    apply replaceSeparators_keeps; [exact notDot_upper|].
    apply (last_Forall (fun part => allChars notDot part = true)); [|reflexivity].
    apply (split_parts "."). }
  split; [exact H|].
  unfold includes. generalize dependent (cleanTypeName name suffixes). intros s.
  induction s as [|c s IH]; [reflexivity|].
  intros H. simpl in H. apply andb_true_iff in H as [Hc Hs].
  unfold notDot in Hc. apply negb_true_iff in Hc. rewrite Ascii.eqb_sym in Hc.
  change (indexOf "." (String c s))
    with (if (if Ascii.eqb "." c then true else false) then Some 0
          else option_map S (indexOf "." s)).
  rewrite Hc. specialize (IH Hs). destruct (indexOf "." s); [discriminate | reflexivity].
Qed.

(** X7: the cleaned path begins with a slash whenever the path does, and
    whenever a prefix was stripped; a path that no prefix matches is
    returned as it is; and what is returned is always the rest of the path
    behind some prefix of it, with a slash put in front where it was
    missing. *)
Theorem cleanPathPrefix_keeps_leading_slash (path : string) (prefixes : list string) :
  (startsWith path "/" = true \/ (exists p, In p prefixes /\ startsWith path p = true) ->
   startsWith (cleanPathPrefix path prefixes) "/" = true) /\
  ((forall p, In p prefixes -> startsWith path p = false) ->
   cleanPathPrefix path prefixes = path) /\
  (exists stripped rest,
      path = stripped ++ rest /\
      (cleanPathPrefix path prefixes = rest \/ cleanPathPrefix path prefixes = "/" ++ rest)).
Proof.
  split; [|split].
  - induction prefixes as [|q prefixes IH]; cbn [cleanPathPrefix].
    + intros [H|(p & [] & _)]. exact H.
    + intros H. destruct (startsWith path q) eqn:Eq.
      * destruct (startsWith (drop (String.length q) path) "/") eqn:Es; [exact Es | reflexivity].
      * apply IH. destruct H as [H|(p & [->|Hin] & Hp)]; [now left | congruence |].
        right. now exists p.
  - apply cleanPathPrefix_none.
  - induction prefixes as [|q prefixes IH]; cbn [cleanPathPrefix].
    + exists "", path. split; [reflexivity | now left].
    + destruct (startsWith path q) eqn:Eq; [|exact IH].
      exists q, (drop (String.length q) path). split; [now apply startsWith_inv|].
      destruct (startsWith (drop (String.length q) path) "/"); [now left | now right].
Qed.

Lemma cleanPathPrefix_keeps_leading_slash_witness :
  startsWith (cleanPathPrefix "/apiary/notes" ["/api/v1"; "/api"]) "/" = true.
Proof.
  apply (proj1 (cleanPathPrefix_keeps_leading_slash "/apiary/notes" ["/api/v1"; "/api"])).
  left. reflexivity.
Defined.

Section CollisionFacts.

Lemma join_app (l1 l2 : list string) :
  join "" (l1 ++ l2) = join "" l1 ++ join "" l2.
Proof.
  unfold join. induction l1 as [|x l1 IH]; [reflexivity|].
  destruct l1 as [|y l1].
  - simpl. destruct l2; simpl; [now rewrite append_nil_r | reflexivity].
  - change (((x :: y :: l1) ++ l2)%list) with (x :: ((y :: l1) ++ l2))%list.
    change (String.concat "" (x :: (y :: l1) ++ l2))
      with (x ++ "" ++ String.concat "" ((y :: l1) ++ l2)).
    rewrite IH. simpl. now rewrite append_assoc.
Qed.

(** The name of the function of a well-formed path, from the parts that
    its segments leave between slashes. *)
Lemma name_of_segments (method : string) (segments : list Segment) :
  Forall WellFormedSegment segments ->
  generateFunctionName method (renderPath segments)
  = toLowerCase method ++ join "" (map toPascalCase (map segmentPart segments)).
Proof.
  intros H. unfold generateFunctionName.
  now rewrite (brace_pass segments H), (colon_pass segments H), (processed_parts segments H).
Qed.

Lemma upper_lower (c : ascii) : upperChar (lowerChar c) = upperChar c.
Proof. destruct c as [[] [] [] [] [] [] [] []]; reflexivity. Qed.

Lemma alnum_not_separator (c : ascii) :
  isAlphaNum c = true -> Ascii.eqb c "-" || Ascii.eqb c "_" = false.
Proof. destruct c as [[] [] [] [] [] [] [] []]; vm_compute; congruence. Qed.

Lemma alnum_not_terminator (c : ascii) : isAlphaNum c = true -> isLineTerminator c = false.
Proof. destruct c as [[] [] [] [] [] [] [] []]; vm_compute; congruence. Qed.

Lemma alnum_plain (c : ascii) : isAlphaNum c = true -> plainChar c = true.
Proof. destruct c as [[] [] [] [] [] [] [] []]; vm_compute; congruence. Qed.

Lemma replaceSeparators_word (a rest : string) :
  allChars isAlphaNum a = true ->
  replaceSeparators (a ++ rest) = a ++ replaceSeparators rest.
Proof.
  induction a as [|c a IH]; simpl; [reflexivity|].
  intros H. apply andb_true_iff in H as [Hc Ha].
  now rewrite (alnum_not_separator c Hc), IH.
Qed.

(** Two words joined by a hyphen or an underscore give the Pascal case of
    the one followed by the Pascal case of the other. *)
Lemma toPascalCase_joined (sep : ascii) (a b : string) :
  Ascii.eqb sep "-" || Ascii.eqb sep "_" = true ->
  a <> "" -> b <> "" ->
  allChars isAlphaNum a = true -> allChars isAlphaNum b = true ->
  toPascalCase (a ++ String sep b) = toPascalCase a ++ toPascalCase b.
Proof.
  intros Hsep Ha Hb Haa Hab. unfold toPascalCase, toCamelCase.
  rewrite (replaceSeparators_word a _ Haa).
  rewrite (replaceSeparators_alnum a Haa), (replaceSeparators_alnum b Hab).
  destruct a as [|a0 a]; [congruence|]. destruct b as [|b0 b]; [congruence|].
  simpl in Hab. apply andb_true_iff in Hab as [Hb0 Hab].
  cbn [replaceSeparators]. rewrite Hsep, (alnum_not_terminator b0 Hb0).
  rewrite (replaceSeparators_alnum b Hab). simpl.
  now rewrite !upper_lower.
Qed.

End CollisionFacts.

(** X8: function names are not unique. A hyphen or an underscore between two
    words of a path segment gives the same function name as a slash there:
    for the same verb, the paths [.../a-b/...] and [.../a/b/...] name one
    function, whatever well-formed segments stand before and behind. *)
Theorem function_names_collide
    (method : string) (sep : ascii) (a b : string) (before behind : list Segment) :
  Ascii.eqb sep "-" || Ascii.eqb sep "_" = true ->
  a <> "" -> b <> "" ->
  allChars isAlphaNum a = true -> allChars isAlphaNum b = true ->
  Forall WellFormedSegment before -> Forall WellFormedSegment behind ->
  generateFunctionName method
    (renderPath (before ++ [Literal (a ++ String sep b)] ++ behind))
  = generateFunctionName method
      (renderPath (before ++ [Literal a; Literal b] ++ behind)) /\
  renderPath (before ++ [Literal (a ++ String sep b)] ++ behind)
  <> renderPath (before ++ [Literal a; Literal b] ++ behind).
Proof.
  intros Hsep Ha Hb Haa Hab Hbefore Hbehind.
  assert (Hplain : forall w, allChars isAlphaNum w = true -> allChars plainChar w = true)
    by (intros w; apply allChars_impl; exact alnum_plain).
  assert (Hsepplain : plainChar sep = true).
  { revert Hsep. destruct sep as [[] [] [] [] [] [] [] []]; vm_compute; congruence. }
  split.
  - rewrite !name_of_segments.
    + f_equal. rewrite !map_app, !join_app. f_equal. f_equal.
      cbn [map segmentPart]. unfold join at 1 2. cbn [String.concat].
      rewrite (toPascalCase_joined sep a b Hsep Ha Hb Haa Hab).
      destruct (map toPascalCase (map segmentPart behind)); simpl;
        [now rewrite ?append_nil_r | now rewrite ?append_assoc].
    + apply Forall_app. split; [exact Hbefore|]. apply Forall_app. split; [|exact Hbehind].
      repeat constructor; [exact Ha | now apply Hplain | exact Hb | now apply Hplain].
    + apply Forall_app. split; [exact Hbefore|]. apply Forall_app. split; [|exact Hbehind].
      repeat constructor.
      * now destruct a.
      * rewrite allChars_app. simpl. now rewrite (Hplain a Haa), Hsepplain, (Hplain b Hab).
  - unfold renderPath. induction before as [|seg before IH].
    + simpl. intros H. injection H as H. rewrite !append_assoc in H.
      apply append_inv_head in H. simpl in H. injection H as H.
      revert Hsep. subst sep. vm_compute. congruence.
    + simpl. intros H. injection H as H. apply append_inv_head in H.
      inversion Hbefore; subst. now apply IH.
Qed.

Lemma function_names_collide_witness :
  generateFunctionName "get" "/users/by-id" = generateFunctionName "get" "/users/by/id".
Proof.
  refine (proj1 (function_names_collide "get" "-" "by" "id" [Literal "users"] []
                   eq_refl _ _ eq_refl eq_refl _ _)); try discriminate.
  - repeat constructor. discriminate.
  - constructor.
Defined.

(* ----------------------------------------------------------------- *)
(** ** The validation of a loaded configuration *)

(** X9: a configuration loaded from [package.json] passes the validation
    exactly when each of the keys [input], [output], [requestClient] and
    [requestImport] is left out of the entry or has a value that counts as
    true (so not the empty text, [null], [false] or zero), and
    [requestStyle] is left out or is the text [chain] or [object]: a key
    that is left out takes a default that passes, and any value that is
    there is copied as it is. A missing or unreadable [package.json] gives
    a configuration that passes, and so does the entry that the [init]
    command writes, which loads as the default configuration. *)
Theorem loaded_config_validates (entry : ConfigValidation.RawEntry) :
  let absentOr (test : ConfigValidation.Json -> bool)
               (value : option ConfigValidation.Json) : Prop :=
    match value with
    | Some v => test v = true
    | None => True
    end in
  (ConfigValidation.validateConfig (ConfigValidation.loadConfig (Some entry)) = [] <->
   absentOr ConfigValidation.truthyJson (ConfigValidation.raw_input entry) /\
   absentOr ConfigValidation.truthyJson (ConfigValidation.raw_output entry) /\
   absentOr ConfigValidation.isRequestStyle (ConfigValidation.raw_requestStyle entry) /\
   absentOr ConfigValidation.truthyJson (ConfigValidation.raw_requestClient entry) /\
   absentOr ConfigValidation.truthyJson (ConfigValidation.raw_requestImport entry)) /\
  ConfigValidation.validateConfig (ConfigValidation.loadConfig None) = [] /\
  (forall user : ConfigLoader.UserConfig,
      ConfigValidation.loadConfig (Some (ConfigValidation.rawOf user))
      = ConfigValidation.valuesOf (ConfigLoader.loadConfig (Some user))) /\
  ConfigLoader.loadConfig (Some ConfigValidation.initEntry) = defaultConfig /\
  ConfigValidation.validateConfig
    (ConfigValidation.loadConfig
       (Some (ConfigValidation.mkRawEntry
                None (Some ConfigValidation.JNull)
                (Some (ConfigValidation.JString "fetch")) None None)))
  = ["output 配置项不能为空";
     ("requestStyle 必须是 " ++ ConfigValidation.dquote ++ "chain"
      ++ ConfigValidation.dquote ++ " 或 " ++ ConfigValidation.dquote ++ "object"
      ++ ConfigValidation.dquote)%string].
Proof.
  intros absentOr.
  split; [|split; [reflexivity|split; [|split; reflexivity]]].
  - destruct entry as [i o s c r].
    unfold ConfigValidation.validateConfig, ConfigValidation.loadConfig.
    cbn [ConfigValidation.value_input ConfigValidation.value_output
         ConfigValidation.value_requestStyle ConfigValidation.value_requestClient
         ConfigValidation.value_requestImport
         ConfigValidation.raw_input ConfigValidation.raw_output
         ConfigValidation.raw_requestStyle ConfigValidation.raw_requestClient
         ConfigValidation.raw_requestImport].
    assert (Hkey : forall (test : ConfigValidation.Json -> bool)
                          (x : option ConfigValidation.Json) (d : ConfigValidation.Json)
                          (msg : string),
               test d = true ->
               ((if test (ConfigLoader.orDefault x d) then [] else [msg]) = []
                <-> absentOr test x)).
    { intros test [v|] d msg Hd; simpl.
      - destruct (test v); split; (reflexivity || discriminate).
      - rewrite Hd. split; [intros _; exact I | reflexivity]. }
    split.
    + intros H.
      apply app_eq_nil in H as [Hi H]. apply app_eq_nil in H as [Ho H].
      apply app_eq_nil in H as [Hs H]. apply app_eq_nil in H as [Hc Hr].
      repeat split; eapply Hkey; try eassumption; reflexivity.
    + intros (Hi & Ho & Hs & Hc & Hr).
      apply (Hkey ConfigValidation.truthyJson i (ConfigValidation.JString (input defaultConfig))
               "input 配置项不能为空" eq_refl) in Hi.
      apply (Hkey ConfigValidation.truthyJson o (ConfigValidation.JString (output defaultConfig))
               "output 配置项不能为空" eq_refl) in Ho.
      apply (Hkey ConfigValidation.isRequestStyle s
               (ConfigValidation.JString
                  (ConfigValidation.styleText (requestStyle defaultConfig)))
               ("requestStyle 必须是 " ++ ConfigValidation.dquote ++ "chain"
                ++ ConfigValidation.dquote ++ " 或 " ++ ConfigValidation.dquote
                ++ "object" ++ ConfigValidation.dquote)%string eq_refl) in Hs.
      apply (Hkey ConfigValidation.truthyJson c
               (ConfigValidation.JString (requestClient defaultConfig))
               "requestClient 配置项不能为空" eq_refl) in Hc.
      apply (Hkey ConfigValidation.truthyJson r
               (ConfigValidation.JString (requestImport defaultConfig))
               "requestImport 配置项不能为空" eq_refl) in Hr.
      now rewrite Hi, Ho, Hs, Hc, Hr.
  - intros [i o s c r ? ? ? ? ? ? ?].
    unfold ConfigValidation.loadConfig, ConfigValidation.rawOf, ConfigValidation.valuesOf,
      ConfigLoader.loadConfig.
    cbn [input output requestStyle requestClient requestImport
         ConfigLoader.user_input ConfigLoader.user_output ConfigLoader.user_requestStyle
         ConfigLoader.user_requestClient ConfigLoader.user_requestImport
         ConfigValidation.raw_input ConfigValidation.raw_output
         ConfigValidation.raw_requestStyle ConfigValidation.raw_requestClient
         ConfigValidation.raw_requestImport].
    destruct i, o, s, c, r; reflexivity.
Qed.

(* ----------------------------------------------------------------- *)
(** ** The tag mapping *)

Section TagMappingFacts.

Lemma lookup_assignKey {T : Type} (key k : string) (v : T) (obj : Record T) :
  lookup key (assignKey k v obj) = if String.eqb key k then Some v else lookup key obj.
Proof.
  induction obj as [|[k' w] obj IH]; simpl.
  - reflexivity.
  - destruct (String.eqb k k') eqn:Ek; simpl.
    + apply String.eqb_eq in Ek. subst k'.
      destruct (String.eqb key k); reflexivity.
    + rewrite IH. destruct (String.eqb key k') eqn:E'; [|reflexivity].
      apply String.eqb_eq in E'. subst k'.
      destruct (String.eqb key k) eqn:E; [|reflexivity].
      apply String.eqb_eq in E. subst k. now rewrite String.eqb_refl in Ek.
Qed.

Lemma inObject_assignKey (key k v : string) (m : Record string) :
  TagUpdate.inObject key (assignKey k v m)
  = String.eqb key k || TagUpdate.inObject key m.
Proof.
  unfold TagUpdate.inObject, TagUpdate.hasKey. rewrite lookup_assignKey.
  now destruct (String.eqb key k).
Qed.

(** The mapping after the loop over the tags: a key keeps its value, and a
    tag that is neither a key nor an inherited name is mapped to itself. *)
Lemma addTag_lookup (tags : list string) (st : Record string * list string) (key : string) :
  lookup key (fst (fold_left TagUpdate.addTag tags st))
  = match lookup key (fst st) with
    | Some v => Some v
    | None =>
        if mem key tags && negb (mem key TagUpdate.objectPrototypeNames)
        then Some key else None
    end.
Proof.
  revert st. induction tags as [|tag tags IH]; intros [m nt]; cbn [fold_left].
  - cbn [fst mem andb]. now destruct (lookup key m).
  - rewrite IH. unfold TagUpdate.addTag. cbn [fst snd mem].
    destruct (TagUpdate.inObject tag m) eqn:Et; cbn [fst].
    + destruct (lookup key m) eqn:Ek; [reflexivity|].
      destruct (String.eqb key tag) eqn:E; [|reflexivity].
      apply String.eqb_eq in E. subst tag.
      unfold TagUpdate.inObject, TagUpdate.hasKey in Et. rewrite Ek in Et.
      cbn [orb] in Et. rewrite Et. cbn [negb]. now rewrite !andb_false_r.
    + unfold TagUpdate.inObject, TagUpdate.hasKey in Et.
      apply orb_false_iff in Et as [Eown Einh].
      rewrite lookup_assignKey.
      destruct (String.eqb key tag) eqn:E.
      * apply String.eqb_eq in E. subst tag.
        destruct (lookup key m); [discriminate|]. now rewrite Einh.
      * now destruct (lookup key m).
Qed.

(** The new tags after the loop: those met that were not in the mapping,
    each once. *)
Lemma addTag_newTags (tags : list string) (st : Record string * list string) :
  (forall t, In t (snd st) -> TagUpdate.inObject t (fst st) = true) ->
  NoDup (snd st) ->
  let st' := fold_left TagUpdate.addTag tags st in
  (forall t, In t (snd st') <->
             In t (snd st) \/ (In t tags /\ TagUpdate.inObject t (fst st) = false)) /\
  NoDup (snd st').
Proof.
  revert st. induction tags as [|tag tags IH]; intros [m nt] Hkeys Hnd; simpl.
  - split; [|exact Hnd]. intros t. tauto.
  - unfold TagUpdate.addTag at 2 4. simpl.
    destruct (TagUpdate.inObject tag m) eqn:Et.
    + destruct (IH (m, nt) Hkeys Hnd) as [Hin Hnd']. split; [|exact Hnd'].
      intros t. rewrite Hin. simpl. split; [tauto|].
      intros [H|[[->|H] Hk]]; [tauto | congruence | tauto].
    + assert (Hfresh : ~ In tag nt).
      { intros H. apply Hkeys in H. simpl in H. congruence. }
      destruct (IH (assignKey tag tag m, (nt ++ [tag])%list)) as [Hin Hnd'].
      * intros t Ht. simpl in *. rewrite inObject_assignKey.
        destruct (String.eqb t tag) eqn:E; [reflexivity|].
        apply in_app_or in Ht as [Ht|[->|[]]].
        -- apply Hkeys in Ht. exact Ht.
        -- now rewrite String.eqb_refl in E.
      * simpl. apply (Permutation_NoDup (l := tag :: nt)).
        -- apply Permutation_cons_append.
        -- now constructor.
      * split; [|exact Hnd']. intros t. rewrite Hin. simpl.
        rewrite inObject_assignKey. rewrite in_app_iff. simpl.
        destruct (String.eqb t tag) eqn:E.
        -- apply String.eqb_eq in E. subst t. split; [|tauto]. intros _. right. split; [now left|].
           exact Et.
        -- apply String.eqb_neq in E. split.
           ++ intros [[H|[H|[]]]|[H Hk]]; [tauto | congruence | tauto].
           ++ intros [H|[[H|H] Hk]]; [tauto | congruence | tauto].
Qed.

Lemma setAdd_In (x y : string) (s : list string) :
  In y (setAdd x s) <-> y = x \/ In y s.
Proof.
  unfold setAdd. destruct (mem x s) eqn:E.
  - apply mem_In in E. split; [tauto|]. intros [->|H]; assumption.
  - rewrite in_app_iff. simpl. intuition congruence.
Qed.

Lemma setAdd_NoDup (x : string) (s : list string) : NoDup s -> NoDup (setAdd x s).
Proof.
  intros H. unfold setAdd. destruct (mem x s) eqn:E; [exact H|].
  apply (Permutation_NoDup (l := x :: s)); [apply Permutation_cons_append|].
  constructor; [now apply mem_false_In | exact H].
Qed.

Lemma collectTags_spec (paths : Record PathItem) :
  NoDup (TagUpdate.collectTags paths) /\
  forall t, In t (TagUpdate.collectTags paths) <->
            exists operation, operationAt paths operation /\ firstTag operation = Some t.
Proof.
  unfold TagUpdate.collectTags.
  set (inner := fun (item : PathItem) (tags : list string) (method : string) =>
         match operationOf item method with
         | Some operation =>
             match op_tags operation with
             | Some (t :: _) => if truthy (Some t) then setAdd t tags else tags
             | _ => tags
             end
         | None => tags
         end).
  assert (Hinner : forall item ms tags,
             (NoDup tags -> NoDup (fold_left (inner item) ms tags)) /\
             forall t, In t (fold_left (inner item) ms tags) <->
                       In t tags \/
                       exists method operation,
                         In method ms /\ operationOf item method = Some operation /\
                         firstTag operation = Some t).
  { intros item ms. induction ms as [|m ms IH]; intros tags; simpl.
    - split; [auto|]. intros t. split; [tauto|]. intros [H|(? & ? & [] & _)]. exact H.
    - destruct (IH (inner item tags m)) as [Hnd Hin]. split.
      + intros H. apply Hnd. unfold inner.
        destruct (operationOf item m) as [op|]; [|exact H].
        destruct (op_tags op) as [[|t ?]|]; try exact H.
        destruct (truthy (Some t)); [now apply setAdd_NoDup | exact H].
      + intros t. rewrite Hin. unfold inner at 1, firstTag.
        destruct (operationOf item m) as [op|] eqn:Eop.
        * destruct (op_tags op) as [[|t0 ?]|] eqn:Etags.
          -- split.
             ++ intros [H|(m' & op' & Hm & Ho & Ht)]; [tauto|]. right. exists m', op'. tauto.
             ++ intros [H|(m' & op' & [<-|Hm] & Ho & Ht)]; [tauto| |].
                ** rewrite Eop in Ho. injection Ho as <-. rewrite Etags in Ht. discriminate.
                ** right. now exists m', op'.
          -- destruct (truthy (Some t0)) eqn:Etr.
             ++ rewrite setAdd_In. split.
                ** intros [[->|H]|(m' & op' & Hm & Ho & Ht)]; [|tauto|].
                   --- right. exists m, op. rewrite Etags, Etr. tauto.
                   --- right. exists m', op'. tauto.
                ** intros [H|(m' & op' & [<-|Hm] & Ho & Ht)]; [tauto| |].
                   --- rewrite Eop in Ho. injection Ho as <-. rewrite Etags, Etr in Ht.
                       injection Ht as <-. tauto.
                   --- right. now exists m', op'.
             ++ split.
                ** intros [H|(m' & op' & Hm & Ho & Ht)]; [tauto|]. right. exists m', op'. tauto.
                ** intros [H|(m' & op' & [<-|Hm] & Ho & Ht)]; [tauto| |].
                   --- rewrite Eop in Ho. injection Ho as <-. rewrite Etags, Etr in Ht.
                       discriminate.
                   --- right. now exists m', op'.
          -- split.
             ++ intros [H|(m' & op' & Hm & Ho & Ht)]; [tauto|]. right. exists m', op'. tauto.
             ++ intros [H|(m' & op' & [<-|Hm] & Ho & Ht)]; [tauto| |].
                ** rewrite Eop in Ho. injection Ho as <-. rewrite Etags in Ht. discriminate.
                ** right. now exists m', op'.
        * split.
          -- intros [H|(m' & op' & Hm & Ho & Ht)]; [tauto|]. right. exists m', op'. tauto.
          -- intros [H|(m' & op' & [<-|Hm] & Ho & Ht)]; [tauto| |].
             ++ congruence.
             ++ right. now exists m', op'. }
  assert (Houter : forall ps tags,
             (NoDup tags ->
              NoDup (fold_left (fun tags entry => fold_left (inner (snd entry)) methods tags)
                               ps tags)) /\
             forall t,
               In t (fold_left (fun tags entry => fold_left (inner (snd entry)) methods tags)
                               ps tags) <->
               In t tags \/
               exists operation, operationAt ps operation /\ firstTag operation = Some t).
  { induction ps as [|[path item] ps IH]; intros tags; simpl.
    - split; [auto|]. intros t. split; [tauto|].
      intros [H|(op & (? & ? & ? & [] & _) & _)]. exact H.
    - destruct (IH (fold_left (inner item) methods tags)) as [Hnd Hin].
      destruct (Hinner item methods tags) as [Hnd' Hin']. split; [auto|].
      intros t. rewrite Hin, Hin'. split.
      + intros [[H|(m & op & Hm & Ho & Ht)]|(op & (p & i & m & Hp & Hm & Ho) & Ht)].
        * now left.
        * right. exists op. split; [|exact Ht]. exists path, item, m. simpl. tauto.
        * right. exists op. split; [|exact Ht]. exists p, i, m. simpl. tauto.
      + intros [H|(op & (p & i & m & [Hp|Hp] & Hm & Ho) & Ht)].
        * tauto.
        * injection Hp as <- <-. left. right. now exists m, op.
        * right. exists op. split; [|exact Ht]. now exists p, i, m. }
  destruct (Houter paths []) as [Hnd Hin]. split; [apply Hnd; constructor|].
  intros t. destruct (Hin t) as [H1 H2]. split.
  - intros H. destruct (H1 H) as [[]|H']. exact H'.
  - intros H. apply H2. now right.
Qed.

End TagMappingFacts.

Section TagUpdateFacts.

Variable file : option (Record string).
Variable tags : list string.
Variable configMapping : Record string.

Lemma existing_mapping :
  TagUpdate.loadTagMapping file configMapping
  = if match configMapping with _ :: _ => true | [] => false end
    then configMapping else TagUpdate.loadTagMappingFromFile file.
Proof. unfold TagUpdate.loadTagMapping. now destruct configMapping. Qed.

Lemma updateTagMapping_lookup (key : string) :
  lookup key (TagUpdate.mapping (TagUpdate.updateTagMapping file tags configMapping))
  = match lookup key (TagUpdate.loadTagMapping file configMapping) with
    | Some v => Some v
    | None =>
        if mem key tags && negb (mem key TagUpdate.objectPrototypeNames)
        then Some key else None
    end.
Proof.
  unfold TagUpdate.updateTagMapping. rewrite <- existing_mapping.
  pose proof (addTag_lookup tags (TagUpdate.loadTagMapping file configMapping, []) key) as H.
  destruct (fold_left TagUpdate.addTag tags _) as [m nt]. exact H.
Qed.

Lemma updateTagMapping_newTags :
  (forall tag,
      In tag (TagUpdate.newTags (TagUpdate.updateTagMapping file tags configMapping)) <->
      In tag tags /\
      TagUpdate.inObject tag (TagUpdate.loadTagMapping file configMapping) = false) /\
  NoDup (TagUpdate.newTags (TagUpdate.updateTagMapping file tags configMapping)).
Proof.
  unfold TagUpdate.updateTagMapping. rewrite <- existing_mapping.
  destruct (addTag_newTags tags (TagUpdate.loadTagMapping file configMapping, []))
    as [Hin Hnd]; [intros t [] | constructor |].
  destruct (fold_left TagUpdate.addTag tags _) as [m nt]. simpl in *.
  split; [|exact Hnd]. intros tag. rewrite Hin. tauto.
Qed.

Lemma updateTagMapping_inObject (tag : string) :
  In tag tags ->
  TagUpdate.inObject tag
    (TagUpdate.mapping (TagUpdate.updateTagMapping file tags configMapping)) = true.
Proof.
  intros Ht. unfold TagUpdate.inObject, TagUpdate.hasKey. rewrite updateTagMapping_lookup.
  destruct (lookup tag _); [reflexivity|].
  apply mem_In in Ht. rewrite Ht.
  now destruct (mem tag TagUpdate.objectPrototypeNames).
Qed.

End TagUpdateFacts.

(** X10: [updateTagMapping] only adds. Every entry of the mapping it starts
    from (the one of the configuration if that has entries, else the one of
    the file) keeps its value, and every entry afterwards is one of these or
    a new tag mapped to itself. The test is [tag in mapping], which also
    holds for the names that every object inherits ([constructor],
    [toString] and the like): every tag of the document is in the mapping
    afterwards in that sense, and the new tags are exactly the tags that
    were not, each reported once. The directory that [applyTagMapping]
    gives for a tag that is no inherited name is the same before and
    after. *)
Theorem updateTagMapping_only_adds
    (file : option (Record string)) (tags : list string) (configMapping : Record string) :
  let existing := TagUpdate.loadTagMapping file configMapping in
  let updated := TagUpdate.updateTagMapping file tags configMapping in
  (forall key v, lookup key existing = Some v ->
                 lookup key (TagUpdate.mapping updated) = Some v) /\
  (forall key v, lookup key (TagUpdate.mapping updated) = Some v ->
                 lookup key existing = Some v \/
                 (In key (TagUpdate.newTags updated) /\ v = key)) /\
  (forall tag, In tag tags -> TagUpdate.inObject tag (TagUpdate.mapping updated) = true) /\
  (forall tag, In tag (TagUpdate.newTags updated) <->
               In tag tags /\ TagUpdate.inObject tag existing = false) /\
  NoDup (TagUpdate.newTags updated) /\
  (forall tag, In tag (TagUpdate.newTags updated) ->
               lookup tag (TagUpdate.mapping updated) = Some tag) /\
  (forall tag, mem tag TagUpdate.objectPrototypeNames = false ->
               TagMapping.applyTagMapping tag (TagUpdate.mapping updated)
               = TagMapping.applyTagMapping tag existing) /\
  TagUpdate.newTags (TagUpdate.updateTagMapping None ["constructor"; "user"] [])
  = ["user"].
Proof.
  intros existing updated.
  destruct (updateTagMapping_newTags file tags configMapping) as [Hnew Hnd].
  fold existing updated in Hnew, Hnd.
  split; [|split; [|split; [|split; [|split; [|split; [|split]]]]]].
  - intros key v Hk. unfold updated. rewrite updateTagMapping_lookup.
    fold existing. now rewrite Hk.
  - intros key v. unfold updated at 1. rewrite updateTagMapping_lookup. fold existing.
    destruct (lookup key existing) as [w|] eqn:Ek; [now left|].
    destruct (mem key tags) eqn:Et; [|discriminate].
    destruct (mem key TagUpdate.objectPrototypeNames) eqn:Ei; [discriminate|].
    cbn [andb negb]. intros [= <-]. right. split; [|reflexivity].
    apply Hnew. split; [now apply mem_In|].
    unfold TagUpdate.inObject, TagUpdate.hasKey. now rewrite Ek, Ei.
  - apply updateTagMapping_inObject.
  - exact Hnew.
  - exact Hnd.
  - intros tag Ht. apply Hnew in Ht as [Ht Hk].
    unfold updated. rewrite updateTagMapping_lookup. fold existing.
    unfold TagUpdate.inObject, TagUpdate.hasKey in Hk.
    apply orb_false_iff in Hk as [Hown Hinh].
    destruct (lookup tag existing); [discriminate|].
    apply mem_In in Ht. now rewrite Ht, Hinh.
  - intros tag Hinh. unfold TagMapping.applyTagMapping, updated.
    rewrite updateTagMapping_lookup. fold existing.
    destruct (lookup tag existing); [reflexivity|].
    rewrite Hinh. destruct (mem tag tags); [|reflexivity].
    simpl. now destruct (String.eqb tag "").
  - reflexivity.
Qed.

(** X11: a second run finds nothing new when the mapping is kept in the file:
    run on the file that the first run left, [updateTagMapping] reports no
    new tag, returns the same mapping and leaves the file as it is. With a
    mapping in the configuration nothing is ever written. *)
Theorem updateTagMapping_second_run
    (file : option (Record string)) (tags : list string) :
  let first := TagUpdate.updateTagMapping file tags [] in
  let second := TagUpdate.updateTagMapping (TagUpdate.fileAfter first) tags [] in
  TagUpdate.newTags second = [] /\
  TagUpdate.mapping second = TagUpdate.mapping first /\
  TagUpdate.fileAfter second = TagUpdate.fileAfter first /\
  (forall configMapping, configMapping <> [] ->
     TagUpdate.fileAfter (TagUpdate.updateTagMapping file tags configMapping) = file).
Proof.
  intros first second.
  assert (Hconfig : forall configMapping, configMapping <> [] ->
            TagUpdate.fileAfter (TagUpdate.updateTagMapping file tags configMapping) = file).
  { intros [|e configMapping] H; [congruence|]. unfold TagUpdate.updateTagMapping.
    destruct (fold_left _ _ _) as [m [|t nt]]; reflexivity. }
  (* a loop over tags that are all in the mapping changes nothing *)
  assert (Hstable : forall ts m,
             (forall t, In t ts -> TagUpdate.inObject t m = true) ->
             fold_left TagUpdate.addTag ts (m, []) = (m, [])).
  { induction ts as [|t ts IH]; intros m H; simpl; [reflexivity|].
    unfold TagUpdate.addTag at 2. simpl. rewrite (H t (or_introl eq_refl)).
    apply IH. intros t' Ht'. apply H. now right. }
  pose proof (updateTagMapping_inObject file tags []) as Hall. fold first in Hall.
  destruct (updateTagMapping_newTags file tags []) as [Hnew _].
  fold first in Hnew. simpl in Hnew.
  assert (Hfile : TagUpdate.fileAfter first = file /\
                  TagUpdate.mapping first = TagUpdate.loadTagMappingFromFile file
                  \/ TagUpdate.fileAfter first = Some (TagUpdate.mapping first)).
  { assert (Hcase : TagUpdate.newTags first = [] \/
                    TagUpdate.fileAfter first = Some (TagUpdate.mapping first)).
    { unfold first, TagUpdate.updateTagMapping.
      destruct (fold_left _ _ _) as [m [|t nt]]; simpl; [now left | now right]. }
    destruct Hcase as [Hn|Hf]; [left | now right].
    assert (Hk : forall t, In t tags ->
                 TagUpdate.inObject t (TagUpdate.loadTagMappingFromFile file) = true).
    { intros t Ht.
      destruct (TagUpdate.inObject t (TagUpdate.loadTagMappingFromFile file)) eqn:Ek;
        [reflexivity|].
      exfalso. assert (Hin : In t (TagUpdate.newTags first)) by (apply Hnew; now split).
      rewrite Hn in Hin. exact Hin. }
    unfold first, TagUpdate.updateTagMapping. rewrite (Hstable tags _ Hk). now split. }
  assert (Hsame : fold_left TagUpdate.addTag tags
                    (TagUpdate.loadTagMappingFromFile (TagUpdate.fileAfter first), [])
                  = (TagUpdate.mapping first, [])).
  { destruct Hfile as [(Hf & Hm)|Hf].
    - rewrite Hf, <- Hm. apply Hstable. exact Hall.
    - rewrite Hf. simpl. apply Hstable. exact Hall. }
  assert (Hsecond : second = TagUpdate.mkTagUpdate (TagUpdate.mapping first) []
                                                  (TagUpdate.fileAfter first)).
  { unfold second, TagUpdate.updateTagMapping. rewrite Hsame. reflexivity. }
  rewrite Hsecond. simpl. split; [reflexivity|]. split; [reflexivity|]. split; [reflexivity|].
  exact Hconfig.
Qed.

(** X12: [extractAllTags] returns, sorted and without duplicates, exactly the
    first labels of the operations of the document that are not empty; an
    operation without such a label is filed under [default] by the parser,
    and that name is not among the tags unless an operation carries it.
    After [updateTagMapping] on these tags every labelled operation finds
    its label in the mapping: as a key of its own, unless the label is one
    of the names that every object inherits, for which no key is added. *)
Theorem extractAllTags_sorted_and_complete (paths : Record PathItem) :
  SortedByName (TagUpdate.extractAllTags paths) /\
  NoDup (TagUpdate.extractAllTags paths) /\
  (forall tag, In tag (TagUpdate.extractAllTags paths) <->
               exists operation, operationAt paths operation /\
                                 firstTag operation = Some tag) /\
  (forall operation, operationAt paths operation ->
     match firstTag operation with
     | Some tag =>
         originalTagOf operation = tag /\
         forall file configMapping,
           let updated :=
             TagUpdate.mapping
               (TagUpdate.updateTagMapping file (TagUpdate.extractAllTags paths)
                                           configMapping) in
           TagUpdate.inObject tag updated = true /\
           (mem tag TagUpdate.objectPrototypeNames = false ->
            TagUpdate.hasKey tag updated = true) /\
           (TagUpdate.hasKey tag (TagUpdate.loadTagMapping file configMapping) = false ->
            mem tag TagUpdate.objectPrototypeNames = true ->
            TagUpdate.hasKey tag updated = false)
     | None => originalTagOf operation = "default"
     end).
Proof.
  destruct (collectTags_spec paths) as [Hnd Hin].
  assert (Hmem : forall tag, In tag (TagUpdate.extractAllTags paths) <->
                             exists operation, operationAt paths operation /\
                                               firstTag operation = Some tag).
  { intros tag. rewrite <- Hin. unfold TagUpdate.extractAllTags. split; intros H.
    - apply (Permutation_in _ (Permutation_sym (sortStrings_perm _)) H).
    - apply (Permutation_in _ (sortStrings_perm _) H). }
  split; [apply sortStrings_sorted|]. split.
  - apply (Permutation_NoDup (sortStrings_perm _) Hnd).
  - split; [exact Hmem|]. intros operation Hop.
    destruct (firstTag operation) as [tag|] eqn:Et.
    + split.
      * unfold firstTag in Et. unfold originalTagOf.
        destruct (op_tags operation) as [[|t ?]|]; try discriminate.
        destruct (truthy (Some t)) eqn:Etr; [|discriminate]. injection Et as <-.
        simpl in *. destruct (String.eqb t ""); [discriminate | reflexivity].
      * intros file configMapping updated.
        assert (Htag : In tag (TagUpdate.extractAllTags paths))
          by (apply Hmem; now exists operation).
        pose proof (updateTagMapping_inObject file _ configMapping tag Htag) as Hobj.
        fold updated in Hobj. split; [exact Hobj|]. split.
        -- intros Hinh. unfold TagUpdate.inObject in Hobj. rewrite Hinh in Hobj.
           now rewrite orb_false_r in Hobj.
        -- intros Hown Hinh. unfold TagUpdate.hasKey, updated in *.
           rewrite updateTagMapping_lookup.
           destruct (lookup tag (TagUpdate.loadTagMapping file configMapping));
             [discriminate|].
           rewrite Hinh. cbn [negb]. now rewrite andb_false_r.
    + unfold firstTag in Et. unfold originalTagOf.
      destruct (op_tags operation) as [[|t ?]|]; try reflexivity.
      destruct (truthy (Some t)) eqn:Etr; [discriminate|].
      simpl in *. destruct (String.eqb t ""); [reflexivity | discriminate].
Qed.

(* ----------------------------------------------------------------- *)
(** ** The result of the parser *)

Section GroupFacts.

Variable T : Type.
Variable key : T -> string.

Lemma lookup_groupPush (g k : string) (x : T) (m : Record (list T)) :
  lookup g (groupPush k x m)
  = if String.eqb g k
    then Some (match lookup k m with Some l => l ++ [x] | None => [x] end)%list
    else lookup g m.
Proof.
  induction m as [|[k' l] m IH]; simpl.
  - destruct (String.eqb g k); reflexivity.
  - destruct (String.eqb k k') eqn:Ek; simpl.
    + apply String.eqb_eq in Ek. subst k'. destruct (String.eqb g k); reflexivity.
    + rewrite IH. destruct (String.eqb g k') eqn:Eg; [|reflexivity].
      apply String.eqb_eq in Eg. subst k'.
      destruct (String.eqb g k) eqn:E; [|reflexivity].
      apply String.eqb_eq in E. subst k. now rewrite String.eqb_refl in Ek.
Qed.

Lemma keys_groupPush (k : string) (x : T) (m : Record (list T)) :
  map fst (groupPush k x m)
  = if mem k (map fst m) then map fst m else (map fst m ++ [k])%list.
Proof.
  induction m as [|[k' l] m IH]; simpl; [reflexivity|].
  destruct (String.eqb k k'); simpl; [reflexivity|].
  rewrite IH. now destruct (mem k (map fst m)).
Qed.

Lemma keys_groupPush_NoDup (k : string) (x : T) (m : Record (list T)) :
  NoDup (map fst m) -> NoDup (map fst (groupPush k x m)).
Proof.
  intros H. rewrite keys_groupPush. destruct (mem k (map fst m)) eqn:E; [exact H|].
  apply (Permutation_NoDup (l := k :: map fst m)); [apply Permutation_cons_append|].
  constructor; [now apply mem_false_In | exact H].
Qed.

(** The groups after all the elements of a list are pushed. *)
Lemma lookup_grouped (xs : list T) (m : Record (list T)) (g : string) :
  lookup g (fold_left (fun m x => groupPush (key x) x m) xs m)
  = match lookup g m with
    | Some l => Some (l ++ filter (fun x => String.eqb (key x) g) xs)%list
    | None => groupOf key g xs
    end.
Proof.
  revert m. induction xs as [|x xs IH]; intros m; simpl.
  - destruct (lookup g m); [now rewrite app_nil_r | reflexivity].
  - rewrite IH, lookup_groupPush. unfold groupOf. simpl.
    rewrite (String.eqb_sym (key x) g).
    destruct (String.eqb g (key x)) eqn:E.
    + apply String.eqb_eq in E. subst g.
      destruct (lookup (key x) m); [now rewrite <- app_assoc | reflexivity].
    + reflexivity.
Qed.

Lemma keys_grouped_NoDup (xs : list T) (m : Record (list T)) :
  NoDup (map fst m) ->
  NoDup (map fst (fold_left (fun m x => groupPush (key x) x m) xs m)).
Proof.
  revert m. induction xs as [|x xs IH]; intros m H; simpl; [exact H|].
  apply IH. now apply keys_groupPush_NoDup.
Qed.

Lemma lookup_NoDup (m : Record (list T)) (k : string) (l : list T) :
  NoDup (map fst m) -> In (k, l) m -> lookup k m = Some l.
Proof.
  induction m as [|[k' l'] m IH]; simpl; [tauto|].
  intros Hnd [H|H].
  - injection H as -> ->. now rewrite String.eqb_refl.
  - inversion Hnd as [|? ? Hk Hm]; subst.
    destruct (String.eqb k k') eqn:E; [|now apply IH].
    apply String.eqb_eq in E. subst k'. exfalso. apply Hk.
    apply (in_map fst) in H. exact H.
Qed.

End GroupFacts.

Section UsedRefsFacts.

Lemma setAddAll_In (refs s : list string) (r : string) :
  In r (setAddAll refs s) <-> In r s \/ In r refs.
Proof.
  unfold setAddAll. revert s. induction refs as [|x refs IH]; intros s; simpl; [tauto|].
  rewrite IH, setAdd_In. intuition congruence.
Qed.

Lemma setAddAll_app (l1 l2 s : list string) :
  setAddAll (l1 ++ l2) s = setAddAll l2 (setAddAll l1 s).
Proof. unfold setAddAll. apply fold_left_app. Qed.

Lemma uniform_In {A : Type} (F : list string -> A * list string) (s : list string) :
  Uniform F ->
  fst (F s) = fst (F []) /\
  forall r, In r (snd (F s)) <-> In r s \/ In r (snd (F [])).
Proof.
  intros (a & refs & H). rewrite !H. simpl. split; [reflexivity|].
  intros r. rewrite !setAddAll_In. simpl. tauto.
Qed.

Ltac uniform_leaf :=
  first [ now (eexists _, []; intros; reflexivity)
        | now (eexists _, [_]; intros; reflexivity)
        | now (eexists _, [_; _]; intros; reflexivity) ].

Lemma extractUnwrappedTypeWith_uniform
    (prefix ref unwrapField : string) (definitions : Record SchemaObject) (config : Config) :
  Uniform (extractUnwrappedTypeWith prefix ref unwrapField definitions config).
Proof.
  unfold Uniform, extractUnwrappedTypeWith.
  destruct (lookup (stripPrefix prefix ref) definitions) as [schema|]; [|uniform_leaf].
  destruct (match schema_properties schema with
            | Some props => lookup unwrapField props
            | None => None
            end) as [fieldSchema|]; [|uniform_leaf].
  destruct (truthy (schema_ref fieldSchema)); [uniform_leaf|].
  destruct (strictEq (schema_type fieldSchema) "array" && _); uniform_leaf.
Qed.

Lemma unwrapAllOfItem_uniform (prefix : string) (config : Config) (item : SchemaObject) :
  exists (g : option string -> option string) (refs : list string),
    forall name s,
      unwrapAllOfItem prefix config (name, s) item = (g name, setAddAll refs s).
Proof.
  unfold unwrapAllOfItem.
  destruct (truthy (schema_ref item));
    (destruct (unwrapResponseField config) as [unwrapField|];
     [destruct (truthy (Some unwrapField));
      [destruct (match schema_properties item with
                 | Some props => lookup unwrapField props
                 | None => None
                 end) as [dataSchema|];
       [destruct (truthy (schema_ref dataSchema));
        [|destruct (truthy (schema_type dataSchema))]|]|]|]);
    first [ now (exists (fun name => name), []; intros; reflexivity)
          | now (exists (fun name => name), [_]; intros; reflexivity)
          | now (eexists (fun _ => _), []; intros; reflexivity)
          | now (eexists (fun _ => _), [_]; intros; reflexivity)
          | now (eexists (fun _ => _), [_; _]; intros; reflexivity) ].
Qed.

Lemma unwrapAllOf_uniform (prefix : string) (config : Config) (members : list SchemaObject) :
  exists (g : option string -> option string) (refs : list string),
    forall name s,
      fold_left (unwrapAllOfItem prefix config) members (name, s)
      = (g name, setAddAll refs s).
Proof.
  induction members as [|item members (g & refs & IH)].
  - exists (fun name => name), []. reflexivity.
  - destruct (unwrapAllOfItem_uniform prefix config item) as (g1 & refs1 & H1).
    exists (fun name => g (g1 name)), (refs1 ++ refs)%list. intros name s.
    cbn [fold_left]. now rewrite H1, IH, setAddAll_app.
Qed.

Lemma resolveResponseWith_uniform
    (prefix : string) (responseSchema : SchemaObject)
    (definitions : Record SchemaObject) (config : Config) :
  Uniform (resolveResponseWith prefix responseSchema definitions config).
Proof.
  unfold Uniform, resolveResponseWith.
  destruct (schema_allOf responseSchema) as [members|].
  - destruct (unwrapAllOf_uniform prefix config members) as (g & refs & H).
    exists (g None), refs. intros s. apply H.
  - destruct (truthy (schema_ref responseSchema)).
    + destruct (truthy (unwrapResponseField config)); [|uniform_leaf].
      destruct (extractUnwrappedTypeWith_uniform prefix
                  (orElse (schema_ref responseSchema) "")
                  (orElse (unwrapResponseField config) "") definitions config)
        as (a & refs & H).
      exists a, (orElse (schema_ref responseSchema) "" :: refs). intros s.
      now rewrite H.
    + destruct (schema_properties responseSchema) as [props|]; [|uniform_leaf].
      destruct (truthy (unwrapResponseField config)); [|uniform_leaf].
      destruct (lookup _ props) as [dataSchema|]; [|uniform_leaf].
      destruct (truthy (schema_ref dataSchema)); [uniform_leaf|].
      destruct (truthy (schema_type dataSchema)); uniform_leaf.
Qed.

Lemma parseParameters_uniform (config : Config) (params : list ParameterObject) :
  forall pathParams queryParams bodySchema bodyTypeName,
  exists pathParams' queryParams' bodySchema' bodyTypeName' refs,
    forall s,
      fold_left (parseParameter config) params
                (mkParamState pathParams queryParams bodySchema bodyTypeName s)
      = mkParamState pathParams' queryParams' bodySchema' bodyTypeName' (setAddAll refs s).
Proof.
  induction params as [|param params IH]; intros pp qp bs bn.
  - exists pp, qp, bs, bn, []. reflexivity.
  - assert (Hstep : exists pp1 qp1 bs1 bn1 refs1, forall s,
               parseParameter config (mkParamState pp qp bs bn s) param
               = mkParamState pp1 qp1 bs1 bn1 (setAddAll refs1 s)).
    { unfold parseParameter. simpl.
      destruct (String.eqb (param_in param) "path");
        [now (eexists _, _, _, _, []; intros; reflexivity)|].
      destruct (String.eqb (param_in param) "query");
        [now (eexists _, _, _, _, []; intros; reflexivity)|].
      destruct (String.eqb (param_in param) "body");
        [|now (eexists _, _, _, _, []; intros; reflexivity)].
      destruct (param_schema param) as [schema|];
        [|now (eexists _, _, _, _, []; intros; reflexivity)].
      destruct (truthy (schema_ref schema)).
      - now (eexists _, _, _, _, [_]; intros; reflexivity).
      - now (eexists _, _, _, _, []; intros; reflexivity). }
    destruct Hstep as (pp1 & qp1 & bs1 & bn1 & refs1 & H1).
    destruct (IH pp1 qp1 bs1 bn1) as (pp' & qp' & bs' & bn' & refs & H).
    exists pp', qp', bs', bn', (refs1 ++ refs)%list. intros s.
    cbn [fold_left]. now rewrite H1, H, setAddAll_app.
Qed.

Lemma parseOperation_uniform
    (path method : string) (operation : Operation) (config : Config)
    (definitions : Record SchemaObject) (tagMapping : Record string) :
  Uniform (fun s => parseOperation path method operation config s definitions tagMapping).
Proof.
  unfold Uniform, parseOperation.
  destruct (parseParameters_uniform config
              (match op_parameters operation with Some l => l | None => [] end)
              [] [] None None) as (pp & qp & bs & bn & refs & H).
  destruct (match successResponseOf operation with
            | Some r => response_schema r
            | None => None
            end) as [schema|].
  - destruct (resolveResponseWith_uniform definitionsPrefix schema definitions config)
      as (name & refs' & H').
    eexists _, (refs ++ refs')%list. intros s. rewrite H.
    cbn [ps_pathParams ps_queryParams ps_bodySchema ps_bodyTypeName ps_usedRefs].
    rewrite H', setAddAll_app. reflexivity.
  - eexists _, refs. intros s. rewrite H.
    cbn [ps_pathParams ps_queryParams ps_bodySchema ps_bodyTypeName ps_usedRefs].
    reflexivity.
Qed.

Lemma parseOpenAPI3Operation_uniform
    (path method : string) (operation : Operation) (config : Config)
    (schemas : Record SchemaObject) (tagMapping : Record string) :
  Uniform (fun s => parseOpenAPI3Operation path method operation config s schemas tagMapping).
Proof.
  unfold Uniform, parseOpenAPI3Operation.
  destruct (fold_left parseParameter3 _ _) as [pathParams queryParams].
  set (bodySchema := match op_requestBody operation with
                     | Some body => _
                     | None => None
                     end).
  set (responseSchema := match successResponseOf operation with
                         | Some r => _
                         | None => None
                         end).
  assert (Hbody : exists name refs, forall s,
             match bodySchema with
             | Some schema =>
                 if truthy (schema_ref schema)
                 then (Some (cleanTypeName (stripPrefix schemasPrefix
                                              (orElse (schema_ref schema) ""))
                                           (typeNameSuffixFilter config)),
                       setAdd (orElse (schema_ref schema) "") s)
                 else (None, s)
             | None => (None, s)
             end = (name, setAddAll refs s)).
  { destruct bodySchema as [schema|]; [|uniform_leaf].
    destruct (truthy (schema_ref schema)); uniform_leaf. }
  destruct Hbody as (bodyName & refs & H).
  destruct responseSchema as [schema|].
  - destruct (resolveResponseWith_uniform schemasPrefix schema schemas config)
      as (name & refs' & H').
    eexists _, (refs ++ refs')%list. intros s. rewrite H, H', setAddAll_app. reflexivity.
  - eexists _, refs. intros s. rewrite H. reflexivity.
Qed.

Lemma parseOne_uniform (spec : APISpec) (config : Config) (tagMapping : Record string)
    (o : string * string * Operation) :
  Uniform (parseOne spec config tagMapping o).
Proof.
  unfold parseOne. destruct (isOpenAPI3 spec).
  - apply parseOpenAPI3Operation_uniform.
  - apply parseOperation_uniform.
Qed.

End UsedRefsFacts.

Section NamedRefsFacts.

Variable r : string.

Lemma refOf_In (schema : SchemaObject) (s : list string) :
  In r (if truthy (schema_ref schema) then setAdd (orElse (schema_ref schema) "") s else s)
  <-> In r s \/ In r (refOf schema).
Proof.
  unfold refOf. destruct (truthy (schema_ref schema)); [|simpl; tauto].
  rewrite setAdd_In. simpl. intuition congruence.
Qed.

Lemma unwrapAllOfItem_refs (prefix : string) (config : Config)
    (st : option string * list string) (item : SchemaObject) :
  In r (snd (unwrapAllOfItem prefix config st item))
  <-> In r (snd st) \/
      In r (refOf item ++ match unwrapFieldIn config item with
                          | Some data => refOf data
                          | None => []
                          end).
Proof.
  destruct st as [name s]. unfold unwrapAllOfItem, unwrapFieldIn. cbn [snd].
  rewrite in_app_iff.
  pose proof (refOf_In item s) as Hitem.
  set (s1 := if truthy (schema_ref item) then _ else s) in *.
  destruct (unwrapResponseField config) as [unwrapField|]; cbn [snd];
    [|rewrite Hitem; simpl; tauto].
  destruct (truthy (Some unwrapField)); cbn [snd]; [|rewrite Hitem; simpl; tauto].
  destruct (match schema_properties item with
            | Some props => lookup unwrapField props
            | None => None
            end) as [data|]; cbn [snd]; [|rewrite Hitem; simpl; tauto].
  unfold refOf at 2.
  destruct (truthy (schema_ref data)); cbn [snd].
  - rewrite setAdd_In, Hitem. simpl. intuition congruence.
  - destruct (truthy (schema_type data)); cbn [snd]; rewrite Hitem; simpl; tauto.
Qed.

Lemma resolveResponseWith_refs (prefix : string) (responseSchema : SchemaObject)
    (definitions : Record SchemaObject) (config : Config) (s : list string) :
  In r (snd (resolveResponseWith prefix responseSchema definitions config s))
  <-> In r s \/ In r (responseRefs prefix definitions config responseSchema).
Proof.
  unfold resolveResponseWith, responseRefs.
  destruct (schema_allOf responseSchema) as [members|].
  - assert (H : forall members st,
               In r (snd (fold_left (unwrapAllOfItem prefix config) members st))
               <-> In r (snd st) \/
                   In r (flat_map
                           (fun item =>
                              (refOf item ++
                               match unwrapFieldIn config item with
                               | Some data => refOf data
                               | None => []
                               end)%list) members)).
    { clear members. induction members as [|item members IH]; intros st.
      - simpl. tauto.
      - cbn [fold_left flat_map]. rewrite IH, unwrapAllOfItem_refs, !in_app_iff.
        tauto. }
    apply (H members (None, s)).
  - destruct (truthy (schema_ref responseSchema)) eqn:Eref.
    + set (ref := orElse (schema_ref responseSchema) "").
      unfold unwrapFieldIn.
      destruct (unwrapResponseField config) as [unwrapField|]; cbn [truthy orElse].
      2:{ cbn [snd]. rewrite setAdd_In.
          destruct (lookup (stripPrefix prefix ref) definitions); simpl; intuition congruence. }
      destruct (String.eqb unwrapField "") eqn:Efield; cbn [negb].
      { cbn [snd]. rewrite setAdd_In.
        destruct (lookup (stripPrefix prefix ref) definitions); simpl; intuition congruence. }
      unfold extractUnwrappedTypeWith.
      destruct (lookup (stripPrefix prefix ref) definitions) as [envelope|]; cbn [snd].
      2:{ rewrite setAdd_In. simpl. intuition congruence. }
      destruct (match schema_properties envelope with
                | Some props => lookup unwrapField props
                | None => None
                end) as [field|]; cbn [snd].
      2:{ rewrite setAdd_In. simpl. intuition congruence. }
      unfold refOf.
      destruct (truthy (schema_ref field)); cbn [snd].
      { rewrite !setAdd_In. simpl. intuition congruence. }
      destruct (strictEq (schema_type field) "array"); cbn [andb snd].
      2:{ rewrite setAdd_In. simpl. intuition congruence. }
      destruct (schema_items field) as [items|]; cbn [truthy snd].
      2:{ rewrite setAdd_In. simpl. intuition congruence. }
      destruct (truthy (schema_ref items)); cbn [snd].
      * rewrite !setAdd_In. simpl. intuition congruence.
      * rewrite setAdd_In. simpl. intuition congruence.
    + unfold unwrapFieldIn.
      destruct (schema_properties responseSchema) as [props|].
      2:{ destruct (unwrapResponseField config) as [f|]; [destruct (truthy (Some f))|];
          simpl; tauto. }
      destruct (unwrapResponseField config) as [unwrapField|]; cbn [truthy orElse].
      2:{ simpl. tauto. }
      destruct (String.eqb unwrapField ""); cbn [negb]; [simpl; tauto|].
      destruct (lookup unwrapField props) as [data|]; [|simpl; tauto].
      unfold refOf. destruct (truthy (schema_ref data)); cbn [snd].
      * rewrite setAdd_In. simpl. intuition congruence.
      * destruct (truthy (schema_type data)); simpl; tauto.
Qed.

Lemma parseParameters_refs (config : Config) (params : list ParameterObject)
    (st : ParamState) :
  In r (ps_usedRefs (fold_left (parseParameter config) params st))
  <-> In r (ps_usedRefs st) \/
      In r (flat_map
              (fun param =>
                 if String.eqb (param_in param) "body" then
                   match param_schema param with
                   | Some schema => refOf schema
                   | None => []
                   end
                 else [])
              params).
Proof.
  revert st. induction params as [|param params IH]; intros st.
  - simpl. tauto.
  - cbn [fold_left flat_map]. rewrite IH, in_app_iff.
    assert (Hstep : In r (ps_usedRefs (parseParameter config st param))
                    <-> In r (ps_usedRefs st) \/
                        In r (if String.eqb (param_in param) "body" then
                                match param_schema param with
                                | Some schema => refOf schema
                                | None => []
                                end
                              else [])).
    { unfold parseParameter.
      destruct (String.eqb (param_in param) "path") eqn:Epath.
      { apply String.eqb_eq in Epath. rewrite Epath. simpl. tauto. }
      destruct (String.eqb (param_in param) "query") eqn:Equery.
      { apply String.eqb_eq in Equery. rewrite Equery. simpl. tauto. }
      destruct (String.eqb (param_in param) "body"); [|simpl; tauto].
      destruct (param_schema param) as [schema|]; [|simpl; tauto].
      unfold refOf. destruct (truthy (schema_ref schema)); cbn [ps_usedRefs].
      - rewrite setAdd_In. simpl. intuition congruence.
      - simpl. tauto. }
    rewrite Hstep. tauto.
Qed.

End NamedRefsFacts.

(** The references that the parser records for an operation are those that
    the operation names in the places the parser reads. *)
Lemma usedByOperation_named
    (spec : APISpec) (config : Config) (tagMapping : Record string)
    (o : string * string * Operation) (r : string) :
  In r (usedByOperation spec config tagMapping o) <-> In r (namedRefs spec config (snd o)).
Proof.
  destruct o as [[path method] operation].
  unfold usedByOperation, parseOne, namedRefs, bodyRefs, responseSchemaOf,
    dialectPrefix. cbn [fst snd].
  rewrite in_app_iff.
  destruct (isOpenAPI3 spec).
  - unfold parseOpenAPI3Operation.
    destruct (fold_left parseParameter3 _ _) as [pathParams queryParams].
    set (bodySchema := match op_requestBody operation with
                       | Some body => _
                       | None => None
                       end).
    assert (Hbody : forall x,
               In x (match op_requestBody operation with
                     | Some body =>
                         match body_content body with
                         | Some content =>
                             match jsonContentOf content with
                             | Some m =>
                                 match media_schema m with
                                 | Some schema => refOf schema
                                 | None => []
                                 end
                             | None => []
                             end
                         | None => []
                         end
                     | None => []
                     end)
               <-> In x (match bodySchema with Some schema => refOf schema | None => [] end)).
    { intros x. unfold bodySchema.
      destruct (op_requestBody operation) as [body|]; [|tauto].
      destruct (body_content body) as [content|]; [|tauto].
      destruct (jsonContentOf content) as [m|]; tauto. }
    rewrite Hbody. clear Hbody.
    set (responseSchema := match successResponseOf operation with
                           | Some resp => _
                           | None => None
                           end).
    assert (Hu1 : forall name used,
               match bodySchema with
               | Some schema =>
                   if truthy (schema_ref schema)
                   then (Some (cleanTypeName
                                 (stripPrefix schemasPrefix (orElse (schema_ref schema) ""))
                                 (typeNameSuffixFilter config)),
                         setAdd (orElse (schema_ref schema) "") [])
                   else (None, [])
               | None => (None, [])
               end = (name, used) ->
               (In r used
                <-> In r (match bodySchema with Some schema => refOf schema | None => [] end))).
    { intros name used. destruct bodySchema as [schema|]; [|intros [= _ <-]; tauto].
      unfold refOf. destruct (truthy (schema_ref schema)); intros [= _ <-]; [|tauto].
      rewrite setAdd_In. simpl. intuition congruence. }
    destruct (match bodySchema with
              | Some schema => _
              | None => (None, [])
              end) as [bodyTypeName usedRefs1] eqn:Ebody.
    specialize (Hu1 _ _ eq_refl).
    destruct responseSchema as [rs|].
    + destruct (resolveResponseWith schemasPrefix rs (dialectSchemas spec) config usedRefs1)
        as [name used] eqn:E.
      cbn [snd].
      pose proof (resolveResponseWith_refs r schemasPrefix rs (dialectSchemas spec)
                    config usedRefs1) as H.
      rewrite E in H. cbn [snd] in H. rewrite H, Hu1. tauto.
    + cbn [snd]. rewrite Hu1. simpl. tauto.
  - unfold parseOperation.
    set (st := fold_left (parseParameter config) _ _).
    pose proof (parseParameters_refs r config
                  (match op_parameters operation with Some l => l | None => [] end)
                  (mkParamState [] [] None None [])) as Hst.
    fold st in Hst. cbn [ps_usedRefs] in Hst.
    assert (Hresp : match successResponseOf operation with
                    | Some resp => response_schema resp
                    | None => None
                    end
                    = match successResponseOf operation with
                      | Some resp => response_schema resp
                      | None => None
                      end) by reflexivity.
    destruct (match successResponseOf operation with
              | Some resp => response_schema resp
              | None => None
              end) as [rs|].
    + destruct (resolveResponseWith definitionsPrefix rs (dialectSchemas spec) config
                  (ps_usedRefs st)) as [name used] eqn:E.
      cbn [snd].
      pose proof (resolveResponseWith_refs r definitionsPrefix rs (dialectSchemas spec)
                    config (ps_usedRefs st)) as H.
      rewrite E in H. cbn [snd] in H. rewrite H, Hst. simpl. tauto.
    + cbn [snd]. rewrite Hst. simpl. tauto.
Qed.

Section ParsePathsFacts.

Variable parseO : string * string * Operation -> list string -> ParsedAPI * list string.
Variable config : Config.

Let parseOp (path method : string) (operation : Operation) (s : list string) :=
  parseO (path, method, operation) s.

(** One turn of the loops of the parser for an operation that passes the
    filter. *)
Let step (st : ApiState) (o : string * string * Operation) : ApiState :=
  let (parsedAPI, usedRefs) := parseO o (snd st) in
  (groupPush (api_tag parsedAPI) parsedAPI (fst st), usedRefs).

Lemma parsePaths_included (paths : Record PathItem) :
  parsePaths parseOp config paths
  = fold_left step (includedOperations config paths) ([], []).
Proof.
  unfold parsePaths, includedOperations, operationsOf.
  generalize (([], []) : ApiState).
  induction paths as [|[path item] paths IH]; intros st; [reflexivity|].
  cbn [fold_left flat_map fst snd]. rewrite filter_app, fold_left_app, IH. f_equal.
  clear IH. revert st.
  induction methods as [|method ms IH]; intros st; [reflexivity|].
  cbn [fold_left flat_map]. rewrite filter_app, fold_left_app, IH. f_equal.
  unfold parseMethod. destruct (operationOf item method) as [operation|]; [|reflexivity].
  cbn [filter snd fst]. destruct (shouldIncludeTag (originalTagOf operation) config);
    reflexivity.
Qed.

Hypothesis uniform : forall o, Uniform (parseO o).

Lemma included_fold (ops : list (string * string * Operation)) (st : ApiState) :
  fst (fold_left step ops st)
  = fold_left (fun g x => groupPush (api_tag x) x g)
              (map (fun o => fst (parseO o [])) ops) (fst st) /\
  forall r, In r (snd (fold_left step ops st)) <->
            In r (snd st) \/ exists o, In o ops /\ In r (snd (parseO o [])).
Proof.
  revert st. induction ops as [|o ops IH]; intros st.
  - split; [reflexivity|]. intros r. split; [tauto|]. intros [H|(o & [] & _)]. exact H.
  - cbn [fold_left map]. destruct (IH (step st o)) as [Hg Hr].
    destruct (uniform_In (parseO o) (snd st) (uniform o)) as [Hfst Hsnd].
    assert (Hstep : fst (step st o)
                    = groupPush (api_tag (fst (parseO o []))) (fst (parseO o [])) (fst st)
                    /\ snd (step st o) = snd (parseO o (snd st))).
    { unfold step. rewrite <- Hfst. now destruct (parseO o (snd st)). }
    destruct Hstep as [Hs1 Hs2]. split.
    + now rewrite Hg, Hs1.
    + intros r. rewrite Hr, Hs2, Hsnd. split.
      * intros [[H|H]|(o' & Ho' & H)]; [tauto | | ].
        -- right. exists o. split; [now left | exact H].
        -- right. exists o'. split; [now right | exact H].
      * intros [H|(o' & [<-|Ho'] & H)]; [tauto | tauto |].
        right. now exists o'.
Qed.

End ParsePathsFacts.

Section ParseResultFacts.

Variable spec : APISpec.
Variable config : Config.
Variable tagMapping : Record string.

(** The two dialects, seen as one parser. *)
Lemma parseSwagger_dialect :
  apis (parseSwagger spec config tagMapping)
  = fst (parsePaths (fun path method operation s =>
                       parseOne spec config tagMapping (path, method, operation) s)
                    config (spec_paths spec)) /\
  Permutation
    (allTypes (types (parseSwagger spec config tagMapping)))
    (flat_map (contribution (dialectPrefix spec) (dialectSchemas spec) config)
       (drainRefs (dialectPrefix spec) (dialectSchemas spec)
          (snd (parsePaths (fun path method operation s =>
                              parseOne spec config tagMapping (path, method, operation) s)
                           config (spec_paths spec))))) /\
  types (parseSwagger spec config tagMapping)
  = match (if isOpenAPI3 spec then Some (dialectSchemas spec) else spec_definitions spec) with
    | Some _ =>
        parseTypes (dialectPrefix spec) (dialectSchemas spec) config
          (drainRefs (dialectPrefix spec) (dialectSchemas spec)
             (snd (parsePaths (fun path method operation s =>
                                 parseOne spec config tagMapping (path, method, operation) s)
                              config (spec_paths spec))))
    | None => []
    end.
Proof.
  unfold parseSwagger, parseOne, dialectPrefix, dialectSchemas.
  destruct (isOpenAPI3 spec).
  - unfold parseOpenAPI3. cbn [fst snd].
    destruct (parsePaths _ config (spec_paths spec)) as [g u]. cbn [apis types fst snd].
    split; [reflexivity|]. split; [apply allTypes_parseTypes | reflexivity].
  - unfold parseSwagger2. cbn [fst snd].
    destruct (parsePaths _ config (spec_paths spec)) as [g u].
    destruct (spec_definitions spec) as [definitions|]; cbn [apis types fst snd].
    + split; [reflexivity|]. split; [apply allTypes_parseTypes | reflexivity].
    + split; [reflexivity|]. split; [|reflexivity]. unfold allTypes. simpl.
      induction (drainRefs _ _ _) as [|r l IH]; [constructor | exact IH].
Qed.

End ParseResultFacts.

(** X13: [parseSwagger] files every operation that passes the tag filter, and
    nothing else, under the directory of its tag: the group of a directory
    holds the functions parsed from the operations with that tag, in the
    order of the document, a directory occurs once, and no group is empty.
    This holds of the documents on which the lookups of the parser find own
    members only; a label such as [constructor] without an entry in the tag
    mapping makes the parser fail. *)
Theorem parseSwagger_files_operations_by_tag
    (spec : APISpec) (config : Config) (tagMapping : Record string) :
  OwnLookups spec config tagMapping ->
  let result := parseSwagger spec config tagMapping in
  let parsed :=
    map (parsedFunction spec config tagMapping)
        (includedOperations config (spec_paths spec)) in
  NoDup (map fst (apis result)) /\
  (forall tag, lookup tag (apis result) = groupOf api_tag tag parsed) /\
  (forall tag group, In (tag, group) (apis result) ->
     group <> [] /\ forall api, In api group -> api_tag api = tag).
Proof.
  intros _ result parsed.
  destruct (parseSwagger_dialect spec config tagMapping) as (Hapis & _).
  fold result in Hapis.
  rewrite (parsePaths_included (parseOne spec config tagMapping) config) in Hapis.
  destruct (included_fold (parseOne spec config tagMapping)
              (parseOne_uniform spec config tagMapping)
              (includedOperations config (spec_paths spec)) ([], [])) as [Hg _].
  rewrite Hg in Hapis. cbn [fst] in Hapis. fold (parsedFunction spec config tagMapping) in Hapis.
  change (map (fun o => fst (parseOne spec config tagMapping o [])) _) with parsed in Hapis.
  assert (Hnd : NoDup (map fst (apis result))).
  { rewrite Hapis. apply keys_grouped_NoDup. constructor. }
  assert (Hlookup : forall tag, lookup tag (apis result) = groupOf api_tag tag parsed).
  { intros tag. rewrite Hapis. apply (lookup_grouped ParsedAPI api_tag parsed [] tag). }
  split; [exact Hnd|]. split; [exact Hlookup|].
  intros tag group Hin.
  pose proof (lookup_NoDup _ _ _ _ Hnd Hin) as Hl. rewrite Hlookup in Hl.
  unfold groupOf in Hl.
  destruct (filter (fun x => String.eqb (api_tag x) tag) parsed) as [|a l] eqn:Ef;
    [discriminate|].
  injection Hl as <-. split; [discriminate|].
  intros api Ha. rewrite <- Ef in Ha. apply filter_In in Ha as [_ Ha].
  now apply String.eqb_eq.
Qed.

Section ReachableFacts.

Variable prefix : string.
Variable definitions : Record SchemaObject.

Lemma Reachable_same_used (used used' : list string) (r : string) :
  (forall x, In x used -> In x used') ->
  Reachable prefix definitions used r -> Reachable prefix definitions used' r.
Proof.
  intros H. induction 1 as [r Hr | r r' schema _ IH Hl Hr'].
  - apply Reachable_used. now apply H.
  - now apply (Reachable_step _ _ _ r r' schema).
Qed.

Lemma drainRefs_reachable (used : list string) (r : string) :
  In r (drainRefs prefix definitions used) <-> Reachable prefix definitions used r.
Proof.
  destruct (drainLoop_ends prefix definitions used (drainBound prefix definitions used)
              (mkDrain used [])
              (invariant_initial prefix definitions used)
              (measure_initial prefix definitions used))
    as (Hend & Hinv & _).
  unfold drainRefs. split.
  - intros H. apply (inv_sound _ _ _ _ Hinv). now right.
  - now apply closed_reachable.
Qed.

(** [parseTypes] groups the contributions of the processed references by
    the module of their name. *)
Lemma parseTypes_grouped (config : Config) (processed : list string) :
  parseTypes prefix definitions config processed
  = fold_left
      (fun m t => groupPush (getModuleFromTypeName (type_originalName t)) t m)
      (flat_map (contribution prefix definitions config) processed) [].
Proof.
  unfold parseTypes. generalize ([] : Record (list ParsedType)).
  induction processed as [|ref processed IH]; intros m; [reflexivity|].
  cbn [fold_left flat_map]. rewrite fold_left_app, IH. f_equal.
  unfold contribution. now destruct (lookup (stripPrefix prefix ref) definitions).
Qed.

End ReachableFacts.

(** X14: [parseSwagger] emits exactly the types that can be reached from the
    references that the operations passing the tag filter name in the places
    the parser reads: the schema of a body parameter or of the request body,
    the response schema, the members of its [allOf] and their unwrap field,
    and the unwrap field of the envelope that the response refers to, or the
    items of that field when it is an array. These are the references that
    the parser records. A definition becomes a type if and only if such a
    reference names it, or a reference in the schema of a definition reached
    that way. Every type is filed under the module of its name, a module
    occurs once, and no module is empty. The items of a response that is
    itself an array are not read: a document whose only operation answers
    with an array of users gets no type at all. All this holds of the
    documents on which the lookups of the parser find own members only. *)
Theorem parseSwagger_emits_the_reachable_types
    (spec : APISpec) (config : Config) (tagMapping : Record string) :
  OwnLookups spec config tagMapping ->
  let result := parseSwagger spec config tagMapping in
  let prefix := dialectPrefix spec in
  let schemas := dialectSchemas spec in
  let used := namedByDocument spec config in
  (forall t, In t (allTypes (types result)) <->
             exists ref schema,
               Reachable prefix schemas used ref /\
               lookup (stripPrefix prefix ref) schemas = Some schema /\
               t = parseType (stripPrefix prefix ref) schema config) /\
  NoDup (map fst (types result)) /\
  (forall moduleName group, In (moduleName, group) (types result) ->
     group <> [] /\
     forall t, In t group -> getModuleFromTypeName (type_originalName t) = moduleName) /\
  (forall ref, In ref (usedByDocument spec config tagMapping) <-> In ref used) /\
  (forall anyPrefix definitions items,
      responseRefs anyPrefix definitions config (arraySchema items) = []) /\
  types (parseSwagger listUsersSpec defaultConfig []) = [].
Proof.
  intros _ result prefix schemas used.
  destruct (parseSwagger_dialect spec config tagMapping) as (_ & Hperm & Htypes).
  fold result prefix schemas in Hperm, Htypes.
  rewrite (parsePaths_included (parseOne spec config tagMapping) config) in Hperm, Htypes.
  destruct (included_fold (parseOne spec config tagMapping)
              (parseOne_uniform spec config tagMapping)
              (includedOperations config (spec_paths spec)) ([], [])) as [_ Hused].
  match type of Hused with
  | forall r, In r ?X <-> _ => set (refs := X) in Hperm, Htypes, Hused
  end.
  assert (Hrecorded : forall r, In r (usedByDocument spec config tagMapping) <-> In r used).
  { intros r. unfold used, usedByDocument, namedByDocument. rewrite !in_flat_map.
    split; intros (o & Ho & Hr); exists o; (split; [exact Ho|]);
      now apply (usedByOperation_named spec config tagMapping o r). }
  assert (Hsame : forall r, In r refs <-> In r used).
  { intros r. rewrite <- Hrecorded, Hused. unfold usedByDocument. rewrite in_flat_map.
    simpl. unfold usedByOperation. tauto. }
  split; [|split; [|split; [|split; [exact Hrecorded|split; [|reflexivity]]]]].
  - intros t. split.
    + intros H. apply (Permutation_in _ Hperm) in H. apply in_flat_map in H as (ref & Hr & Ht).
      apply drainRefs_reachable in Hr.
      unfold contribution in Ht.
      destruct (lookup (stripPrefix prefix ref) schemas) as [schema|] eqn:El; [|contradiction].
      destruct Ht as [<-|[]]. exists ref, schema. split; [|now split].
      apply (Reachable_same_used _ _ refs); [apply Hsame | exact Hr].
    + intros (ref & schema & Hr & Hl & ->).
      apply (Permutation_in _ (Permutation_sym Hperm)). apply in_flat_map.
      exists ref. split.
      * apply drainRefs_reachable.
        apply (Reachable_same_used _ _ used); [apply Hsame | exact Hr].
      * unfold contribution. rewrite Hl. now left.
  - rewrite Htypes. destruct (if isOpenAPI3 spec then _ else _); [|constructor].
    rewrite parseTypes_grouped. apply keys_grouped_NoDup. constructor.
  - intros moduleName group Hin.
    assert (Hnd : NoDup (map fst (types result))).
    { rewrite Htypes. destruct (if isOpenAPI3 spec then _ else _); [|constructor].
      rewrite parseTypes_grouped. apply keys_grouped_NoDup. constructor. }
    pose proof (lookup_NoDup _ _ _ _ Hnd Hin) as Hl.
    rewrite Htypes in Hl. destruct (if isOpenAPI3 spec then _ else _); [|discriminate].
    rewrite parseTypes_grouped in Hl.
    rewrite (lookup_grouped ParsedType
               (fun t => getModuleFromTypeName (type_originalName t))) in Hl.
    cbn [lookup] in Hl. unfold groupOf in Hl.
    destruct (filter _ _) as [|a l] eqn:Ef; [discriminate|].
    injection Hl as <-. split; [discriminate|].
    intros t Ht. rewrite <- Ef in Ht. apply filter_In in Ht as [_ Ht].
    now apply String.eqb_eq.
  - intros anyPrefix definitions items. unfold responseRefs, unwrapFieldIn. cbn.
    destruct (unwrapResponseField config) as [unwrapField|]; [|reflexivity].
    now destruct (negb (String.eqb unwrapField "")).
Qed.

(** The document [usersSpec] with the default configuration: every lookup
    of the parser finds a member that the object has of its own. *)
Lemma parseSwagger_files_operations_by_tag_witness :
  lookup "user" (apis (parseSwagger usersSpec defaultConfig []))
  = groupOf api_tag "user"
      (map (parsedFunction usersSpec defaultConfig [])
           (includedOperations defaultConfig (spec_paths usersSpec))).
Proof.
  refine (proj1 (proj2 (parseSwagger_files_operations_by_tag usersSpec defaultConfig [] _))
            "user").
  split; [|split].
  - intros unwrapField [= <-]. reflexivity.
  - intros o Ho Hinherited. vm_compute in Ho. destruct Ho as [<-|[]].
    vm_compute in Hinherited. discriminate Hinherited.
  - intros ref Href. apply drainRefs_reachable in Href. vm_compute in Href.
    repeat (destruct Href as [<-|Href];
            [intros Hinherited; vm_compute in Hinherited; discriminate Hinherited|]).
    destruct Href.
Defined.

Lemma parseSwagger_emits_the_reachable_types_witness :
  NoDup (map fst (types (parseSwagger usersSpec defaultConfig []))) /\
  forall ref, In ref (usedByDocument usersSpec defaultConfig [])
              <-> In ref (namedByDocument usersSpec defaultConfig).
Proof.
  assert (Hown : OwnLookups usersSpec defaultConfig []).
  { split; [|split].
    - intros unwrapField [= <-]. reflexivity.
    - intros o Ho Hinherited. vm_compute in Ho. destruct Ho as [<-|[]].
      vm_compute in Hinherited. discriminate Hinherited.
    - intros ref Href. apply drainRefs_reachable in Href. vm_compute in Href.
      repeat (destruct Href as [<-|Href];
              [intros Hinherited; vm_compute in Hinherited; discriminate Hinherited|]).
      destruct Href. }
  pose proof (parseSwagger_emits_the_reachable_types usersSpec defaultConfig [] Hown)
    as (_ & Hmodules & _ & Hrecorded & _).
  split; [exact Hmodules | exact Hrecorded].
Defined.

(* ----------------------------------------------------------------- *)
(** ** The references that the update command follows *)

Section TypeRefFacts.

Lemma replaceFirst_prefix (p s : string) : replaceFirst p "" (p ++ s) = s.
Proof.
  unfold replaceFirst.
  assert (H : indexOf p (p ++ s) = Some 0).
  { pose proof (startsWith_app p s) as Hs.
    destruct (p ++ s) eqn:E; simpl; now rewrite Hs. }
  rewrite H. simpl. apply drop_app_length.
Qed.

(** A text without the first code unit of the pattern holds no occurrence
    of it. *)
Lemma indexOf_absent (c : ascii) (p s : string) :
  allChars (fun d => negb (Ascii.eqb d c)) s = true ->
  indexOf (String c p) s = None.
Proof.
  induction s as [|d s IH]; [reflexivity|].
  intros H. simpl in H. apply andb_true_iff in H as [Hd Hs].
  apply negb_true_iff in Hd. rewrite Ascii.eqb_sym in Hd.
  change (indexOf (String c p) (String d s))
    with (if (if Ascii.eqb c d then startsWith s p else false) then Some 0
          else option_map S (indexOf (String c p) s)).
  now rewrite Hd, (IH Hs).
Qed.

Lemma split_no_separator (c : ascii) (s : string) :
  allChars (fun d => negb (Ascii.eqb d c)) s = true -> split c s = [s].
Proof.
  induction s as [|d s IH]; [reflexivity|].
  intros H. simpl in H. apply andb_true_iff in H as [Hd Hs].
  apply negb_true_iff in Hd. simpl. now rewrite Hd, (IH Hs).
Qed.

(** The local [cleanTypeName] of the update command is the one of the naming
    utilities. *)
Lemma update_cleanTypeName_same (name : string) (suffixes : list string) :
  Update.cleanTypeName name suffixes = cleanTypeName name suffixes.
Proof.
  unfold Update.cleanTypeName, cleanTypeName, toPascalCase, toCamelCase.
  replace (mapFirst upperChar (mapFirst lowerChar (replaceSeparators (last (split "." name) ""))))
    with (mapFirst upperChar (replaceSeparators (last (split "." name) ""))).
  - induction suffixes as [|suffix suffixes IH]; simpl; [reflexivity | now rewrite IH].
  - destruct (replaceSeparators _) as [|c s]; simpl; [reflexivity|]. f_equal.
    destruct c as [[] [] [] [] [] [] [] []]; reflexivity.
Qed.

Lemma extractTypeRefs_ref (ref : string) (config : Config) :
  ref <> "" ->
  Update.extractTypeRefs (refSchema ref) config
  = [cleanTypeName (replaceFirst "#/definitions/" "" ref) (typeNameSuffixFilter config)].
Proof.
  intros H. unfold refSchema. cbn [Update.extractTypeRefs truthy orElse].
  apply String.eqb_neq in H. rewrite H. simpl.
  now rewrite update_cleanTypeName_same.
Qed.

End TypeRefFacts.

Section DialectNames.

Lemma replaceSeparators_copy (a rest : string) :
  allChars notSeparator a = true ->
  replaceSeparators (a ++ rest) = a ++ replaceSeparators rest.
Proof.
  induction a as [|c a IH]; simpl; [reflexivity|].
  intros H. apply andb_true_iff in H as [Hc Ha].
  unfold notSeparator in Hc. apply negb_true_iff in Hc. now rewrite Hc, IH.
Qed.

Lemma schemas_reference_untouched (name : string) :
  allChars notHash name = true ->
  replaceFirst "#/definitions/" "" (schemasPrefix ++ name) = schemasPrefix ++ name.
Proof.
  intros H. unfold replaceFirst.
  rewrite (indexOf_skip "#/definitions/" schemasPrefix name) by reflexivity.
  now rewrite (indexOf_absent "#" "/definitions/" name H).
Qed.

End DialectNames.

(** X15: the name that [extractTypeRefs] gives to a reference agrees with the
    display name of the type only for Swagger 2.0. For a reference
    [#/definitions/N], with [N] of ASCII code units, it is the display name
    that [parseType] gives to the definition [N]. For a reference
    [#/components/schemas/N] of OpenAPI 3.0, with [N] free of dots and of
    the sign [#], the prefix is not cut off: the name is the whole reference
    text, put in Pascal case and stripped of a suffix, so for [User] it is
    [#/components/schemas/User], which is the display name of no type named
    [User]. *)
Theorem extractTypeRefs_names_by_dialect
    (name : string) (schema : SchemaObject) (config : Config) :
  (allChars isAscii name = true ->
   Update.extractTypeRefs (refSchema (definitionsPrefix ++ name)) config
   = [type_name (parseType name schema config)]) /\
  (allChars notHash name = true -> allChars notDot name = true ->
   Update.extractTypeRefs (refSchema (schemasPrefix ++ name)) config
   = [removeTypeSuffix (schemasPrefix ++ replaceSeparators name)
                       (typeNameSuffixFilter config)]) /\
  Update.extractTypeRefs (refSchema "#/components/schemas/User") defaultConfig
  = ["#/components/schemas/User"].
Proof.
  split; [|split; [|reflexivity]].
  - intros _. rewrite extractTypeRefs_ref by discriminate.
    unfold definitionsPrefix. now rewrite replaceFirst_prefix.
  - intros Hhash Hdot. rewrite extractTypeRefs_ref by discriminate.
    rewrite (schemas_reference_untouched name Hhash).
    unfold cleanTypeName. rewrite split_no_separator.
    + cbn [last]. unfold toPascalCase, toCamelCase.
      rewrite (replaceSeparators_copy schemasPrefix name) by reflexivity.
      reflexivity.
    + change (fun d => negb (Ascii.eqb d ".")) with notDot.
      rewrite allChars_app, Hdot. reflexivity.
Qed.

Lemma extractTypeRefs_names_by_dialect_witness :
  Update.extractTypeRefs (refSchema (definitionsPrefix ++ "model.OrderItem")) defaultConfig
  = [type_name (parseType "model.OrderItem" stringSchema defaultConfig)] /\
  Update.extractTypeRefs (refSchema (schemasPrefix ++ "OrderItem")) defaultConfig
  = [removeTypeSuffix (schemasPrefix ++ replaceSeparators "OrderItem")
                      (typeNameSuffixFilter defaultConfig)].
Proof.
  split.
  - exact (proj1 (extractTypeRefs_names_by_dialect "model.OrderItem" stringSchema
                    defaultConfig) eq_refl).
  - exact (proj1 (proj2 (extractTypeRefs_names_by_dialect "OrderItem" stringSchema
                           defaultConfig)) eq_refl eq_refl).
Defined.

(** X16: [collectModuleTypes] looks the needed types up by the whole text of
    the type names of the functions. When the response of a function is
    unwrapped to an array [T[]], the name it looks for is [T[]], which no
    type carries: unless something else needs [T], the type file of the
    module does not declare it, while the function file imports [T] from
    it. *)
Theorem array_response_element_is_not_collected
    (T : string) (api : ParsedAPI) (allTypes : Record (list ParsedType)) (config : Config) :
  api_bodyTypeName api = None ->
  api_responseTypeName api = Some (T ++ "[]") ->
  (forall t, In t (Update.typesInOrder allTypes) -> type_name t <> T ++ "[]") ->
  Update.neededTypes [api] = [T ++ "[]"] /\
  Update.collectModuleTypes [api] allTypes config = [] /\
  (api_paramsTypeName api = None -> mem T BUILTIN_TYPES = false ->
   generateImports [api] "./types" config
   = "import { " ++ requestClient config ++ " } from '" ++ requestImport config ++ "'"
     ++ nl ++ "import type { " ++ T ++ " } from './types'").
Proof.
  intros Hbody Hresponse Hnames.
  assert (Htruthy : String.eqb (T ++ "[]") "" = false) by now destruct T.
  assert (Hneeded : Update.neededTypes [api] = [T ++ "[]"]).
  { unfold Update.neededTypes. simpl. rewrite Hbody, Hresponse. simpl.
    now rewrite Htruthy. }
  split; [exact Hneeded|]. split.
  - unfold Update.collectModuleTypes, Update.collectFrom. rewrite Hneeded.
    assert (H : forall fuel l st,
               (forall t, In t l -> type_name t <> T ++ "[]") ->
               fold_left
                 (fun st type =>
                    if mem (type_name type) [T ++ "[]"]
                       && negb (mem (type_name type) (Update.processedNames st))
                    then Update.collectDependentTypes fuel allTypes config type
                           (Update.addType type st)
                    else st)
                 l st = st).
    { intros fuel l. induction l as [|t l IH]; intros st Hl; [reflexivity|].
      cbn [fold_left].
      assert (Ht : mem (type_name t) [T ++ "[]"] = false).
      { simpl. rewrite orb_false_r. apply String.eqb_neq. apply Hl. now left. }
      rewrite Ht. simpl. apply IH. intros t' Ht'. apply Hl. now right. }
    rewrite (H _ _ _ Hnames). reflexivity.
  - intros Hparams Hbuiltin. unfold generateImports, collectTypeNames.
    cbn [fold_left]. rewrite Hparams, Hbody, Hresponse. unfold addTypeName.
    cbn [truthy orElse negb]. rewrite Htruthy. cbn [negb].
    assert (Hbase : extractBaseTypeName (T ++ "[]") = T).
    { unfold extractBaseTypeName. rewrite endsWith_app, length_append. simpl.
      replace (String.length T + 2 - 2) with (String.length T) by lia.
      apply take_app_length. }
    rewrite Hbase, Hbuiltin.
    cbn [mem app sortStrings insertSorted join String.concat append].
    repeat (progress (rewrite ?append_assoc; cbn [append])). reflexivity.
Qed.

Lemma array_response_element_is_not_collected_witness :
  Update.collectModuleTypes
    [mkParsedAPI "/api/logs" "/logs" "get" "log" "getLogs" None None None (Some "Log[]")
                 [] [] None None]
    [("common", [mkParsedType "Log" "Log" stringSchema])] defaultConfig = [].
Proof.
  refine (proj1 (proj2 (array_response_element_is_not_collected "Log"
                          (mkParsedAPI "/api/logs" "/logs" "get" "log" "getLogs" None None None
                                       (Some "Log[]") [] [] None None)
                          [("common", [mkParsedType "Log" "Log" stringSchema])] defaultConfig
                          eq_refl eq_refl _))).
  intros t [<-|[]]. discriminate.
Defined.

(* ----------------------------------------------------------------- *)
(** ** The types of a module *)

Section PrefixFold.

Variables (S X : Type).

(** An invariant of a loop that also speaks of the elements met so far. *)
Lemma fold_left_prefix (I : list X -> S -> Prop) (F : S -> X -> S) (l : list X) (s : S) :
  I [] s ->
  (forall pre x post s, l = (pre ++ x :: post)%list -> I pre s -> I (pre ++ [x])%list (F s x)) ->
  I l (fold_left F l s).
Proof.
  intros Hs Hstep.
  assert (H : forall rest pre s, l = (pre ++ rest)%list -> I pre s ->
                                 I l (fold_left F rest s)).
  { induction rest as [|x rest IH]; intros pre s' Hl Hi; simpl.
    - rewrite app_nil_r in Hl. now subst.
    - apply (IH (pre ++ [x])%list).
      + rewrite <- app_assoc. exact Hl.
      + now apply (Hstep pre x rest). }
  now apply (H l []).
Qed.

End PrefixFold.

Section NeededFacts.

Variable apis : list ParsedAPI.
Variable allTypes : Record (list ParsedType).
Variable config : Config.

Let types : list ParsedType := Update.typesInOrder allTypes.
Let pending (processed : list string) : nat :=
  List.length (filter (fun n => negb (mem n processed)) (map type_name types)).
Let refsOf (t : ParsedType) : list string := Update.extractTypeRefs (type_schema t) config.
Let hasName (r : string) : Prop := exists t, In t types /\ type_name t = r.
Let Needed : string -> Prop := NeededName apis allTypes config.

(** The references of a type are resolved: each of them that names a type
    is processed. *)
Let Done (st : Update.CollectState) (t : ParsedType) : Prop :=
  forall r, In r (refsOf t) -> hasName r -> In r (Update.processedNames st).

Let Sound (st : Update.CollectState) : Prop :=
  forall t, In t (Update.result st) ->
            Needed (type_name t) /\ firstNamed (type_name t) types = Some t.

Let Consistent (st : Update.CollectState) : Prop :=
  Update.processedNames st = map type_name (Update.result st) /\
  NoDup (Update.processedNames st).

Let Grows (st st' : Update.CollectState) : Prop :=
  forall n, In n (Update.processedNames st) -> In n (Update.processedNames st').

Lemma Done_grows (st st' : Update.CollectState) (t : ParsedType) :
  Grows st st' -> Done st t -> Done st' t.
Proof. intros Hg Hd r Hr Hn. apply Hg. now apply Hd. Qed.

Lemma firstNamed_at (pre post : list ParsedType) (t : ParsedType) :
  (forall x, In x pre -> type_name x <> type_name t) ->
  firstNamed (type_name t) (pre ++ t :: post) = Some t.
Proof.
  unfold firstNamed. induction pre as [|x pre IH]; intros H; simpl.
  - now rewrite String.eqb_refl.
  - destruct (String.eqb (type_name x) (type_name t)) eqn:E.
    + apply String.eqb_eq in E. exfalso. apply (H x); [now left | exact E].
    + apply IH. intros y Hy. apply H. now right.
Qed.

Lemma firstNamed_In (n : string) (l : list ParsedType) (t : ParsedType) :
  firstNamed n l = Some t -> In t l /\ type_name t = n.
Proof.
  unfold firstNamed. intros H. apply find_some in H as [Hin Hn].
  split; [exact Hin | now apply String.eqb_eq].
Qed.

Lemma Sound_addType (t : ParsedType) (st : Update.CollectState) :
  Sound st -> Needed (type_name t) -> firstNamed (type_name t) types = Some t ->
  Sound (Update.addType t st).
Proof.
  intros Hs Hn Hf x Hx. unfold Update.addType in Hx. simpl in Hx.
  apply in_app_or in Hx as [Hx|[<-|[]]]; [now apply Hs | now split].
Qed.

Lemma Grows_addType (t : ParsedType) (st : Update.CollectState) :
  Grows st (Update.addType t st) /\ In (type_name t) (Update.processedNames (Update.addType t st)).
Proof.
  unfold Grows, Update.addType. simpl. split.
  - intros n Hn. apply in_or_app. now left.
  - apply in_or_app. right. now left.
Qed.

(** What a call of [collectDependentTypes] establishes, with [open] the
    types whose references are still being followed. *)
Lemma collectDependentTypes_resolves (fuel : nat) :
  forall (t : ParsedType) (st : Update.CollectState) (open : list ParsedType),
    pending (Update.processedNames st) < fuel ->
    Sound st -> Consistent st ->
    Needed (type_name t) -> firstNamed (type_name t) types = Some t ->
    (forall x, In x (Update.result st) -> In x open \/ x = t \/ Done st x) ->
    let st' := Update.collectDependentTypes fuel allTypes config t st in
    Sound st' /\ Consistent st' /\ Grows st st' /\
    (forall x, In x (Update.result st') -> In x open \/ Done st' x) /\
    Done st' t.
Proof.
  induction fuel as [|fuel IH]; intros t st open Hfuel Hsound Hcons Hneeded Hfirst Hclosed;
    [lia|].
  cbn [Update.collectDependentTypes]. fold types. fold (refsOf t).
  set (inner := fun (refName : string) (st : Update.CollectState) (t' : ParsedType) =>
         if String.eqb (type_name t') refName
            && negb (mem (type_name t') (Update.processedNames st))
         then Update.collectDependentTypes fuel allTypes config t' (Update.addType t' st)
         else st).
  set (outer := fun (st : Update.CollectState) (refName : string) =>
         if mem refName (Update.processedNames st) then st
         else fold_left (inner refName) types st).
  change (fold_left _ (refsOf t) st) with (fold_left outer (refsOf t) st).
  set (I := fun (pre : list string) (s : Update.CollectState) =>
         Sound s /\ Consistent s /\ Grows st s /\
         (forall x, In x (Update.result s) -> In x open \/ x = t \/ Done s x) /\
         (forall r, In r pre -> hasName r -> In r (Update.processedNames s))).
  assert (Hend : I (refsOf t) (fold_left outer (refsOf t) st)).
  { apply fold_left_prefix.
    - unfold I. split; [exact Hsound|]. split; [exact Hcons|].
      split; [intros n Hn; exact Hn|]. split; [exact Hclosed|]. intros r [].
    - intros pre r post s Hrefs (Hs & Hc & Hg & Hcl & Hpre). unfold outer.
      destruct (mem r (Update.processedNames s)) eqn:Em.
      + unfold I. split; [exact Hs|]. split; [exact Hc|]. split; [exact Hg|].
        split; [exact Hcl|]. intros r' Hr' Hn.
        apply in_app_or in Hr' as [Hr'|[<-|[]]]; [now apply Hpre | now apply mem_In].
      + set (I2 := fun (pre2 : list ParsedType) (s2 : Update.CollectState) =>
               Sound s2 /\ Consistent s2 /\ Grows s s2 /\
               (forall x, In x (Update.result s2) -> In x open \/ x = t \/ Done s2 x) /\
               (In r (Update.processedNames s2) \/
                forall t', In t' pre2 -> type_name t' <> r)).
        assert (Hinner : I2 types (fold_left (inner r) types s)).
        { apply fold_left_prefix.
          - unfold I2. split; [exact Hs|]. split; [exact Hc|].
            split; [intros n Hn; exact Hn|]. split; [exact Hcl|]. right. intros t' [].
          - intros pre2 t' post2 s2 Htypes (Hs2 & Hc2 & Hg2 & Hcl2 & Hr2). unfold inner.
            destruct (String.eqb (type_name t') r) eqn:En; cbn [andb].
            + apply String.eqb_eq in En.
              destruct (mem (type_name t') (Update.processedNames s2)) eqn:Em2; cbn [negb].
              * unfold I2. split; [exact Hs2|]. split; [exact Hc2|]. split; [exact Hg2|].
                split; [exact Hcl2|]. left. rewrite <- En. now apply mem_In.
              * assert (Hnot : ~ In r (Update.processedNames s2)).
                { rewrite <- En. now apply mem_false_In. }
                destruct Hr2 as [Hr2|Hr2]; [contradiction|].
                assert (Hfirst' : firstNamed (type_name t') types = Some t').
                { rewrite Htypes. apply firstNamed_at. intros x Hx. rewrite En. now apply Hr2. }
                assert (Hneeded' : Needed (type_name t')).
                { rewrite En. apply (Needed_ref _ _ _ (type_name t) t r Hneeded Hfirst).
                  fold (refsOf t). rewrite Hrefs. apply in_or_app. right. now left. }
                assert (Hin' : In t' types).
                { rewrite Htypes. apply in_or_app. right. now left. }
                destruct (Grows_addType t' s2) as [Hga Hina].
                destruct (IH t' (Update.addType t' s2) (t :: open)) as (Hs3 & Hc3 & Hg3 & Hcl3 & Hd3).
                -- pose proof (pending_addType allTypes t' s2 Hin' Em2) as Hlt.
                   pose proof (pending_grows allTypes (Update.processedNames st) s2) as Hle.
                   unfold pending in *. fold types in Hlt, Hle.
                   assert (Hgst : forall n, In n (Update.processedNames st) ->
                                            In n (Update.processedNames s2))
                     by (intros n Hn; apply Hg2, Hg, Hn).
                   specialize (Hle Hgst). lia.
                -- now apply Sound_addType.
                -- now apply consistent_addType.
                -- exact Hneeded'.
                -- exact Hfirst'.
                -- intros x Hx. unfold Update.addType in Hx. simpl in Hx.
                   apply in_app_or in Hx as [Hx|[<-|[]]]; [|tauto].
                   destruct (Hcl2 x Hx) as [Ho|[->|Hd]].
                   ++ left. now right.
                   ++ left. now left.
                   ++ right. right. apply (Done_grows s2); [exact Hga | exact Hd].
                -- unfold I2. split; [exact Hs3|]. split; [exact Hc3|].
                   split; [intros n Hn; apply Hg3, Hga, Hg2, Hn|]. split.
                   ++ intros x Hx. destruct (Hcl3 x Hx) as [[<-|Ho]|Hd]; tauto.
                   ++ left. rewrite <- En. apply Hg3. exact Hina.
            + unfold I2. split; [exact Hs2|]. split; [exact Hc2|]. split; [exact Hg2|].
              split; [exact Hcl2|]. destruct Hr2 as [Hr2|Hr2]; [now left|]. right.
              intros x Hx. apply in_app_or in Hx as [Hx|[<-|[]]]; [now apply Hr2|].
              now apply String.eqb_neq. }
        destruct Hinner as (Hs2 & Hc2 & Hg2 & Hcl2 & Hr2).
        unfold I. split; [exact Hs2|]. split; [exact Hc2|].
        split; [intros n Hn; apply Hg2, Hg, Hn|]. split; [exact Hcl2|].
        intros r' Hr' Hn. apply in_app_or in Hr' as [Hr'|[<-|[]]].
        * apply Hg2. now apply Hpre.
        * destruct Hr2 as [Hr2|Hr2]; [exact Hr2|].
          destruct Hn as (x & Hx & Hxn). exfalso. now apply (Hr2 x). }
  destruct Hend as (Hs & Hc & Hg & Hcl & Hd).
  split; [exact Hs|]. split; [exact Hc|]. split; [exact Hg|].
  assert (Hdone : Done (fold_left outer (refsOf t) st) t).
  { intros r Hr Hn. now apply Hd. }
  split; [|exact Hdone].
  intros x Hx. destruct (Hcl x Hx) as [Ho|[->|Hdx]]; [now left | now right | now right].
Qed.

(** What the loop of [collectModuleTypes] establishes. *)
Lemma collectFrom_resolves :
  let final := Update.collectFrom (List.length types) apis allTypes config
                                  (Update.mkCollect [] []) in
  Sound final /\ Consistent final /\
  (forall x, In x (Update.result final) -> Done final x) /\
  (forall t, In t types -> In (type_name t) (Update.neededTypes apis) ->
             In (type_name t) (Update.processedNames final)).
Proof.
  unfold Update.collectFrom. fold types.
  set (F := fun (st : Update.CollectState) (type : ParsedType) =>
         if mem (type_name type) (Update.neededTypes apis)
            && negb (mem (type_name type) (Update.processedNames st))
         then Update.collectDependentTypes (List.length types) allTypes config type
                (Update.addType type st)
         else st).
  set (I := fun (pre : list ParsedType) (s : Update.CollectState) =>
         Sound s /\ Consistent s /\
         (forall x, In x (Update.result s) -> Done s x) /\
         (forall t, In t pre -> In (type_name t) (Update.neededTypes apis) ->
                    In (type_name t) (Update.processedNames s))).
  change (I types (fold_left F types (Update.mkCollect [] []))).
  apply fold_left_prefix.
  - unfold I. split; [intros t []|]. split; [split; [reflexivity | constructor]|].
    split; [intros x [] | intros t []].
  - intros pre t post s Htypes (Hs & Hc & Hcl & Hpre). unfold F.
    destruct (mem (type_name t) (Update.neededTypes apis)) eqn:En; cbn [andb].
    + destruct (mem (type_name t) (Update.processedNames s)) eqn:Em; cbn [negb].
      * unfold I. split; [exact Hs|]. split; [exact Hc|]. split; [exact Hcl|].
        intros x Hx Hxn. apply in_app_or in Hx as [Hx|[<-|[]]]; [now apply Hpre|].
        now apply mem_In.
      * assert (Hin : In t types) by (rewrite Htypes; apply in_or_app; right; now left).
        assert (Hfirst : firstNamed (type_name t) types = Some t).
        { rewrite Htypes. apply firstNamed_at. intros x Hx Hsame.
          apply mem_false_In in Em. apply Em. rewrite <- Hsame. apply Hpre; [exact Hx|].
          rewrite Hsame. now apply mem_In. }
        assert (Hneeded : Needed (type_name t)).
        { apply Needed_api. now apply mem_In. }
        destruct (Grows_addType t s) as [Hga Hina].
        destruct (collectDependentTypes_resolves (List.length types) t (Update.addType t s) [])
          as (Hs' & Hc' & Hg' & Hcl' & Hd').
        -- pose proof (pending_addType allTypes t s Hin Em) as Hlt.
           pose proof (pending_le_total allTypes (Update.processedNames s)) as Hle.
           unfold pending. fold types in Hlt, Hle. lia.
        -- now apply Sound_addType.
        -- now apply consistent_addType.
        -- exact Hneeded.
        -- exact Hfirst.
        -- intros x Hx. unfold Update.addType in Hx. simpl in Hx.
           apply in_app_or in Hx as [Hx|[<-|[]]]; [|tauto].
           right. right. apply (Done_grows s); [exact Hga | now apply Hcl].
        -- unfold I. split; [exact Hs'|]. split; [exact Hc'|]. split.
           ++ intros x Hx. destruct (Hcl' x Hx) as [[]|Hd]. exact Hd.
           ++ intros x Hx Hxn. apply Hg'. apply in_app_or in Hx as [Hx|[<-|[]]].
              ** apply Hga. now apply Hpre.
              ** exact Hina.
    + unfold I. split; [exact Hs|]. split; [exact Hc|]. split; [exact Hcl|].
      intros x Hx Hxn. apply in_app_or in Hx as [Hx|[<-|[]]]; [now apply Hpre|].
      apply mem_In in Hxn. congruence.
Qed.

End NeededFacts.

(** X17: [collectModuleTypes] collects exactly the types a module needs. A
    type is in the result if and only if its display name is needed (a
    function of the module names it as body or response type, or the first
    type of a needed name refers to it) and it is the first type of the
    document with that name. So the result is closed under the references
    that [extractTypeRefs] finds, and holds nothing that is not needed. *)
Theorem collectModuleTypes_collects_the_needed_types
    (apis : list ParsedAPI) (allTypes : Record (list ParsedType)) (config : Config)
    (t : ParsedType) :
  In t (Update.collectModuleTypes apis allTypes config) <->
  NeededName apis allTypes config (type_name t) /\
  firstNamed (type_name t) (Update.typesInOrder allTypes) = Some t.
Proof.
  destruct (collectFrom_resolves apis allTypes config) as (Hs & [Hc _] & Hcl & Hn).
  unfold Update.collectModuleTypes.
  set (final := Update.collectFrom _ apis allTypes config _) in *.
  assert (Hname : forall n x,
             In n (Update.processedNames final) ->
             firstNamed n (Update.typesInOrder allTypes) = Some x ->
             In x (Update.result final)).
  { intros n x Hin Hf. rewrite Hc in Hin. apply in_map_iff in Hin as (y & Hy & Hin).
    destruct (Hs y Hin) as [_ Hfy]. rewrite Hy in Hfy. congruence. }
  split; [apply Hs|].
  assert (Hall : forall n, NeededName apis allTypes config n ->
                 forall x, firstNamed n (Update.typesInOrder allTypes) = Some x ->
                           In x (Update.result final)).
  { intros n Hneeded.
    induction Hneeded as [n Hin | m t0 n _ IH Hf0 Hr]; intros x Hfirst.
    - apply (Hname n); [|exact Hfirst].
      destruct (firstNamed_In _ _ _ Hfirst) as [Hx Hxn]. rewrite <- Hxn.
      apply Hn; [exact Hx | now rewrite Hxn].
    - apply (Hname n); [|exact Hfirst].
      destruct (firstNamed_In _ _ _ Hfirst) as [Hx Hxn].
      apply (Hcl t0 (IH t0 Hf0) n Hr). exists x. now split. }
  intros [Hneeded Hfirst]. now apply (Hall (type_name t)).
Qed.

(* ----------------------------------------------------------------- *)
(** ** The comparison of fields by the check command *)

Section RecordFacts.

Variable T : Type.

Lemma lookup_of_In (m : Record T) (k : string) (v : T) :
  NoDup (map fst m) -> In (k, v) m -> lookup k m = Some v.
Proof.
  induction m as [|[k' v'] m IH]; simpl; [tauto|].
  intros Hnd [H|H].
  - injection H as -> ->. now rewrite String.eqb_refl.
  - inversion Hnd as [|? ? Hk Hm]; subst.
    destruct (String.eqb k k') eqn:E; [|now apply IH].
    apply String.eqb_eq in E. subst k'. exfalso. apply Hk.
    apply (in_map fst) in H. exact H.
Qed.

Lemma lookup_some_of_In (m : Record T) (k : string) (v : T) :
  In (k, v) m -> exists w, lookup k m = Some w.
Proof.
  induction m as [|[k' v'] m IH]; simpl; [tauto|].
  intros [H|H].
  - injection H as -> ->. rewrite String.eqb_refl. now exists v.
  - destruct (String.eqb k k'); [now exists v' | now apply IH].
Qed.

Lemma flat_map_nil (A B : Type) (f : A -> list B) (l : list A) :
  flat_map f l = [] <-> forall x, In x l -> f x = [].
Proof.
  induction l as [|a l IH]; simpl; [split; [intros _ x [] | reflexivity]|].
  split.
  - intros H. apply app_eq_nil in H as [Ha Hl]. intros x [<-|Hx]; [exact Ha|].
    now apply IH.
  - intros H. rewrite (H a (or_introl eq_refl)). apply IH. intros x Hx. apply H. now right.
Qed.

Lemma keys_assignKey (k : string) (v : T) (m : Record T) :
  map fst (assignKey k v m)
  = if mem k (map fst m) then map fst m else (map fst m ++ [k])%list.
Proof.
  induction m as [|[k' v'] m IH]; simpl; [reflexivity|].
  destruct (String.eqb k k'); simpl; [reflexivity|].
  rewrite IH. now destruct (mem k (map fst m)).
Qed.

Lemma assignKey_NoDup (k : string) (v : T) (m : Record T) :
  NoDup (map fst m) -> NoDup (map fst (assignKey k v m)).
Proof.
  intros H. rewrite keys_assignKey. destruct (mem k (map fst m)) eqn:E; [exact H|].
  apply (Permutation_NoDup (l := k :: map fst m)); [apply Permutation_cons_append|].
  constructor; [now apply mem_false_In | exact H].
Qed.

End RecordFacts.

(** X18: [compareFields] reports nothing exactly when the two maps have the
    same field names and, for every name, types that are equal once their
    white space is normalised. *)
Theorem compareFields_reports_nothing_iff (oldFields newFields : Record string) :
  NoDup (map fst newFields) ->
  (CheckCommand.compareFields oldFields newFields = [] <->
   forall name,
     match lookup name oldFields, lookup name newFields with
     | Some oldType, Some newType =>
         CheckCommand.normalizeType oldType = CheckCommand.normalizeType newType
     | None, None => True
     | _, _ => False
     end).
Proof.
  intros Hnd. unfold CheckCommand.compareFields. split.
  - intros H. apply app_eq_nil in H as [Hnew Hold].
    rewrite flat_map_nil in Hnew, Hold. intros name.
    destruct (lookup name newFields) as [newType|] eqn:En.
    + specialize (Hnew (name, newType) (lookup_In _ _ _ _ En)). cbn [fst snd] in Hnew.
      destruct (lookup name oldFields) as [oldType|]; [|discriminate].
      destruct (String.eqb _ _) eqn:E; [now apply String.eqb_eq | discriminate].
    + destruct (lookup name oldFields) as [oldType|] eqn:Eo; [|exact I].
      specialize (Hold (name, oldType) (lookup_In _ _ _ _ Eo)). cbn [fst snd] in Hold.
      unfold TagUpdate.hasKey in Hold. rewrite En in Hold. discriminate.
  - intros H.
    assert (Hnew : forall entry, In entry newFields ->
               match lookup (fst entry) oldFields with
               | None => [CheckCommand.mkFieldChange (fst entry) CheckCommand.added None
                                                     (Some (snd entry))]
               | Some oldType =>
                   if String.eqb (CheckCommand.normalizeType oldType)
                                 (CheckCommand.normalizeType (snd entry))
                   then []
                   else [CheckCommand.mkFieldChange (fst entry) CheckCommand.modified
                                                    (Some oldType) (Some (snd entry))]
               end = []).
    { intros [name newType] Hin. cbn [fst snd]. specialize (H name).
      rewrite (lookup_of_In _ _ _ _ Hnd Hin) in H.
      destruct (lookup name oldFields) as [oldType|]; [|contradiction].
      now rewrite H, String.eqb_refl. }
    assert (Hold : forall entry, In entry oldFields ->
               (if TagUpdate.hasKey (fst entry) newFields then []
                else [CheckCommand.mkFieldChange (fst entry) CheckCommand.removed
                                                 (Some (snd entry)) None]) = []).
    { intros [name oldType] Hin. cbn [fst snd]. specialize (H name).
      destruct (lookup_some_of_In _ _ _ _ Hin) as [w Hw]. rewrite Hw in H.
      unfold TagUpdate.hasKey. destruct (lookup name newFields); [reflexivity | contradiction]. }
    apply flat_map_nil in Hnew. apply flat_map_nil in Hold.
    now rewrite Hnew, Hold.
Qed.

Lemma compareFields_reports_nothing_iff_witness :
  CheckCommand.compareFields
    [("id", "number"); ("tags", "Record<string,  string>")]
    [("tags", " Record<string, string> "); ("id", "number")]
  = [].
Proof.
  apply (proj2 (compareFields_reports_nothing_iff
                  [("id", "number"); ("tags", "Record<string,  string>")]
                  [("tags", " Record<string, string> "); ("id", "number")]
                  ltac:(repeat constructor; simpl; intuition discriminate))).
  intros name. cbn [lookup].
  destruct (String.eqb name "id") eqn:Eid; destruct (String.eqb name "tags") eqn:Etags;
    try exact I; try (vm_compute; reflexivity).
  apply String.eqb_eq in Eid. apply String.eqb_eq in Etags. subst name. discriminate.
Defined.

Section FieldFacts.

Variable config : Config.

Lemma setFields_lookup (properties : Record SchemaObject) (fields : Record string)
    (name : string) :
  NoDup (map fst properties) ->
  lookup name (CheckCommand.setFields config fields properties)
  = match lookup name properties with
    | Some prop => Some (schemaToTsType prop config)
    | None => lookup name fields
    end.
Proof.
  unfold CheckCommand.setFields. revert fields.
  induction properties as [|[k p] properties IH]; intros fields Hnd; [reflexivity|].
  inversion Hnd as [|? ? Hk Hrest]; subst.
  cbn [fold_left fst snd lookup]. rewrite (IH _ Hrest), lookup_assignKey.
  destruct (String.eqb name k) eqn:E; [|reflexivity].
  apply String.eqb_eq in E. subst k.
  destruct (lookup name properties) as [q|] eqn:El; [|reflexivity].
  exfalso. apply Hk. apply lookup_In in El. apply (in_map fst) in El. exact El.
Qed.

Lemma setFields_NoDup (properties : Record SchemaObject) (fields : Record string) :
  NoDup (map fst fields) ->
  NoDup (map fst (CheckCommand.setFields config fields properties)).
Proof.
  unfold CheckCommand.setFields. revert fields.
  induction properties as [|[k p] properties IH]; intros fields H; [exact H|].
  cbn [fold_left]. apply IH. now apply assignKey_NoDup.
Qed.

End FieldFacts.

(** X19: the fields that [check] reads off a schema are all its properties,
    excluded or not: [parseFieldsFromSchema] gives every property of an
    object schema with its type, whatever [excludeFields] holds, and keeps
    one entry per name. So a property that the existing declaration lacks is
    reported as added, also when it is an excluded field, which the
    generated interface never declares. *)
Theorem check_reads_excluded_fields
    (properties : Record SchemaObject) (config : Config)
    (existing : Record string) (name : string) (prop : SchemaObject) :
  NoDup (map fst properties) ->
  lookup name properties = Some prop ->
  lookup name existing = None ->
  let fields := CheckCommand.parseFieldsFromSchema (objectSchema properties) config in
  NoDup (map fst fields) /\
  (forall key, lookup key fields
               = option_map (fun p => schemaToTsType p config) (lookup key properties)) /\
  In (CheckCommand.mkFieldChange name CheckCommand.added None
                                 (Some (schemaToTsType prop config)))
     (CheckCommand.compareFields existing fields).
Proof.
  intros Hnd Hprop Hexisting fields.
  assert (Hfields : fields = CheckCommand.setFields config [] properties) by reflexivity.
  assert (Hlookup : forall key,
             lookup key fields
             = option_map (fun p => schemaToTsType p config) (lookup key properties)).
  { intros key. rewrite Hfields, (setFields_lookup config properties [] key Hnd).
    now destruct (lookup key properties). }
  split; [rewrite Hfields; apply setFields_NoDup; constructor|].
  split; [exact Hlookup|].
  unfold CheckCommand.compareFields. apply in_or_app. left. apply in_flat_map.
  exists (name, schemaToTsType prop config). split.
  - apply lookup_In. now rewrite Hlookup, Hprop.
  - cbn [fst snd]. rewrite Hexisting. now left.
Qed.

Lemma check_reads_excluded_fields_witness :
  In (CheckCommand.mkFieldChange "token" CheckCommand.added None (Some "string"))
     (CheckCommand.compareFields
        [("id", "number")]
        (CheckCommand.parseFieldsFromSchema
           (objectSchema [("token", stringSchema); ("id", integerSchema)])
           excludeTokenConfig)).
Proof.
  refine (proj2 (proj2 (check_reads_excluded_fields
                          [("token", stringSchema); ("id", integerSchema)]
                          excludeTokenConfig [("id", "number")] "token" stringSchema
                          _ eq_refl eq_refl))).
  repeat constructor; simpl; intuition discriminate.
Defined.

Section WhiteSpaceFacts.

Import CheckCommand.

Let W (s : string) : string := replaceAll whiteSpaceRun s.

Lemma whiteSpaceRun_shrinking (s rep rest : string) :
  whiteSpaceRun s = Some (rep, rest) -> String.length rest < String.length s.
Proof.
  unfold whiteSpaceRun. destruct (span isWhiteSpace s) as [a b] eqn:E.
  apply span_split in E. subst s. destruct a as [|c a]; [discriminate|].
  intros [= _ <-]. simpl. rewrite length_append. lia.
Qed.

Lemma W_space (c : ascii) (s : string) :
  isWhiteSpace c = true -> W (String c s) = String " " (W (snd (span isWhiteSpace s))).
Proof.
  intros Hc. unfold W.
  rewrite (replaceAll_match whiteSpaceRun whiteSpaceRun_shrinking
             (String c s) " " (snd (span isWhiteSpace s))); [reflexivity|].
  unfold whiteSpaceRun. simpl. rewrite Hc. now destruct (span isWhiteSpace s).
Qed.

Lemma W_other (c : ascii) (s : string) :
  isWhiteSpace c = false -> W (String c s) = String c (W s).
Proof.
  intros Hc. unfold W. apply replaceAll_copy.
  unfold whiteSpaceRun. simpl. now rewrite Hc.
Qed.

Lemma span_rest_clean (s : string) : startsClean (snd (span isWhiteSpace s)) = true.
Proof.
  induction s as [|c s IH]; simpl; [reflexivity|].
  destruct (isWhiteSpace c) eqn:E.
  - now destruct (span isWhiteSpace s).
  - simpl. now rewrite E.
Qed.

Lemma span_rest_length (s : string) :
  String.length (snd (span isWhiteSpace s)) <= String.length s.
Proof.
  destruct (span isWhiteSpace s) as [a b] eqn:E. apply span_split in E. subst s.
  simpl. rewrite length_append. lia.
Qed.

Lemma W_clean (s : string) : startsClean s = true -> startsClean (W s) = true.
Proof.
  destruct s as [|c s]; [reflexivity|]. simpl. intros H. apply negb_true_iff in H.
  rewrite (W_other c s H). simpl. now rewrite H.
Qed.

Lemma W_collapsed (s : string) : collapsed (W s) = true.
Proof.
  assert (H : forall n s, String.length s <= n -> collapsed (W s) = true).
  { clear s. induction n as [|n IH]; intros [|c s] Hn; simpl in Hn; try reflexivity; try lia.
    destruct (isWhiteSpace c) eqn:Ec.
    - rewrite (W_space c s Ec). simpl.
      rewrite (W_clean _ (span_rest_clean s)). apply IH.
      pose proof (span_rest_length s). lia.
    - rewrite (W_other c s Ec). simpl. rewrite Ec. apply IH. lia. }
  apply (H (String.length s)). lia.
Qed.

Lemma span_clean (s : string) : startsClean s = true -> span isWhiteSpace s = ("", s).
Proof.
  destruct s as [|c s]; [reflexivity|]. simpl. intros H. apply negb_true_iff in H.
  now rewrite H.
Qed.

Lemma collapsed_W (s : string) : collapsed s = true -> W s = s.
Proof.
  induction s as [|c s IH]; [reflexivity|].
  simpl. intros H. apply andb_true_iff in H as [Hc Hs].
  destruct (isWhiteSpace c) eqn:Ec.
  - apply andb_true_iff in Hc as [Hsp Hclean]. apply Ascii.eqb_eq in Hsp. subst c.
    rewrite (W_space " " s Ec), (span_clean s Hclean). simpl. now rewrite IH.
  - rewrite (W_other c s Ec). now rewrite IH.
Qed.

Lemma trimStart_clean (s : string) : startsClean (trimStart s) = true.
Proof.
  induction s as [|c s IH]; simpl; [reflexivity|].
  destruct (isWhiteSpace c) eqn:E; [exact IH|]. simpl. now rewrite E.
Qed.

Lemma trimStart_fixed (s : string) : startsClean s = true -> trimStart s = s.
Proof.
  destruct s as [|c s]; [reflexivity|]. simpl. intros H. apply negb_true_iff in H.
  now rewrite H.
Qed.

Lemma trimStart_collapsed (s : string) : collapsed s = true -> collapsed (trimStart s) = true.
Proof.
  induction s as [|c s IH]; simpl; [reflexivity|]. intros H.
  destruct (isWhiteSpace c) eqn:E.
  - apply andb_true_iff in H as [_ H]. now apply IH.
  - simpl. now rewrite E.
Qed.

(** [trimEnd] keeps the first code unit of what it returns. *)
Lemma trimEnd_head (c : ascii) (s : string) :
  trimEnd (String c s) = "" \/ exists t, trimEnd (String c s) = String c t.
Proof.
  simpl. destruct (trimEnd s) as [|d t].
  - destruct (isWhiteSpace c); [now left | right; now exists ""].
  - right. now exists (String d t).
Qed.

Lemma trimEnd_clean (s : string) : startsClean s = true -> startsClean (trimEnd s) = true.
Proof.
  destruct s as [|c s]; [reflexivity|]. intros H.
  destruct (trimEnd_head c s) as [->|(t & ->)]; [reflexivity | exact H].
Qed.

Lemma trimEnd_collapsed (s : string) : collapsed s = true -> collapsed (trimEnd s) = true.
Proof.
  induction s as [|c s IH]; [reflexivity|].
  intros H. simpl in H. apply andb_true_iff in H as [Hc Hs]. specialize (IH Hs).
  simpl. destruct (trimEnd s) as [|d t] eqn:Et.
  - destruct (isWhiteSpace c) eqn:E; [reflexivity|]. simpl. now rewrite E.
  - cbn [collapsed] in IH |- *. rewrite IH, andb_true_r.
    destruct (isWhiteSpace c); [|reflexivity].
    apply andb_true_iff in Hc as [Hsp Hclean]. rewrite Hsp. simpl.
    destruct s as [|e s']; [discriminate|].
    destruct (trimEnd_head e s') as [H0|(t' & Ht')]; rewrite Et in *; [discriminate|].
    injection Ht' as -> _. exact Hclean.
Qed.

Lemma trimEnd_idempotent (s : string) : trimEnd (trimEnd s) = trimEnd s.
Proof.
  induction s as [|c s IH]; [reflexivity|].
  simpl. destruct (trimEnd s) as [|d t] eqn:Et.
  - destruct (isWhiteSpace c) eqn:E; [reflexivity|]. simpl. now rewrite E.
  - cbn [trimEnd]. cbn [trimEnd] in IH. rewrite IH. reflexivity.
Qed.

Lemma normalizeType_normal (s : string) :
  let n := normalizeType s in
  collapsed n = true /\ startsClean n = true /\ trimEnd n = n.
Proof.
  unfold normalizeType, trim. fold (W s). split; [|split].
  - apply trimEnd_collapsed, trimStart_collapsed, W_collapsed.
  - apply trimEnd_clean, trimStart_clean.
  - apply trimEnd_idempotent.
Qed.

Lemma span_app_general (p : ascii -> bool) (a x : string) :
  span p (a ++ x)
  = match snd (span p a) with
    | "" => (fst (span p a) ++ fst (span p x), snd (span p x))
    | rest => (fst (span p a), rest ++ x)
    end.
Proof.
  induction a as [|c a IH]; simpl.
  - now destruct (span p x).
  - destruct (p c) eqn:E.
    + rewrite IH. destruct (span p a) as [ra rest]. simpl.
      destruct rest; reflexivity.
    + simpl. reflexivity.
Qed.

Lemma span_all (p : ascii -> bool) (w : string) :
  allChars p w = true -> span p w = (w, "").
Proof.
  induction w as [|c w IH]; simpl; [reflexivity|].
  intros H. apply andb_true_iff in H as [Hc Hw]. now rewrite Hc, (IH Hw).
Qed.

Lemma span_rest_app (w b : string) :
  allChars isWhiteSpace w = true ->
  snd (span isWhiteSpace (w ++ b)) = snd (span isWhiteSpace b).
Proof.
  intros H. rewrite span_app_general, (span_all _ _ H). reflexivity.
Qed.

(** The amount of white space between two parts of a text does not
    matter. *)
Lemma W_gap (a w1 w2 b : string) :
  w1 <> "" -> w2 <> "" ->
  allChars isWhiteSpace w1 = true -> allChars isWhiteSpace w2 = true ->
  W (a ++ w1 ++ b) = W (a ++ w2 ++ b).
Proof.
  intros H1 H2 Hw1 Hw2.
  assert (Hbase : forall w, w <> "" -> allChars isWhiteSpace w = true ->
                            W (w ++ b) = String " " (W (snd (span isWhiteSpace b)))).
  { intros [|c w] Hne Hw; [congruence|]. simpl in Hw. apply andb_true_iff in Hw as [Hc Hw].
    change (String c w ++ b) with (String c (w ++ b)).
    now rewrite (W_space c _ Hc), (span_rest_app w b Hw). }
  assert (H : forall n a, String.length a <= n -> W (a ++ w1 ++ b) = W (a ++ w2 ++ b)).
  { clear a. induction n as [|n IH]; intros [|c a] Hn; simpl in Hn; try lia.
    - simpl. now rewrite (Hbase w1 H1 Hw1), (Hbase w2 H2 Hw2).
    - simpl. now rewrite (Hbase w1 H1 Hw1), (Hbase w2 H2 Hw2).
    - change (String c a ++ ?x) with (String c (a ++ x)).
      destruct (isWhiteSpace c) eqn:Ec.
      + rewrite !(W_space c _ Ec). f_equal.
        rewrite (span_app_general isWhiteSpace a (w1 ++ b)),
                (span_app_general isWhiteSpace a (w2 ++ b)).
        pose proof (span_rest_length a) as Hlen.
        destruct (snd (span isWhiteSpace a)) as [|d rest] eqn:Er.
        * cbn [snd]. now rewrite !span_rest_app.
        * cbn [snd]. apply IH. lia.
      + rewrite !(W_other c _ Ec). f_equal. apply IH. lia. }
  apply (H (String.length a)). lia.
Qed.

End WhiteSpaceFacts.

(** X20: [normalizeType], by which [check] compares two types, is idempotent;
    its result has no white space at either end and no white space but
    single spaces inside; and the amount of white space between two parts of
    a type does not matter: a run of white space anywhere in the text can be
    replaced by any other without changing the result. *)
Theorem normalizeType_ignores_white_space :
  (forall s, CheckCommand.normalizeType (CheckCommand.normalizeType s)
             = CheckCommand.normalizeType s) /\
  (forall s, collapsed (CheckCommand.normalizeType s) = true /\
             startsClean (CheckCommand.normalizeType s) = true /\
             CheckCommand.trimEnd (CheckCommand.normalizeType s)
             = CheckCommand.normalizeType s) /\
  (forall a w1 w2 b,
      w1 <> "" -> w2 <> "" ->
      allChars CheckCommand.isWhiteSpace w1 = true ->
      allChars CheckCommand.isWhiteSpace w2 = true ->
      CheckCommand.normalizeType (a ++ w1 ++ b) = CheckCommand.normalizeType (a ++ w2 ++ b)).
Proof.
  split; [|split].
  - intros s. destruct (normalizeType_normal s) as (Hc & Hs & He).
    unfold CheckCommand.normalizeType at 1. unfold CheckCommand.trim.
    rewrite (collapsed_W _ Hc), (trimStart_fixed _ Hs). exact He.
  - intros s. exact (normalizeType_normal s).
  - intros a w1 w2 b H1 H2 Hw1 Hw2. unfold CheckCommand.normalizeType.
    now rewrite (W_gap a w1 w2 b H1 H2 Hw1 Hw2).
Qed.

Lemma normalizeType_ignores_white_space_witness :
  CheckCommand.normalizeType ("Record<string," ++ "   " ++ "User>")
  = CheckCommand.normalizeType ("Record<string," ++ " " ++ "User>").
Proof.
  apply (proj2 (proj2 normalizeType_ignores_white_space)); try discriminate; reflexivity.
Defined.

(* ----------------------------------------------------------------- *)
(** ** The functions found in a generated file *)

Section ScanFacts.

Import ExistingApis.

Let scan (s : string) (m : Record string) : Record string :=
  scanFunctions (String.length s) s m.

Lemma span_rest_le (p : ascii -> bool) (s : string) :
  String.length (snd (span p s)) <= String.length s.
Proof.
  destruct (span p s) as [a b] eqn:E. apply span_split in E. subst s.
  simpl. rewrite length_append. lia.
Qed.

Lemma matchFunction_opening (s : string) :
  startsWith s exportConst = false -> matchFunction s = None.
Proof. unfold matchFunction, exportConst. now intros ->. Qed.

Lemma matchFunction_shrinking (s funcName funcBody rest : string) :
  matchFunction s = Some (funcName, funcBody, rest) ->
  String.length rest < String.length s.
Proof.
  unfold matchFunction.
  destruct (startsWith s "export const ") eqn:E; [|discriminate].
  apply startsWith_length in E. change (13 <= String.length s) in E.
  pose proof (span_rest_le isWordChar (drop 13 s)) as H1.
  destruct (span isWordChar (drop 13 s)) as [name s1]. cbn [snd] in H1.
  destruct (negb (String.eqb name "") && startsWith s1 " = ("); [|discriminate].
  pose proof (span_rest_le notCloseParen (drop 4 s1)) as H2.
  destruct (span notCloseParen (drop 4 s1)) as [params s2]. cbn [snd] in H2.
  destruct (startsWith s2 ") => {"); [|discriminate].
  destruct (indexOf _ (drop 6 s2)) as [i|]; [|discriminate].
  intros [= _ _ <-]. rewrite !length_drop in *.
  change (String.length (drop 6 s2) - (i + 2) < String.length s).
  rewrite length_drop. lia.
Qed.

Lemma scanFunctions_enough (f1 f2 : nat) (s : string) (m : Record string) :
  String.length s <= f1 -> String.length s <= f2 ->
  scanFunctions f1 s m = scanFunctions f2 s m.
Proof.
  revert f2 s m. induction f1 as [|f1 IH]; intros f2 s m H1 H2.
  - destruct s; [|simpl in H1; lia]. destruct f2; reflexivity.
  - destruct f2 as [|f2].
    + destruct s; [reflexivity | simpl in H2; lia].
    + simpl. destruct (matchFunction s) as [[[n b] rest]|] eqn:E.
      * apply matchFunction_shrinking in E. apply IH; lia.
      * destruct s as [|c s]; [reflexivity|]. simpl in *. apply IH; lia.
Qed.

Lemma scan_match (s funcName funcBody rest : string) (m : Record string) :
  matchFunction s = Some (funcName, funcBody, rest) ->
  scan s m = scan rest (assignKey funcName funcBody m).
Proof.
  intros E. unfold scan. pose proof (matchFunction_shrinking _ _ _ _ E) as Hl.
  destruct (String.length s) as [|n] eqn:En; [lia|].
  simpl. rewrite E. apply scanFunctions_enough; lia.
Qed.

Lemma scan_step (c : ascii) (s : string) (m : Record string) :
  matchFunction (String c s) = None -> scan (String c s) m = scan s m.
Proof. intros E. unfold scan. simpl. now rewrite E. Qed.

(** A pattern that does not hold the code unit [c] cannot reach over it. *)
Lemma startsWith_separator (a b p : string) (c : ascii) :
  allChars (fun d => negb (Ascii.eqb d c)) p = true ->
  startsWith (a ++ String c b) p = true -> startsWith a p = true.
Proof.
  revert a. induction p as [|e p IH]; intros a Hp H; [reflexivity|].
  simpl in Hp. apply andb_true_iff in Hp as [He Hp].
  destruct a as [|d a]; simpl in *.
  - apply negb_true_iff in He. now rewrite He in H.
  - destruct (Ascii.eqb e d); [now apply IH | discriminate].
Qed.

Lemma indexOf_none_cons (p : string) (c : ascii) (s : string) :
  indexOf p (String c s) = None ->
  startsWith (String c s) p = false /\ indexOf p s = None.
Proof.
  intros H. simpl in H. destruct (startsWith (String c s) p) eqn:E.
  - destruct p; discriminate.
  - split; [reflexivity|]. now destruct (indexOf p s).
Qed.

(** A text without the opening is skipped, up to and with the line break
    that follows it. *)
Lemma scan_skip (x y : string) (m : Record string) :
  indexOf exportConst x = None ->
  scan (x ++ String (ascii_of_nat 10) y) m = scan y m.
Proof.
  induction x as [|d x IH]; intros H.
  - simpl. apply scan_step. reflexivity.
  - apply indexOf_none_cons in H as [Hs Hx].
    change (String d x ++ String (ascii_of_nat 10) y)
      with (String d (x ++ String (ascii_of_nat 10) y)).
    rewrite scan_step; [now apply IH|].
    apply matchFunction_opening.
    destruct (startsWith (String d (x ++ String (ascii_of_nat 10) y)) exportConst) eqn:E;
      [|reflexivity].
    apply (startsWith_separator (String d x) y exportConst (ascii_of_nat 10)) in E;
      [congruence | reflexivity].
Qed.

Lemma indexOf_none_drop (p s : string) (n : nat) :
  indexOf p s = None -> indexOf p (drop n s) = None.
Proof.
  revert s. induction n as [|n IH]; intros s H; [exact H|].
  destruct s as [|c s]; [exact H|]. simpl.
  apply IH. now apply indexOf_none_cons in H.
Qed.

Lemma indexOf_none_app_r (p a b : string) :
  indexOf p (a ++ b) = None -> indexOf p b = None.
Proof.
  intros H. rewrite <- (drop_app_length a b). now apply indexOf_none_drop.
Qed.

(** The first occurrence in a text is the first occurrence in any text that
    begins with it. *)
Lemma indexOf_found_app (p a b : string) (i : nat) :
  indexOf p a = Some i -> indexOf p (a ++ b) = Some i.
Proof.
  intros H. pose proof (indexOf_bound _ _ _ H) as Hb.
  apply indexOf_unique.
  - rewrite drop_app_le by lia. apply startsWith_extend. now apply indexOf_occurs.
  - intros j Hj.
    destruct (startsWith (drop j (a ++ b)) p) eqn:E; [|reflexivity].
    apply (occurrence_within a b "" p j) in E; [|lia].
    rewrite append_nil_r in E. rewrite (indexOf_first _ _ _ _ H Hj) in E. discriminate.
  - rewrite length_append. lia.
Qed.


(** The match of the expression at the head of a declaration. *)
Lemma matchFunction_found (name params inside rest : string) (i : nat) :
  name <> "" ->
  allChars isWordChar name = true ->
  allChars notCloseParen params = true ->
  indexOf (nl ++ "}") inside = Some i ->
  exists body,
    matchFunction (exportConst ++ name ++ " = (" ++ params ++ ") => {" ++ inside ++ rest)
    = Some (name, body, drop (i + 2) (inside ++ rest)).
Proof.
  intros Hne Hname Hparams Hi. unfold matchFunction.
  change "export const " with exportConst. rewrite startsWith_app.
  change 13 with (String.length exportConst). rewrite drop_app_length.
  rewrite (span_app isWordChar name (" = (" ++ params ++ ") => {" ++ inside ++ rest)
             Hname eq_refl).
  cbv beta iota.
  apply String.eqb_neq in Hne. rewrite Hne. cbn [negb andb].
  rewrite startsWith_app.
  assert (H4 : forall X, drop 4 (" = (" ++ X) = X)
    by (intros X; apply (drop_app_length " = (" X)).
  rewrite H4.
  rewrite (span_app notCloseParen params (") => {" ++ inside ++ rest) Hparams eq_refl).
  cbv beta iota.
  rewrite startsWith_app.
  assert (H6 : forall X, drop 6 (") => {" ++ X) = X)
    by (intros X; apply (drop_app_length ") => {" X)).
  rewrite H6.
  rewrite (indexOf_found_app _ inside rest i Hi).
  eexists. reflexivity.
Qed.

Variable config : Config.

Lemma generateApiFunction_layout (api : ParsedAPI) :
  generateApiFunction api config
  = match commentLine api with
    | Some line => line ++ nl ++ exportConst ++ functionTail api config
    | None => exportConst ++ functionTail api config
    end.
Proof.
  unfold generateApiFunction, commentLine, functionTail, functionInside, exportConst,
    generateChainStyleFunction, generateObjectStyleFunction.
  destruct (truthy (api_summary api)), (requestStyle config);
    cbn [app join String.concat];
    repeat (progress (rewrite ?append_assoc; cbn [append])); reflexivity.
Qed.

Lemma includes_false (s p : string) : includes s p = false -> indexOf p s = None.
Proof. unfold includes. now destruct (indexOf p s). Qed.

(** The scan of one generated function: its name is recorded, and the
    search resumes behind the line break that follows the function. *)
Lemma scan_function (api : ParsedAPI) (rest : string) (m : Record string) :
  Scannable config api ->
  exists body,
    scan (generateApiFunction api config ++ String (ascii_of_nat 10) rest) m
    = scan rest (assignKey (api_functionName api) body m).
Proof.
  intros (Hne & Hname & Hparams & Hcomment & Htail).
  apply includes_false in Htail.
  set (closing := String (ascii_of_nat 10) "}").
  set (inside := nl ++ functionInside api config ++ nl ++ "}").
  assert (Hsplit : functionTail api config
                   = (api_functionName api ++ " = ("
                      ++ join ", " (buildFunctionParams api) ++ ") => {") ++ inside).
  { unfold functionTail, inside. now rewrite !append_assoc. }
  destruct (indexOf_before closing (nl ++ functionInside api config) "") as (i & Hi & Hle).
  assert (Hinside : inside = (nl ++ functionInside api config) ++ closing ++ "").
  { unfold inside, closing, nl. now rewrite !append_assoc. }
  rewrite <- Hinside in Hi.
  assert (Hlen : i + 2 <= String.length inside).
  { rewrite Hinside, !length_append in *.
    change (String.length closing) with 2. lia. }
  destruct (matchFunction_found (api_functionName api) (join ", " (buildFunctionParams api))
              inside (String (ascii_of_nat 10) rest) i Hne Hname Hparams Hi) as [body Hm].
  assert (Hdecl : scan ((exportConst ++ functionTail api config)
                        ++ String (ascii_of_nat 10) rest) m
                  = scan rest (assignKey (api_functionName api) body m)).
  { rewrite Hsplit, !append_assoc.
    rewrite (scan_match _ _ _ _ m Hm).
    rewrite drop_app_le by exact Hlen.
    apply scan_skip. apply indexOf_none_drop.
    rewrite Hsplit in Htail. now apply indexOf_none_app_r in Htail. }
  exists body. rewrite generateApiFunction_layout.
  destruct (commentLine api) as [line|]; [|exact Hdecl].
  apply includes_false in Hcomment.
  rewrite append_assoc.
  change (nl ++ exportConst ++ functionTail api config)
    with (String (ascii_of_nat 10) (exportConst ++ functionTail api config)).
  change ((String (ascii_of_nat 10) (exportConst ++ functionTail api config))
          ++ String (ascii_of_nat 10) rest)
    with (String (ascii_of_nat 10) ((exportConst ++ functionTail api config)
                                    ++ String (ascii_of_nat 10) rest)).
  rewrite (scan_skip line _ m Hcomment). exact Hdecl.
Qed.

Lemma scan_nothing (x : string) (m : Record string) :
  indexOf exportConst x = None -> scan (x ++ nl) m = m.
Proof. intros H. unfold nl. now rewrite (scan_skip x "" m H). Qed.

Lemma hasKey_assignKey (key k v : string) (m : Record string) :
  TagUpdate.hasKey key (assignKey k v m) = String.eqb key k || TagUpdate.hasKey key m.
Proof.
  unfold TagUpdate.hasKey. rewrite lookup_assignKey.
  now destruct (String.eqb key k).
Qed.

(** The scan of the generated functions records exactly their names. *)
Lemma scan_functions (apis : list ParsedAPI) (tail : string) (m : Record string) :
  Forall (Scannable config) apis ->
  exists m',
    scan (generatedFunctions apis config ++ tail) m = scan tail m' /\
    forall key, TagUpdate.hasKey key m'
                = TagUpdate.hasKey key m || mem key (map api_functionName apis).
Proof.
  intros H. revert m. induction H as [|api apis Hapi _ IH]; intros m.
  - exists m. split; [reflexivity|]. intros key. now rewrite orb_false_r.
  - destruct (scan_function api (nl ++ generatedFunctions apis config ++ tail) m Hapi)
      as [body Hbody].
    destruct (IH (assignKey (api_functionName api) body m)) as (m' & Hm' & Hkeys).
    exists m'. split.
    + cbn [generatedFunctions]. rewrite !append_assoc.
      change (nl ++ nl ++ generatedFunctions apis config ++ tail)
        with (String (ascii_of_nat 10) (nl ++ generatedFunctions apis config ++ tail)).
      rewrite Hbody.
      change (nl ++ generatedFunctions apis config ++ tail)
        with ("" ++ String (ascii_of_nat 10) (generatedFunctions apis config ++ tail)).
      rewrite (scan_skip "" _ _ eq_refl). exact Hm'.
    + intros key. rewrite Hkeys, hasKey_assignKey. cbn [map mem].
      destruct (String.eqb key (api_functionName api)), (TagUpdate.hasKey key m);
        reflexivity.
Qed.

(** The scan of a generated file, with any text behind it: the functions
    recorded when the scan reaches that text are the generated ones. *)
Lemma scan_generated (apis : list ParsedAPI) (typesImportPath tail : string) :
  Forall (Scannable config) apis ->
  includes (generateImports apis typesImportPath config) exportConst = false ->
  exists m,
    extractExistingApis (generateApiFile apis typesImportPath config ++ tail) = scan tail m /\
    forall key, TagUpdate.hasKey key m = mem key (map api_functionName apis).
Proof.
  intros Hall Himports. apply includes_false in Himports.
  unfold extractExistingApis.
  fold (scan (generateApiFile apis typesImportPath config ++ tail) []).
  rewrite generateApiFile_layout, !append_assoc.
  set (functions := generatedFunctions apis config ++ AUTO_GEN_END ++ nl ++ tail).
  assert (Hhead : scan (filePreamble ++ generateImports apis typesImportPath config
                        ++ nl ++ nl ++ AUTO_GEN_START ++ nl ++ nl ++ functions) []
                  = scan functions []).
  { set (imports := generateImports apis typesImportPath config) in *.
    set (P := "/**" ++ nl ++ " * 此文件由 swagger-typegen 自动生成" ++ nl
              ++ " * 自动生成的代码在 AUTO GENERATED 标记之间" ++ nl
              ++ " * 标记之外的代码不会被覆盖" ++ nl ++ " */" ++ nl).
    change filePreamble with (P ++ nl). rewrite !append_assoc.
    change (nl ++ imports ++ nl ++ nl ++ AUTO_GEN_START ++ nl ++ nl ++ functions)
      with (String (ascii_of_nat 10)
              (imports ++ nl ++ nl ++ AUTO_GEN_START ++ nl ++ nl ++ functions)).
    rewrite (scan_skip P _ _ eq_refl).
    change (nl ++ nl ++ AUTO_GEN_START ++ nl ++ nl ++ functions)
      with (String (ascii_of_nat 10) (nl ++ AUTO_GEN_START ++ nl ++ nl ++ functions)).
    rewrite (scan_skip imports _ _ Himports).
    change (nl ++ AUTO_GEN_START ++ nl ++ nl ++ functions)
      with ((nl ++ AUTO_GEN_START ++ nl) ++ String (ascii_of_nat 10) functions).
    now rewrite (scan_skip (nl ++ AUTO_GEN_START ++ nl) _ _ eq_refl). }
  rewrite Hhead. unfold functions.
  destruct (scan_functions apis (AUTO_GEN_END ++ nl ++ tail) [] Hall) as (m & Hm & Hkeys).
  exists m. split; [|exact Hkeys].
  rewrite Hm.
  change (AUTO_GEN_END ++ nl ++ tail) with (AUTO_GEN_END ++ String (ascii_of_nat 10) tail).
  apply (scan_skip AUTO_GEN_END tail m eq_refl).
Qed.

Lemma append_empty (s : string) : s ++ "" = s.
Proof. induction s as [|c s IH]; simpl; [reflexivity | now rewrite IH]. Qed.

(** The functions that [extractExistingApis] finds in a generated file are
    the functions that were generated. *)
Lemma extractExistingApis_generated (apis : list ParsedAPI) (typesImportPath : string) :
  Forall (Scannable config) apis ->
  includes (generateImports apis typesImportPath config) exportConst = false ->
  forall key,
    TagUpdate.hasKey key (extractExistingApis (generateApiFile apis typesImportPath config))
    = mem key (map api_functionName apis).
Proof.
  intros Hall Himports key.
  destruct (scan_generated apis typesImportPath "" Hall Himports) as (m & Hm & Hkeys).
  rewrite append_empty in Hm. rewrite Hm. apply Hkeys.
Qed.

(** The scan of one function written by hand, at the end of the file. *)
Lemma scan_handWritten (name params body : string) (m : Record string) :
  name <> "" -> allChars isWordChar name = true ->
  allChars notCloseParen params = true ->
  includes (body ++ nl ++ "}") exportConst = false ->
  exists text, scan (handWritten name params body ++ nl) m = assignKey name text m.
Proof.
  intros Hne Hname Hparams Hbody. apply includes_false in Hbody.
  set (closing := String (ascii_of_nat 10) "}").
  set (inside := body ++ nl ++ "}") in *.
  destruct (indexOf_before closing body "") as (i & Hi & Hle).
  assert (Hinside : inside = body ++ closing ++ "") by reflexivity.
  rewrite <- Hinside in Hi.
  assert (Hlen : i + 2 <= String.length inside).
  { rewrite Hinside, !length_append. change (String.length closing) with 2. lia. }
  destruct (matchFunction_found name params inside nl i Hne Hname Hparams Hi) as [text Hm].
  exists text. unfold handWritten. fold inside. rewrite !append_assoc.
  rewrite (scan_match _ _ _ _ m Hm).
  rewrite drop_app_le by exact Hlen.
  apply scan_nothing. now apply indexOf_none_drop.
Qed.

Lemma assignKey_fresh (T : Type) (k : string) (v : T) (m : Record T) :
  lookup k m = None -> assignKey k v m = (m ++ [(k, v)])%list.
Proof.
  induction m as [|[k' w] m IH]; simpl; [reflexivity|].
  destruct (String.eqb k k'); [discriminate|]. intros H. now rewrite IH.
Qed.

End ScanFacts.

(** X21: a check that follows an update reports no function as added or
    removed, when the scan of the generated file can find every function
    again. *)
Theorem check_after_update_reports_no_function_change
    (apis : list ParsedAPI) (config : Config) :
  Forall (Scannable config) apis ->
  includes (generateImports apis "./types" config) exportConst = false ->
  CheckCommand.detectApiChanges (Some (generateApiFile apis "./types" config)) apis = [].
Proof.
  intros Hall Himports.
  pose proof (extractExistingApis_generated config apis "./types" Hall Himports) as Hkeys.
  unfold CheckCommand.detectApiChanges.
  set (existingApis := ExistingApis.extractExistingApis _) in *.
  match goal with
  | |- (?a ++ ?b)%list = [] =>
      assert (Ha : a = []); [|assert (Hb : b = []); [|now rewrite Ha, Hb]]
  end.
  - apply flat_map_nil. intros api Hin. rewrite Hkeys.
    assert (Hmem : mem (api_functionName api) (map api_functionName apis) = true).
    { apply mem_In. now apply in_map. }
    now rewrite Hmem.
  - apply flat_map_nil. intros [k v] Hin. cbn [fst].
    destruct (lookup_some_of_In _ _ _ _ Hin) as [w Hw].
    specialize (Hkeys k). unfold TagUpdate.hasKey in Hkeys. rewrite Hw in Hkeys.
    now rewrite <- Hkeys.
Qed.

Lemma check_after_update_reports_no_function_change_witness :
  CheckCommand.detectApiChanges
    (Some (generateApiFile
             [mkParsedAPI "/api/users/{id}" "/users/{id}" "get" "user" "getUsersById"
                          (Some "One user") None None (Some "User") [] [] None None;
              mkParsedAPI "/api/users" "/users" "post" "user" "postUsers"
                          None None (Some "CreateUser") None [] [] None None]
             "./types" defaultConfig))
    [mkParsedAPI "/api/users/{id}" "/users/{id}" "get" "user" "getUsersById"
                 (Some "One user") None None (Some "User") [] [] None None;
     mkParsedAPI "/api/users" "/users" "post" "user" "postUsers"
                 None None (Some "CreateUser") None [] [] None None]
  = [].
Proof.
  apply check_after_update_reports_no_function_change.
  - repeat constructor; try (vm_compute; reflexivity); vm_compute; discriminate.
  - vm_compute. reflexivity.
Defined.

(** X22: the check command scans the whole function file, not only the
    generated region. A function that the user has written by hand behind
    the end marker, in the form of the generated ones and under a name that
    no generated function has, is reported as removed, and nothing else is
    reported. *)
Theorem check_reports_hand_written_function_as_removed
    (apis : list ParsedAPI) (config : Config) (name params body : string) :
  Forall (Scannable config) apis ->
  includes (generateImports apis "./types" config) exportConst = false ->
  name <> "" -> allChars ExistingApis.isWordChar name = true ->
  allChars ExistingApis.notCloseParen params = true ->
  includes (body ++ nl ++ "}") exportConst = false ->
  mem name (map api_functionName apis) = false ->
  CheckCommand.detectApiChanges
    (Some (generateApiFile apis "./types" config ++ handWritten name params body ++ nl))
    apis
  = [CheckCommand.mkAPIChange "" "" CheckCommand.removed name].
Proof.
  intros Hall Himports Hne Hname Hparams Hbody Hfresh.
  destruct (scan_generated config apis "./types" (handWritten name params body ++ nl)
              Hall Himports) as (m & Hm & Hkeys).
  destruct (scan_handWritten name params body m Hne Hname Hparams Hbody) as [text Htext].
  unfold CheckCommand.detectApiChanges. rewrite Hm, Htext.
  assert (Hnone : lookup name m = None).
  { specialize (Hkeys name). rewrite Hfresh in Hkeys. unfold TagUpdate.hasKey in Hkeys.
    now destruct (lookup name m). }
  match goal with
  | |- (?a ++ ?b)%list = _ =>
      assert (Ha : a = []);
      [|assert (Hb : b = [CheckCommand.mkAPIChange "" "" CheckCommand.removed name]);
        [|now rewrite Ha, Hb]]
  end.
  - apply flat_map_nil. intros api Hin. rewrite hasKey_assignKey, Hkeys.
    assert (Hmem : mem (api_functionName api) (map api_functionName apis) = true).
    { apply mem_In. now apply in_map. }
    rewrite Hmem. now rewrite orb_true_r.
  - rewrite (assignKey_fresh _ _ _ _ Hnone), flat_map_app.
    cbn [flat_map fst app]. rewrite Hfresh.
    match goal with
    | |- (?a ++ _)%list = _ => assert (Hkept : a = []); [|now rewrite Hkept]
    end.
    apply flat_map_nil. intros [k v] Hin. cbn [fst].
    destruct (lookup_some_of_In _ _ _ _ Hin) as [w Hw].
    specialize (Hkeys k). unfold TagUpdate.hasKey in Hkeys. rewrite Hw in Hkeys.
    now rewrite <- Hkeys.
Qed.

Lemma check_reports_hand_written_function_as_removed_witness :
  CheckCommand.detectApiChanges
    (Some (generateApiFile
             [mkParsedAPI "/api/users" "/users" "post" "user" "postUsers"
                          None None (Some "CreateUser") None [] [] None None]
             "./types" defaultConfig
           ++ handWritten "mine" "id: number" (nl ++ "  return id") ++ nl))
    [mkParsedAPI "/api/users" "/users" "post" "user" "postUsers"
                 None None (Some "CreateUser") None [] [] None None]
  = [CheckCommand.mkAPIChange "" "" CheckCommand.removed "mine"].
Proof.
  apply check_reports_hand_written_function_as_removed.
  - repeat constructor; try (vm_compute; reflexivity); vm_compute; discriminate.
  - vm_compute. reflexivity.
  - discriminate.
  - reflexivity.
  - reflexivity.
  - vm_compute. reflexivity.
  - reflexivity.
Defined.

(* ----------------------------------------------------------------- *)
(** ** A second run of the update *)

Section RegenerationFacts.

(** A pattern without the code unit [c] that does not occur in [x] is found
    in [x ++ c ++ y] where it is found in [y]. *)
Lemma indexOf_separator (p x y : string) (c : ascii) :
  p <> "" ->
  allChars (fun d => negb (Ascii.eqb d c)) p = true ->
  indexOf p x = None ->
  indexOf p (x ++ String c y)
  = option_map (fun n => String.length x + 1 + n) (indexOf p y).
Proof.
  intros Hp Hc. induction x as [|d x IH]; intros Hx.
  - cbn [append String.length Nat.add].
    assert (Hs : startsWith (String c y) p = false).
    { destruct p as [|e p]; [congruence|]. simpl in Hc |- *.
      apply andb_true_iff in Hc as [He _]. apply negb_true_iff in He.
      now rewrite He. }
    simpl. rewrite Hs. destruct (indexOf p y); reflexivity.
  - apply indexOf_none_cons in Hx as [Hs Hx].
    change (String d x ++ String c y) with (String d (x ++ String c y)).
    assert (Hs' : startsWith (String d (x ++ String c y)) p = false).
    { destruct (startsWith (String d (x ++ String c y)) p) eqn:E; [|reflexivity].
      apply (startsWith_separator (String d x) y p c Hc) in E. congruence. }
    simpl. rewrite Hs'. rewrite (IH Hx).
    destruct (indexOf p y); reflexivity.
Qed.

(** When the import lines do not hold the text of the end marker, the
    generated file has its start marker first. *)
Lemma generated_markers_first
    (apis : list ParsedAPI) (typesImportPath : string) (config : Config) :
  includes (generateImports apis typesImportPath config) AUTO_GEN_END = false ->
  MarkersInOrder (generateApiFile apis typesImportPath config).
Proof.
  intros Himports. apply includes_false in Himports.
  rewrite generateApiFile_layout.
  set (imports := generateImports apis typesImportPath config) in *.
  set (body := nl ++ nl ++ generatedFunctions apis config ++ AUTO_GEN_END ++ nl).
  destruct (indexOf_before AUTO_GEN_START (filePreamble ++ imports ++ nl ++ nl) body)
    as (i & Hi & Hle).
  rewrite !append_assoc in Hi. rewrite !length_append in Hle.
  destruct (indexOf_before AUTO_GEN_END
              (AUTO_GEN_START ++ nl ++ nl ++ generatedFunctions apis config) nl)
    as (j & Hj & _).
  rewrite !append_assoc in Hj.
  exists i, (String.length filePreamble + (String.length imports + 1 + (0 + 1 + j))).
  split; [exact Hi|]. split.
  - rewrite (indexOf_skip AUTO_GEN_END filePreamble) by (vm_compute; reflexivity).
    change (imports ++ nl ++ nl ++ AUTO_GEN_START ++ body)
      with (imports ++ String (ascii_of_nat 10) ("" ++ String (ascii_of_nat 10)
                                                  (AUTO_GEN_START ++ body))).
    rewrite (indexOf_separator AUTO_GEN_END imports _ (ascii_of_nat 10))
      by (discriminate || reflexivity || exact Himports).
    rewrite (indexOf_separator AUTO_GEN_END "" _ (ascii_of_nat 10))
      by (discriminate || reflexivity).
    unfold body. rewrite Hj. reflexivity.
  - change (String.length nl) with 1 in Hle. lia.
Qed.

End RegenerationFacts.

(** X23: a second run of the update over the output of a first run writes
    the same two files again, when the import lines of the generated file
    do not hold the text of the end marker and the function file that the
    first run found was absent, or lacked a marker, or had its start marker
    first. The generated file then has its start marker first, and merging
    a text with itself returns the text exactly when its first end marker
    does not end before its first start marker begins with at least one
    code unit between them. *)
Theorem second_run_writes_the_same_files
    (moduleTypes : list ParsedType) (moduleApis : list ParsedAPI) (config : Config)
    (files : Update.ModuleFiles) :
  includes (generateImports moduleApis "./types" config) AUTO_GEN_END = false ->
  match Update.indexFile files with
  | Some prior =>
      MarkersInOrder prior \/
      includes prior AUTO_GEN_START && includes prior AUTO_GEN_END = false
  | None => True
  end ->
  (forall t : string, mergeWithExisting t t = t <-> ~ EndBeforeStart t) /\
  MarkersInOrder (generateApiFile moduleApis "./types" config) /\
  let firstRun := Update.updateModule moduleTypes moduleApis config files in
  Update.updateModule moduleTypes moduleApis config firstRun = firstRun.
Proof.
  intros Himports Hprior.
  pose proof (generated_markers_first moduleApis "./types" config Himports) as Hnew.
  split; [exact merge_self|]. split; [exact Hnew|].
  set (new := generateApiFile moduleApis "./types" config) in *.
  assert (Hself : mergeWithExisting new new = new).
  { apply merge_self. intros (i & j & Hi & Hj & Hlt).
    destruct Hnew as (i' & j' & Hi' & Hj' & Hle). rewrite Hi in Hi'. rewrite Hj in Hj'.
    injection Hi' as <-. injection Hj' as <-. lia. }
  unfold Update.updateModule, Update.generateModuleApi. cbn [Update.indexFile].
  fold new. f_equal. f_equal.
  destruct (Update.indexFile files) as [prior|]; [|exact Hself].
  destruct Hprior as [(i & j & Hi & Hj & Hij)|Hforeign].
  - destruct Hnew as (k & l & Hk & Hl & Hkl).
    destruct (merged_markers prior new i j k l Hi Hj Hk Hl Hij Hkl)
      as (Hstart & Hend & Htake & Hdrop).
    rewrite (merge_formula _ new _ _ k l Hstart Hend Hk Hl).
    rewrite Htake, Hdrop. symmetry.
    apply (merge_formula prior new i j k l Hi Hj Hk Hl).
  - assert (Hfirst : mergeWithExisting prior new = new).
    { apply merge_foreign. unfold includes in Hforeign.
      destruct (indexOf AUTO_GEN_START prior); [|now left].
      destruct (indexOf AUTO_GEN_END prior); [discriminate | right; now left]. }
    rewrite Hfirst. exact Hself.
Qed.

Lemma second_run_writes_the_same_files_witness :
  let firstRun :=
    Update.updateModule [] [getUser] defaultConfig
                        (Update.mkModuleFiles None (Some handEditedFile)) in
  Update.updateModule [] [getUser] defaultConfig firstRun = firstRun.
Proof.
  refine (proj2 (proj2 (second_run_writes_the_same_files [] [getUser] defaultConfig
                          (Update.mkModuleFiles None (Some handEditedFile)) _ _))).
  - vm_compute. reflexivity.
  - left. eexists _, _. split; [vm_compute; reflexivity|].
    split; [vm_compute; reflexivity|]. apply Nat.leb_le. vm_compute. reflexivity.
Defined.
